(** * MurmurationSim: the generative geometry pipeline

    A shallow embedding of the point-cloud pipeline of the repository
    (js/generate.js, js/noise.js with the deformers, js/main.js with the
    presets, the projection and the vector helpers, js/shapes.js and the
    stroke simplification of the freehand editor) and the properties its
    specification states about it, followed by further properties of the
    same code.

    JavaScript numbers are IEEE-754 binary64 values; they are modelled by
    Rocq's primitive [float], whose [+ - * /], [sqrt], [abs] and comparisons
    are the same correctly rounded operations.  The transcendental functions
    of the host's [Math] object (sin, cos, cbrt, pow, atan2), which ECMAScript
    leaves implementation-approximated, are a parameter [MathLib] of
    everything that uses them.  Quantities the program only ever uses as
    integers (point counts, seeds, octave and cluster counts, table indices)
    are modelled in [Z]. *)

From Stdlib Require Import ZArith List Bool Lia Floats Znumtheory Sorted Permutation.
From Stdlib Require Uint63 String.
Import String.StringSyntax.
Import ListNotations.
Local Open Scope Z_scope.
Delimit Scope string_scope with string.
Bind Scope string_scope with String.string.

Set Warnings "-inexact-float".

(* ================================================================== *)
(** ** JavaScript numbers *)

Module JS.

(** Conversion of an integer to the nearest number. *)
Definition Z2F (z : Z) : float :=
  match z with
  | Z0 => 0%float
  | Zpos _ => of_uint63 (Uint63.of_Z z)
  | Zneg p => (- of_uint63 (Uint63.of_Z (Zpos p)))%float
  end.

(** Integer part of a number (truncation); NaN and the infinities give 0,
    as in ECMAScript's integer conversions. *)
Definition F2Z (x : float) : Z :=
  match Prim2SF x with
  | S754_finite s m e =>
      let v := match e with
               | Zneg k => Z.shiftr (Zpos m) (Zpos k)
               | _ => Z.shiftl (Zpos m) e
               end in
      if s then - v else v
  | _ => 0
  end.

(** [Math.floor]. *)
Definition floor (x : float) : float :=
  match Prim2SF x with
  | S754_finite s m e =>
      match e with
      | Zneg k => Z2F (Z.shiftr (if s then Zneg m else Zpos m) (Zpos k))
      | _ => x
      end
  | _ => x
  end.

(** [Math.ceil]. *)
Definition ceil (x : float) : float := (- floor (- x))%float.

(** [Math.round]: the nearest integer, ties towards +Infinity. *)
Definition round (x : float) : float :=
  match Prim2SF x with
  | S754_finite s m e =>
      match e with
      | Zneg k =>
          let r := Z.shiftr (2 * (if s then Zneg m else Zpos m) + 2 ^ Zpos k)
                            (Zpos k + 1) in
          if (r =? 0) && s then (-0)%float else Z2F r
      | _ => x
      end
  | _ => x
  end.

(** [Math.max] and [Math.min] of two numbers. *)
Definition max (x y : float) : float :=
  if is_nan x || is_nan y then nan
  else if (x <? y)%float then y
  else if (y <? x)%float then x
  else if get_sign x then y else x.

Definition min (x y : float) : float :=
  if is_nan x || is_nan y then nan
  else if (x <? y)%float then x
  else if (y <? x)%float then y
  else if get_sign x then x else y.

Definition max3 (x y z : float) : float := max (max x y) z.

(** [x || d] on numbers: 0, -0 and NaN are falsy. *)
Definition orElse (x d : float) : float :=
  if (x =? 0)%float || is_nan x then d else x.

(** [x || d] on an integer-valued field. *)
Definition orElseZ (x d : Z) : Z := if x =? 0 then d else x.

Definition PI : float := 3.141592653589793%float.

(** A number of the format that carries the sign [s] and is not a zero. *)
Definition signed (s : bool) (x : spec_float) : Prop :=
  (exists m e, x = S754_finite s m e) \/ x = S754_infinity s.

End JS.

(** The implementation-approximated part of the host's [Math] object. *)
Record MathLib : Type := {
  sin : float -> float;
  cos : float -> float;
  cbrt : float -> float;
  pow : float -> float -> float;
  atan2 : float -> float -> float
}.

(** A reference implementation of these functions, used to run the model:
    the special values are ECMAScript's, the rest are series approximations
    (any implementation is an approximation; none of the general theorems
    depends on this one). *)
Module Approx.

Definition twoPi : float := (2 * JS.PI)%float.
Definition ln2 : float := 0.6931471805599453%float.

(** Alternating series for sine (from k = 1) and cosine (from k = 0). *)
Fixpoint trigSeries (n : nat) (k term acc x2 : float) : float :=
  match n with
  | O => acc
  | S m =>
      let term := (- term * x2 / ((k + 1) * (k + 2)))%float in
      trigSeries m (k + 2)%float term (acc + term)%float x2
  end.

Definition reduce (x : float) : float := (x - twoPi * JS.round (x / twoPi))%float.

Definition sin (x : float) : float :=
  if is_nan x || is_infinity x then nan
  else if (x =? 0)%float then x
  else let r := reduce x in trigSeries 14 1 r r (r * r).

Definition cos (x : float) : float :=
  if is_nan x || is_infinity x then nan
  else let r := reduce x in trigSeries 14 0 1 1 (r * r).

Fixpoint newtonCbrt (n : nat) (a y : float) : float :=
  match n with
  | O => y
  | S m => newtonCbrt m a ((2 * y + a / (y * y)) / 3)%float
  end.

Definition cbrt (x : float) : float :=
  if is_nan x || is_infinity x || (x =? 0)%float then x
  else
    let a := abs x in
    let y := newtonCbrt 200 a (if (a <? 1)%float then 1%float else a) in
    if (x <? 0)%float then (- y)%float else y.

Fixpoint expSeries (n : nat) (k term acc r : float) : float :=
  match n with
  | O => acc
  | S m =>
      let term := (term * r / k)%float in
      expSeries m (k + 1)%float term (acc + term)%float r
  end.

Definition exp (z : float) : float :=
  if is_nan z then nan
  else if (z <? -745)%float then 0%float
  else if (710 <? z)%float then infinity
  else
    let k := JS.round (z / ln2) in
    let r := (z - k * ln2)%float in
    Z.ldexp (expSeries 20 1 1 1 r) (JS.F2Z k).

Fixpoint oddSeries (n : nat) (sgn k tp acc t2 : float) : float :=
  match n with
  | O => acc
  | S m =>
      let tp := (sgn * tp * t2)%float in
      oddSeries m sgn (k + 2)%float tp (acc + tp / (k + 2))%float t2
  end.

(** Natural logarithm of a positive finite number. *)
Definition ln (x : float) : float :=
  let '(m, e) := Z.frexp x in
  let t := ((m - 1) / (m + 1))%float in
  (JS.Z2F e * ln2 + 2 * oddSeries 30 1 1 t t (t * t))%float.

Fixpoint powNat (x : float) (n : nat) : float :=
  match n with
  | O => 1%float
  | S m => (x * powNat x m)%float
  end.

Definition isInteger (y : float) : bool := (JS.floor y =? y)%float.

Definition pow (x y : float) : float :=
  if is_nan y then nan
  else if (y =? 0)%float then 1%float
  else if is_nan x then nan
  else if isInteger y && (abs y <=? 64)%float then
    let p := powNat x (Z.to_nat (JS.F2Z (abs y))) in
    if (y <? 0)%float then (1 / p)%float else p
  else if (x =? 0)%float then (if (y <? 0)%float then infinity else 0%float)
  else if (x <? 0)%float then nan
  else exp (y * ln x).

Definition atan (t : float) : float :=
  let a := abs t in
  let inv := (1 <? a)%float in
  let a := if inv then (1 / a)%float else a in
  let a := (a / (1 + sqrt (1 + a * a)))%float in
  let a := (a / (1 + sqrt (1 + a * a)))%float in
  let r := (4 * oddSeries 20 (-1) 1 a a (a * a))%float in
  let r := if inv then (JS.PI / 2 - r)%float else r in
  if (t <? 0)%float then (- r)%float else r.

Definition atan2 (y x : float) : float :=
  if is_nan x || is_nan y then nan
  else if (0 <? x)%float then atan (y / x)
  else if (x <? 0)%float then
    (if (y <? 0)%float then (atan (y / x) - JS.PI)%float
     else (atan (y / x) + JS.PI)%float)
  else if (0 <? y)%float then (JS.PI / 2)%float
  else if (y <? 0)%float then (- (JS.PI / 2))%float
  else 0%float.

End Approx.

Definition approxMath : MathLib :=
  Build_MathLib Approx.sin Approx.cos Approx.cbrt Approx.pow Approx.atan2.

(* ================================================================== *)
(** ** The Mulberry32 generator (generate.js and noise.js, identical) *)

Module Prng.

Definition u32 (z : Z) : Z := z mod 2 ^ 32.

(** [Math.imul]: the low 32 bits of the product. *)
Definition imul (a b : Z) : Z := u32 (a * b).

(** The generator's state is the captured variable [a]; 32-bit values are
    kept as their unsigned representatives. *)
Definition state := Z.

Definition mulberry32 (a : Z) : state := a.

Definition increment : Z := 0x6D2B79F5.

(** One call of the closure: the next draw in [0,1) and the new state. *)
Definition next (a : state) : float * state :=
  let a := u32 (a + increment) in
  let t := imul (Z.lxor a (Z.shiftr a 15)) (Z.lor 1 a) in
  let t := Z.lxor (u32 (t + imul (Z.lxor t (Z.shiftr t 7)) (Z.lor 61 t))) t in
  ((JS.Z2F (Z.lxor t (Z.shiftr t 14)) / 4294967296)%float, a).

End Prng.

(* ================================================================== *)
(** ** Points *)

Record Point : Type := mkPoint { px : float; py : float; pz : float }.

(* ================================================================== *)
(** ** noise.js: simplex noise, fBm, vector fBm and curl *)

Module Noise.

(** The module state: the doubled permutation table and the [_seeded] flag. *)
Record State : Type := mkState { perm : list Z; seeded : bool }.

(** The state at module load: a zeroed [Uint8Array(512)], not seeded. *)
Definition initial : State := mkState (repeat 0 512) false.

Definition grad3 : list (float * float * float) :=
  [ (1, 1, 0); (-1, 1, 0); (1, -1, 0); (-1, -1, 0);
    (1, 0, 1); (-1, 0, 1); (1, 0, -1); (-1, 0, -1);
    (0, 1, 1); (0, -1, 1); (0, 1, -1); (0, -1, -1) ]%float.

Definition get (p : list Z) (i : Z) : Z := nth (Z.to_nat i) p 0.

Fixpoint set (p : list Z) (i : nat) (v : Z) : list Z :=
  match p, i with
  | [], _ => []
  | _ :: r, O => v :: r
  | x :: r, S i' => x :: set r i' v
  end.

(** The Fisher-Yates loop [for (i = n; i > 0; i--)]. *)
Fixpoint shuffle (n : nat) (p : list Z) (rng : Prng.state) : list Z :=
  match n with
  | O => p
  | S m =>
      let i := Z.of_nat n in
      let '(r, rng) := Prng.next rng in
      let j := JS.F2Z (JS.floor (r * JS.Z2F (i + 1))%float) in
      let tmp := get p i in
      let p := set p n (get p j) in
      let p := set p (Z.to_nat j) tmp in
      shuffle m p rng
  end.

(** The shuffled 256-entry array [p] of [seed(s)]. *)
Definition shuffled (s : Z) : list Z :=
  shuffle 255 (map Z.of_nat (seq 0 256)) (Prng.mulberry32 s).

(** [seed(s)]: the loop [for (i = 0; i < 512; i++) perm[i] = p[i & 255]]
    writes into the existing table; then the flag is set. *)
Definition seed (s : Z) (st : State) : State :=
  let p := shuffled s in
  mkState (fold_left (fun perm i => set perm i (get p (Z.land (Z.of_nat i) 255)))
                     (seq 0 512) (perm st))
          true.

(** [ensureSeeded()]: the lazy default seed. *)
Definition ensureSeeded (st : State) : State :=
  if seeded st then st else seed 0 st.

(** The table is a [Uint8Array(512)]: its length never changes. *)
Definition wf (st : State) : Prop := length (perm st) = 512%nat.

Definition F3 : float := (1 / 3)%float.
Definition G3 : float := (1 / 6)%float.

Definition dot3 (g : float * float * float) (x y z : float) : float :=
  let '(g0, g1, g2) := g in (g0 * x + g1 * y + g2 * z)%float.

Definition grad (gi : Z) : float * float * float :=
  nth (Z.to_nat gi) grad3 (0, 0, 0)%float.

(** One corner's contribution. *)
Definition corner (gi : Z) (x y z : float) : float :=
  let t := (0.6 - x * x - y * y - z * z)%float in
  if (t <? 0)%float then 0%float
  else let t := (t * t)%float in (t * t * dot3 (grad gi) x y z)%float.

(** [simplex3(xin, yin, zin)].  It reads the table left by [ensureSeeded];
    the lazy seeding writes the state once and later reads see the same
    table (lemma [ensureSeeded_idem]), so the noise functions are readers of
    the state. *)
Definition simplex3 (st : State) (xin yin zin : float) : float :=
  let perm := perm (ensureSeeded st) in
  let s := ((xin + yin + zin) * F3)%float in
  let i := JS.floor (xin + s) in
  let j := JS.floor (yin + s) in
  let k := JS.floor (zin + s) in
  let t := ((i + j + k) * G3)%float in
  let X0 := (i - t)%float in
  let Y0 := (j - t)%float in
  let Z0 := (k - t)%float in
  let x0 := (xin - X0)%float in
  let y0 := (yin - Y0)%float in
  let z0 := (zin - Z0)%float in
  let '(i1, j1, k1, i2, j2, k2) :=
    if (y0 <=? x0)%float then
      if (z0 <=? y0)%float then (1, 0, 0, 1, 1, 0)
      else if (z0 <=? x0)%float then (1, 0, 0, 1, 0, 1)
      else (0, 0, 1, 1, 0, 1)
    else
      if (y0 <? z0)%float then (0, 0, 1, 0, 1, 1)
      else if (x0 <? z0)%float then (0, 1, 0, 0, 1, 1)
      else (0, 1, 0, 1, 1, 0) in
  let x1 := (x0 - JS.Z2F i1 + G3)%float in
  let y1 := (y0 - JS.Z2F j1 + G3)%float in
  let z1 := (z0 - JS.Z2F k1 + G3)%float in
  let x2 := (x0 - JS.Z2F i2 + 2.0 * G3)%float in
  let y2 := (y0 - JS.Z2F j2 + 2.0 * G3)%float in
  let z2 := (z0 - JS.Z2F k2 + 2.0 * G3)%float in
  let x3 := (x0 - 1.0 + 3.0 * G3)%float in
  let y3 := (y0 - 1.0 + 3.0 * G3)%float in
  let z3 := (z0 - 1.0 + 3.0 * G3)%float in
  let ii := Z.land (JS.F2Z i) 255 in
  let jj := Z.land (JS.F2Z j) 255 in
  let kk := Z.land (JS.F2Z k) 255 in
  let gi0 := get perm (ii + get perm (jj + get perm kk)) mod 12 in
  let gi1 := get perm (ii + i1 + get perm (jj + j1 + get perm (kk + k1))) mod 12 in
  let gi2 := get perm (ii + i2 + get perm (jj + j2 + get perm (kk + k2))) mod 12 in
  let gi3 := get perm (ii + 1 + get perm (jj + 1 + get perm (kk + 1))) mod 12 in
  let n0 := corner gi0 x0 y0 z0 in
  let n1 := corner gi1 x1 y1 z1 in
  let n2 := corner gi2 x2 y2 z2 in
  let n3 := corner gi3 x3 y3 z3 in
  (32.0 * (n0 + n1 + n2 + n3))%float.

(** The option bundle of [fbm3]; an absent field takes its default. *)
Record Opts : Type := mkOpts {
  octaves : option Z;
  persistence : option float;
  lacunarity : option float;
  frequency : option float;
  amplitude : option float
}.

Definition noOpts : Opts := mkOpts None None None None None.

Definition dflt {A : Type} (d : A) (o : option A) : A :=
  match o with Some v => v | None => d end.

(** The octave loop of [fbm3]: [n] iterations from the accumulators. *)
Fixpoint fbmLoop (st : State) (n : nat) (x y z pers lac : float)
    (value amp freq maxAmp : float) : float * float :=
  match n with
  | O => (value, maxAmp)
  | S m =>
      let value := (value + simplex3 st (x * freq) (y * freq) (z * freq) * amp)%float in
      let maxAmp := (maxAmp + amp)%float in
      fbmLoop st m x y z pers lac value (amp * pers)%float (freq * lac)%float maxAmp
  end.

Definition fbm3 (st : State) (x y z : float) (opts : Opts) : float :=
  let oct := dflt 4 (octaves opts) in
  let pers := dflt 0.5%float (persistence opts) in
  let lac := dflt 2.0%float (lacunarity opts) in
  let '(value, maxAmp) :=
    fbmLoop st (Z.to_nat oct) x y z pers lac 0%float
            (dflt 1.0%float (amplitude opts)) (dflt 1.0%float (frequency opts)) 0%float in
  (value / maxAmp)%float.

Definition fbm3vec (st : State) (x y z : float) (opts : Opts) : Point :=
  mkPoint (fbm3 st x y z opts)
          (fbm3 st (x + 31.416) (y + 47.853) (z + 12.679) opts)
          (fbm3 st (x + 74.205) (y + 13.842) (z + 56.917) opts).

Definition curl3 (st : State) (x y z : float) (opts : Opts) : Point :=
  let eps := 0.001%float in
  let OX := 31.416%float in let OY := 47.853%float in let OZ := 12.679%float in
  let PX := 74.205%float in let PY := 13.842%float in let PZ := 56.917%float in
  let dNz_dy := ((fbm3 st (x + PX) ((y + eps) + PY) (z + PZ) opts
                  - fbm3 st (x + PX) ((y - eps) + PY) (z + PZ) opts) / (2 * eps))%float in
  let dNy_dz := ((fbm3 st (x + OX) (y + OY) ((z + eps) + OZ) opts
                  - fbm3 st (x + OX) (y + OY) ((z - eps) + OZ) opts) / (2 * eps))%float in
  let dNx_dz := ((fbm3 st x y (z + eps) opts - fbm3 st x y (z - eps) opts) / (2 * eps))%float in
  let dNz_dx := ((fbm3 st ((x + eps) + PX) (y + PY) (z + PZ) opts
                  - fbm3 st ((x - eps) + PX) (y + PY) (z + PZ) opts) / (2 * eps))%float in
  let dNy_dx := ((fbm3 st ((x + eps) + OX) (y + OY) (z + OZ) opts
                  - fbm3 st ((x - eps) + OX) (y + OY) (z + OZ) opts) / (2 * eps))%float in
  let dNx_dy := ((fbm3 st x (y + eps) z opts - fbm3 st x (y - eps) z opts) / (2 * eps))%float in
  mkPoint (dNz_dy - dNy_dz) (dNx_dz - dNz_dx) (dNy_dx - dNx_dy)%float.

End Noise.

(* ================================================================== *)
(** ** The shared parameter object (main.js, [params]) *)

Inductive ShapeType : Type := Ellipsoid | Sphere | Torus | Swept | OtherShape.
Inductive FillMode : Type := Surface | Volume.
Inductive Axis : Type := AxisX | AxisY | AxisZ.
Inductive ProjType : Type := Perspective | Ortho.

Record Params : Type := mkParams {
  (* shape *)
  shapeType : ShapeType;
  count : Z;
  radiusX : float;
  radiusY : float;
  radiusZ : float;
  torusMajor : float;
  torusMinor : float;
  sweptRadius : float;
  fillMode : FillMode;
  seed : Z;
  densityFalloff : float;
  densityNoise : float;
  densityNoiseFreq : float;
  subFlocks : Z;
  subFlockSpread : float;
  subFlockSizeVar : float;
  subFlockBridge : float;
  (* noise *)
  noiseFreq : float;
  noiseAmp : float;
  noiseOctaves : Z;
  noisePersistence : float;
  noiseLacunarity : float;
  noiseOffsetX : float;
  noiseOffsetY : float;
  noiseOffsetZ : float;
  smoothEnabled : bool;
  smoothFreq : float;
  smoothAmp : float;
  (* deformers *)
  twistEnabled : bool;
  twistAmount : float;
  twistAxis : Axis;
  taperEnabled : bool;
  taperStart : float;
  taperEnd : float;
  taperAxis : Axis;
  bendEnabled : bool;
  bendAngle : float;
  bendAxis : Axis;
  waveEnabled : bool;
  waveFreq : float;
  waveAmp : float;
  waveAxis : Axis;
  wavePhase : float;
  (* camera *)
  camRotX : float;
  camRotY : float;
  camRotZ : float;
  camZoom : float;
  projType : ProjType;
  camFOV : float;
  (* bird appearance *)
  birdScale : float;
  depthScale : float;
  orientToFlow : bool;
  orientJitter : float;
  curlFlowFreq : float;
  curlFlowOctaves : Z;
  poseVariation : bool;
  poseNoiseFreq : float;
  depthOpacity : float;
  depthOpacityCurve : float;
  darkBandEnabled : bool;
  darkBandGridSize : float;
  (* display *)
  width : float;
  height : float
}.

(** The per-cluster object [{...params, count, radiusX, ..., seed}]. *)
Definition withCluster (p : Params) (count' : Z)
    (rx ry rz tmaj tmin swept : float) (seed' : Z) : Params :=
  mkParams (shapeType p) count' rx ry rz tmaj tmin swept (fillMode p) seed'
    (densityFalloff p) (densityNoise p) (densityNoiseFreq p)
    (subFlocks p) (subFlockSpread p) (subFlockSizeVar p) (subFlockBridge p)
    (noiseFreq p) (noiseAmp p) (noiseOctaves p) (noisePersistence p)
    (noiseLacunarity p) (noiseOffsetX p) (noiseOffsetY p) (noiseOffsetZ p)
    (smoothEnabled p) (smoothFreq p) (smoothAmp p)
    (twistEnabled p) (twistAmount p) (twistAxis p)
    (taperEnabled p) (taperStart p) (taperEnd p) (taperAxis p)
    (bendEnabled p) (bendAngle p) (bendAxis p)
    (waveEnabled p) (waveFreq p) (waveAmp p) (waveAxis p) (wavePhase p)
    (camRotX p) (camRotY p) (camRotZ p) (camZoom p) (projType p) (camFOV p)
    (birdScale p) (depthScale p) (orientToFlow p) (orientJitter p)
    (curlFlowFreq p) (curlFlowOctaves p) (poseVariation p) (poseNoiseFreq p)
    (depthOpacity p) (depthOpacityCurve p) (darkBandEnabled p)
    (darkBandGridSize p) (width p) (height p).

(** The initial [params] object of main.js, for a viewport of [w] by [h]. *)
Definition defaultParams (w h : float) : Params :=
  mkParams Ellipsoid 800 40 30 100 60 20 15 Surface 42
    2.0 0.3 0.02 1 0.6 0.3 0.15
    0.02 20 4 0.5 2.0 0 0 0 false 0.005 30
    false 0.5 AxisZ false 1.0 0.3 AxisZ false 0.5 AxisX
    false 0.05 10 AxisZ 0
    0.3 0.5 0 2.5 Ortho 400
    1.0 0.5 true 0.2 0.015 2 true 0.01 0.3 1.0 true 20
    w h.

(* ================================================================== *)
(** ** Loops *)

(** [while (cond) body], unrolled at most [fuel] times. *)
Fixpoint while {St : Type} (fuel : nat) (cond : St -> bool) (body : St -> St) (s : St) : St :=
  match fuel with
  | O => s
  | S f => if cond s then while f cond body (body s) else s
  end.

(** A loop that runs [step] until it answers on the right, at most [fuel]
    times, with the bound in binary so that large bounds cost nothing. *)
Fixpoint repeatUntil {St R : Type} (fuel : positive) (step : St -> St + R) (s : St) : St + R :=
  match fuel with
  | xH => step s
  | xO f =>
      match repeatUntil f step s with
      | inl s' => repeatUntil f step s'
      | inr r => inr r
      end
  | xI f =>
      match step s with
      | inl s' =>
          match repeatUntil f step s' with
          | inl s'' => repeatUntil f step s''
          | inr r => inr r
          end
      | inr r => inr r
      end
  end.

(** The same loop with the bound in unary, for reasoning. *)
Fixpoint repeatUntilN {St R : Type} (fuel : nat) (step : St -> St + R) (s : St) : St + R :=
  match fuel with
  | O => inl s
  | S f =>
      match step s with
      | inl s' => repeatUntilN f step s'
      | inr r => inr r
      end
  end.

(* ================================================================== *)
(** ** generate.js: shape samplers and the flock composer *)

Module Generate.

Definition normalizeVec (v : Point) : Point :=
  let len := sqrt (px v * px v + py v * py v + pz v * pz v)%float in
  if (len =? 0)%float then mkPoint 0 0 0
  else mkPoint (px v / len) (py v / len) (pz v / len).

Definition crossVec (a b : Point) : Point :=
  mkPoint (py a * pz b - pz a * py b)
          (pz a * px b - px a * pz b)
          (px a * py b - py a * px b).

(** *** Catmull-Rom spline helpers *)

Definition crInterp (p0 p1 p2 p3 t : float) : float :=
  let t2 := (t * t)%float in
  let t3 := (t2 * t)%float in
  (0.5 * ((2 * p1) + (- p0 + p2) * t
          + (2 * p0 - 5 * p1 + 4 * p2 - p3) * t2
          + (- p0 + 3 * p1 - 3 * p2 + p3) * t3))%float.

(** [spine[i]] for a number [i]; the samplers only index inside the spine. *)
Definition at_ (spine : list Point) (i : float) : Point :=
  nth (Z.to_nat (JS.F2Z i)) spine (mkPoint 0 0 0).

Definition catmullRomPoint (spine : list Point) (t : float) : Point :=
  let n := JS.Z2F (Z.of_nat (length spine) - 1) in
  let f := (t * n)%float in
  let i := JS.min (JS.floor f) (n - 1)%float in
  let local := (f - i)%float in
  let p0 := at_ spine (JS.max 0 (i - 1)) in
  let p1 := at_ spine i in
  let p2 := at_ spine (JS.min n (i + 1)) in
  let p3 := at_ spine (JS.min n (i + 2)) in
  mkPoint (crInterp (px p0) (px p1) (px p2) (px p3) local)
          (crInterp (py p0) (py p1) (py p2) (py p3) local)
          (crInterp (pz p0) (pz p1) (pz p2) (pz p3) local).

Definition catmullRomTangent (spine : list Point) (t : float) : Point :=
  let eps := 0.001%float in
  let a := catmullRomPoint spine (JS.max 0 (t - eps)) in
  let b := catmullRomPoint spine (JS.min 1 (t + eps)) in
  mkPoint (px b - px a) (py b - py a) (pz b - pz a).

(** The state of a sampler's loop: the local variables [points],
    [attempts] and the generator. *)
Record Loop : Type := mkLoop {
  points : list Point;
  attempts : Z;
  rng : Prng.state
}.

(** The loop test [points.length < count && attempts < maxAttempts]. *)
Definition running (count maxAttempts : Z) (l : Loop) : bool :=
  (Z.of_nat (length (points l)) <? count) && (attempts l <? maxAttempts).

(** [if (accepted) points.push(p)]. *)
Definition push (l : Loop) (accepted : bool) (p : Point) (attempts' : Z)
    (rng' : Prng.state) : Loop :=
  mkLoop (if accepted then points l ++ [p] else points l) attempts' rng'.

(** *** Marsaglia's method: the inner do-while loop of [generateEllipsoid] *)

(** One round of [do { u; v; s } while (s >= 1 || s === 0)]. *)
Definition marsagliaStep (rng : Prng.state)
    : Prng.state + (float * float * float * Prng.state) :=
  let '(r1, rng) := Prng.next rng in
  let u := (r1 * 2 - 1)%float in
  let '(r2, rng) := Prng.next rng in
  let v := (r2 * 2 - 1)%float in
  let s := (u * u + v * v)%float in
  if (1 <=? s)%float || (s =? 0)%float then inl rng else inr (u, v, s, rng).

(** The rounds are bounded by 2^31, a bound that is never reached (theorem
    [marsagliaLoop_total]); the last branch is therefore dead. *)
Definition marsagliaLoop (rng : Prng.state)
    : Prng.state + (float * float * float * Prng.state) :=
  repeatUntil 2147483648%positive marsagliaStep rng.

Definition marsaglia (rng : Prng.state) : float * float * float * Prng.state :=
  match marsagliaLoop rng with
  | inr r => r
  | inl rng' => (0%float, 0%float, 0%float, rng')
  end.

Section WithMath.

Variable M : MathLib.
Variable st : Noise.State.

(** [densityAcceptance(p, distFromCenter, fillMode, densityParams, rng)]:
    the decision and the generator afterwards. *)
Definition densityAcceptance (p : Point) (distFromCenter : float)
    (fillMode : FillMode) (densityParams : Params) (rng : Prng.state)
    : bool * Prng.state :=
  let densityFalloff := JS.orElse (densityFalloff densityParams) 0 in
  let densityNoise := JS.orElse (densityNoise densityParams) 0 in
  let densityNoiseFreq := JS.orElse (densityNoiseFreq densityParams) 0 in
  if (densityFalloff <=? 0)%float && (densityNoise <=? 0)%float then (true, rng)
  else
    let prob := 1.0%float in
    let prob :=
      if (match fillMode with Volume => true | Surface => false end)
         && (0 <? densityFalloff)%float && (0 <=? distFromCenter)%float
      then (prob * pow M (JS.max 0 (1 - distFromCenter)) densityFalloff)%float
      else prob in
    let prob :=
      if (0 <? densityNoise)%float && (0 <? densityNoiseFreq)%float then
        let nval := Noise.simplex3 st (px p * densityNoiseFreq)
                      (py p * densityNoiseFreq) (pz p * densityNoiseFreq) in
        let noiseP := (1.0 - densityNoise + densityNoise * (0.5 + 0.5 * nval))%float in
        (prob * noiseP)%float
      else prob in
    let '(r, rng) := Prng.next rng in
    ((r <? prob)%float, rng).

(** *** Ellipsoid *)

Definition ellipsoidBody (rx ry rz : float) (fillMode : FillMode)
    (densityParams : Params) (l : Loop) : Loop :=
  let attempts := attempts l + 1 in
  let '(u, v, s, rng) := marsaglia (rng l) in
  let factor := (2 * sqrt (1 - s))%float in
  let nx := (u * factor)%float in
  let ny := (v * factor)%float in
  let nz := (1 - 2 * s)%float in
  let '(r, rng) :=
    match fillMode with
    | Volume => let '(d, rng) := Prng.next rng in (cbrt M d, rng)
    | Surface => (1%float, rng)
    end in
  let p := mkPoint (nx * rx * r) (ny * ry * r) (nz * rz * r) in
  let distFromCenter := match fillMode with Volume => r | Surface => 0%float end in
  let '(ok, rng) := densityAcceptance p distFromCenter fillMode densityParams rng in
  push l ok p attempts rng.

(** The loop of a sampler from its initial state; [maxAttempts] iterations
    always suffice, since every iteration increments [attempts]. *)
Definition sampleLoop (count : Z) (seed : Z) (body : Loop -> Loop) : Loop :=
  let maxAttempts := count * 20 in
  while (Z.to_nat maxAttempts) (running count maxAttempts) body
        (mkLoop [] 0 (Prng.mulberry32 seed)).

Definition ellipsoidRun (count : Z) (rx ry rz : float) (fillMode : FillMode)
    (seed : Z) (densityParams : Params) : Loop :=
  sampleLoop count seed (ellipsoidBody rx ry rz fillMode densityParams).

Definition generateEllipsoid (count : Z) (rx ry rz : float) (fillMode : FillMode)
    (seed : Z) (densityParams : Params) : list Point :=
  points (ellipsoidRun count rx ry rz fillMode seed densityParams).

(** *** Sphere *)

Definition sphereRun (count : Z) (radius : float) (fillMode : FillMode)
    (seed : Z) (densityParams : Params) : Loop :=
  ellipsoidRun count radius radius radius fillMode seed densityParams.

Definition generateSphere (count : Z) (radius : float) (fillMode : FillMode)
    (seed : Z) (densityParams : Params) : list Point :=
  generateEllipsoid count radius radius radius fillMode seed densityParams.

(** *** Torus *)

Definition torusBody (majorR minorR : float) (fillMode : FillMode)
    (densityParams : Params) (l : Loop) : Loop :=
  let attempts := attempts l + 1 in
  let '(d, rng) := Prng.next (rng l) in
  let u := (d * JS.PI * 2)%float in
  let '(d, rng) := Prng.next rng in
  let v := (d * JS.PI * 2)%float in
  let '(r, distFromCenter, rng) :=
    match fillMode with
    | Volume =>
        let '(d, rng) := Prng.next rng in
        let rNorm := sqrt d in
        ((minorR * rNorm)%float, rNorm, rng)
    | Surface => (minorR, 0%float, rng)
    end in
  let p := mkPoint ((majorR + r * cos M v) * cos M u)
                   ((majorR + r * cos M v) * sin M u)
                   (r * sin M v) in
  let '(ok, rng) := densityAcceptance p distFromCenter fillMode densityParams rng in
  push l ok p attempts rng.

Definition torusRun (count : Z) (majorR minorR : float) (fillMode : FillMode)
    (seed : Z) (densityParams : Params) : Loop :=
  sampleLoop count seed (torusBody majorR minorR fillMode densityParams).

Definition generateTorus (count : Z) (majorR minorR : float) (fillMode : FillMode)
    (seed : Z) (densityParams : Params) : list Point :=
  points (torusRun count majorR minorR fillMode seed densityParams).

(** *** Swept curve *)

Definition spine : list Point :=
  [ mkPoint (-60) 0 (-80); mkPoint (-30) 30 (-30); mkPoint 0 (-20) 0;
    mkPoint 30 25 30; mkPoint 60 (-10) 80 ]%float.

(** The frame around a direction: [right] and [realUp]. *)
Definition frame (forward : Point) : Point * Point :=
  let up := if (0.95 <? abs (py forward))%float
            then mkPoint 1 0 0 else mkPoint 0 1 0 in
  let right_ := normalizeVec (crossVec forward up) in
  let realUp := crossVec right_ forward in
  (right_, realUp).

(** A point of the disc of radius [r] at [angle] in a frame, around [c]. *)
Definition onDisc (c : Point) (r angle : float) (right_ realUp : Point) : Point :=
  mkPoint (px c + r * (cos M angle * px right_ + sin M angle * px realUp))
          (py c + r * (cos M angle * py right_ + sin M angle * py realUp))
          (pz c + r * (cos M angle * pz right_ + sin M angle * pz realUp)).

Definition sweptBody (crossSectionR : float) (densityParams : Params)
    (l : Loop) : Loop :=
  let attempts := attempts l + 1 in
  let '(t, rng) := Prng.next (rng l) in
  let pos := catmullRomPoint spine t in
  let tangent := catmullRomTangent spine t in
  let forward := normalizeVec tangent in
  let '(right_, realUp) := frame forward in
  let '(d, rng) := Prng.next rng in
  let angle := (d * JS.PI * 2)%float in
  let '(d, rng) := Prng.next rng in
  let rNorm := sqrt d in
  let r := (crossSectionR * rNorm)%float in
  let p := onDisc pos r angle right_ realUp in
  let '(ok, rng) := densityAcceptance p rNorm Volume densityParams rng in
  push l ok p attempts rng.

Definition sweptRun (count : Z) (crossSectionR : float) (seed : Z)
    (densityParams : Params) : Loop :=
  sampleLoop count seed (sweptBody crossSectionR densityParams).

Definition generateSweptCurve (count : Z) (crossSectionR : float) (seed : Z)
    (densityParams : Params) : list Point :=
  points (sweptRun count crossSectionR seed densityParams).

(** *** One cloud for one shape type *)

Definition generateSingleCloud (params : Params) : list Point :=
  match shapeType params with
  | Ellipsoid =>
      generateEllipsoid (count params) (radiusX params) (radiusY params)
        (radiusZ params) (fillMode params) (seed params) params
  | Sphere =>
      generateSphere (count params)
        (JS.max3 (radiusX params) (radiusY params) (radiusZ params))
        (fillMode params) (seed params) params
  | Torus =>
      generateTorus (count params) (torusMajor params) (torusMinor params)
        (fillMode params) (seed params) params
  | Swept =>
      generateSweptCurve (count params) (JS.orElse (sweptRadius params) 15)
        (seed params) params
  | OtherShape =>
      generateEllipsoid (count params) (radiusX params) (radiusY params)
        (radiusZ params) (fillMode params) (seed params) params
  end.

End WithMath.

(** *** The flock composer *)

Section Compose.

Variable M : MathLib.

(** [for (f = 0; f < subFlocks; f++) centers.push({...})]. *)
Fixpoint centersLoop (n : nat) (maxR spread : float) (rng : Prng.state)
    (centers : list Point) : list Point * Prng.state :=
  match n with
  | O => (centers, rng)
  | S m =>
      let '(d, rng) := Prng.next rng in
      let x := ((d - 0.5) * 2 * maxR * spread)%float in
      let '(d, rng) := Prng.next rng in
      let y := ((d - 0.5) * 2 * maxR * spread)%float in
      let '(d, rng) := Prng.next rng in
      let z := ((d - 0.5) * 2 * maxR * spread)%float in
      centersLoop m maxR spread rng (centers ++ [mkPoint x y z])
  end.

(** [for (i = 1; i < n; i++) weights[i] = ...]. *)
Fixpoint weightsLoop (k : nat) (sizeVar : float) (rng : Prng.state)
    (weights : list float) : list float * Prng.state :=
  match k with
  | O => (weights, rng)
  | S m =>
      let '(d, rng) := Prng.next rng in
      weightsLoop m sizeVar rng
        (weights ++ [0.3 + (1 - sizeVar) * 0.4 + d * sizeVar * 0.3]%float)
  end.

Definition distributeCount (total : float) (n : Z) (sizeVar : float)
    (rng : Prng.state) : list float * Prng.state :=
  let '(weights, rng) := weightsLoop (Z.to_nat (n - 1)) sizeVar rng [1.0%float] in
  let sum := fold_left (fun a b => (a + b)%float) weights 0%float in
  (map (fun w => JS.round (total * w / sum)%float) weights, rng).

Definition translate (c p : Point) : Point :=
  mkPoint (px p + px c) (py p + py c) (pz p + pz c).

(** The cluster loop of [generateCloud], from cluster [f] on, [k] clusters
    to go.  A cluster's count is the rounded number [counts[f]]; the
    samplers compare it with integers only. *)
Fixpoint clustersLoop (st : Noise.State) (params : Params)
    (centers : list Point) (counts : list float) (k : nat) (f : Z)
    (rng : Prng.state) (allPoints : list Point) : list Point * Prng.state :=
  match k with
  | O => (allPoints, rng)
  | S m =>
      let '(d, rng) := Prng.next rng in
      let scale := (1.0 - subFlockSizeVar params * d * 0.5)%float in
      let subParams :=
        withCluster params
          (JS.F2Z (nth (Z.to_nat f) counts nan))
          (radiusX params * scale) (radiusY params * scale)
          (radiusZ params * scale) (torusMajor params * scale)
          (torusMinor params * scale)
          (JS.orElse (sweptRadius params) 15 * scale)
          (seed params + f * 1000) in
      let pts := generateSingleCloud M st subParams in
      let c := nth (Z.to_nat f) centers (mkPoint 0 0 0) in
      let pts := map (translate c) pts in
      clustersLoop st params centers counts m (f + 1) rng (allPoints ++ pts)
  end.

(** The paths between consecutive centers, and last to first for three or
    more. *)
Fixpoint consecutive (centers : list Point) : list (Point * Point) :=
  match centers with
  | a :: ((b :: _) as rest) => (a, b) :: consecutive rest
  | _ => []
  end.

Definition bridgePaths (centers : list Point) : list (Point * Point) :=
  consecutive centers ++
  (if (3 <=? Z.of_nat (length centers))
   then [(last centers (mkPoint 0 0 0), hd (mkPoint 0 0 0) centers)]
   else []).

(** [for (i = 0; i < perPath; i++)] along one path. *)
Fixpoint bridgePathLoop (k : nat) (a b : Point) (tubeR : float)
    (rng : Prng.state) (points : list Point) : list Point * Prng.state :=
  match k with
  | O => (points, rng)
  | S m =>
      let '(t, rng) := Prng.next rng in
      let x := (px a + (px b - px a) * t)%float in
      let y := (py a + (py b - py a) * t)%float in
      let z := (pz a + (pz b - pz a) * t)%float in
      let '(d, rng) := Prng.next rng in
      let angle := (d * JS.PI * 2)%float in
      let '(d, rng) := Prng.next rng in
      let r := (tubeR * sqrt d)%float in
      let dx := (px b - px a)%float in
      let dy := (py b - py a)%float in
      let dz := (pz b - pz a)%float in
      let len := JS.orElse (sqrt (dx * dx + dy * dy + dz * dz)) 1 in
      let fwd := mkPoint (dx / len) (dy / len) (dz / len) in
      let '(right_, realUp) := frame fwd in
      bridgePathLoop m a b tubeR rng
        (points ++ [onDisc M (mkPoint x y z) r angle right_ realUp])
  end.

Fixpoint bridgeLoop (paths : list (Point * Point)) (perPath : nat)
    (tubeR : float) (rng : Prng.state) (points : list Point) : list Point :=
  match paths with
  | [] => points
  | (a, b) :: rest =>
      let '(points, rng) := bridgePathLoop perPath a b tubeR rng points in
      bridgeLoop rest perPath tubeR rng points
  end.

Definition generateBridgePoints (centers : list Point) (count : float)
    (tubeR : float) (seed : Z) : list Point :=
  let rng := Prng.mulberry32 seed in
  let paths := bridgePaths centers in
  let perPath := JS.floor (count / JS.Z2F (Z.of_nat (length paths)))%float in
  bridgeLoop paths (Z.to_nat (JS.F2Z perPath)) tubeR rng [].

(** [generateCloud(params)]: the cloud and the noise state it leaves. *)
Definition generateCloud (st : Noise.State) (params : Params)
    : list Point * Noise.State :=
  let st := Noise.seed (seed params) st in
  if (subFlocks params =? 0) || (subFlocks params <=? 1) then
    (generateSingleCloud M st params, st)
  else
    let rng := Prng.mulberry32 (seed params + 999) in
    let maxR := JS.max3 (radiusX params) (radiusY params) (radiusZ params) in
    let '(centers, rng) :=
      centersLoop (Z.to_nat (subFlocks params)) maxR (subFlockSpread params) rng [] in
    let bridgeCount := JS.floor (JS.Z2F (count params) * subFlockBridge params)%float in
    let flockCount := (JS.Z2F (count params) - bridgeCount)%float in
    let '(counts, rng) :=
      distributeCount flockCount (subFlocks params) (subFlockSizeVar params) rng in
    let '(allPoints, rng) :=
      clustersLoop st params centers counts (Z.to_nat (subFlocks params)) 0 rng [] in
    let allPoints :=
      if (0 <? bridgeCount)%float && (1 <? subFlocks params) then
        allPoints ++ generateBridgePoints centers bridgeCount (maxR * 0.1)%float
                       (seed params + 7777)
      else allPoints in
    (allPoints, st).

End Compose.

End Generate.

(* ================================================================== *)
(** ** The deformers (noise displacement, twist, taper, bend, wave) *)

Module Deformers.

Definition getAxisVal (axis : Axis) (p : Point) : float :=
  match axis with AxisX => px p | AxisY => py p | AxisZ => pz p end.

Record Bounds : Type := mkBounds { bmin : float; bmax : float }.

(** [getBounds(points)]: one pass from [{min: Infinity, max: -Infinity}]. *)
Definition getBounds (axis : Axis) (points : list Point) : Bounds :=
  fold_left
    (fun b p =>
       let v := getAxisVal axis p in
       let mn := if (v <? bmin b)%float then v else bmin b in
       let mx := if (bmax b <? v)%float then v else bmax b in
       mkBounds mn mx)
    points (mkBounds infinity neg_infinity).

Definition scalePerp (p : Point) (s : float) (axis : Axis) : Point :=
  match axis with
  | AxisX => mkPoint (px p) (py p * s) (pz p * s)
  | AxisY => mkPoint (px p * s) (py p) (pz p * s)
  | AxisZ => mkPoint (px p * s) (py p * s) (pz p)
  end.

(** [getPerpComponents(p, axis).p1]. *)
Definition perp1 (p : Point) (axis : Axis) : float :=
  match axis with AxisX => pz p | AxisY => pz p | AxisZ => py p end.

Section WithMath.

Variable M : MathLib.

Definition setFromRotation (p : Point) (angle : float) (ax : Axis) : Point :=
  let c := cos M angle in
  let s := sin M angle in
  match ax with
  | AxisX => mkPoint (px p) (py p * c - pz p * s) (py p * s + pz p * c)
  | AxisY => mkPoint (px p * c + pz p * s) (py p) (- px p * s + pz p * c)
  | AxisZ => mkPoint (px p * c - py p * s) (px p * s + py p * c) (pz p)
  end.

(** The option bundle of [noiseDisplace]. *)
Record DisplaceOpts : Type := mkDisplaceOpts {
  frequency : float;
  amplitude : float;
  octaves : Z;
  persistence : float;
  lacunarity : float;
  offsetX : float;
  offsetY : float;
  offsetZ : float
}.

Definition noiseDisplace (st : Noise.State) (points : list Point)
    (opts : DisplaceOpts) : list Point :=
  map (fun p =>
         let nx := (px p * frequency opts + offsetX opts)%float in
         let ny := (py p * frequency opts + offsetY opts)%float in
         let nz := (pz p * frequency opts + offsetZ opts)%float in
         let disp := Noise.fbm3vec st nx ny nz
                       (Noise.mkOpts (Some (octaves opts)) (Some (persistence opts))
                                     (Some (lacunarity opts)) (Some 1%float)
                                     (Some 1%float)) in
         mkPoint (px p + px disp * amplitude opts)
                 (py p + py disp * amplitude opts)
                 (pz p + pz disp * amplitude opts))
      points.

Definition twist (points : list Point) (amount : float) (axis : Axis) : list Point :=
  let bounds := getBounds axis points in
  map (fun p =>
         let t := ((getAxisVal axis p - bmin bounds)
                   / JS.orElse (bmax bounds - bmin bounds) 1)%float in
         let angle := ((t - 0.5) * amount * JS.PI * 2)%float in
         setFromRotation p angle axis)
      points.

Definition taper (points : list Point) (startScale endScale : float)
    (axis : Axis) : list Point :=
  let bounds := getBounds axis points in
  map (fun p =>
         let t := ((getAxisVal axis p - bmin bounds)
                   / JS.orElse (bmax bounds - bmin bounds) 1)%float in
         let s := (startScale + (endScale - startScale) * t)%float in
         scalePerp p s axis)
      points.

Definition bend (points : list Point) (angle : float) (axis : Axis) : list Point :=
  let bounds := getBounds axis points in
  let len := JS.orElse (bmax bounds - bmin bounds) 1 in
  if (abs angle <? 0.001)%float then points
  else
    let radius := (len / angle)%float in
    map (fun p =>
           let axisPos := getAxisVal axis p in
           let t := ((axisPos - bmin bounds) / len)%float in
           let theta := ((t - 0.5) * angle)%float in
           let p1 := perp1 p axis in
           match axis with
           | AxisX =>
               mkPoint ((radius + p1) * sin M theta + bmin bounds + len * 0.5)
                       (py p)
                       ((radius + p1) * cos M theta - radius)
           | AxisY =>
               mkPoint (px p)
                       ((radius + p1) * sin M theta + bmin bounds + len * 0.5)
                       ((radius + p1) * cos M theta - radius)
           | AxisZ =>
               mkPoint (px p)
                       ((radius + p1) * sin M theta)
                       ((radius + p1) * cos M theta - radius + bmin bounds + len * 0.5)
           end)
        points.

Definition wave (points : list Point) (freq amp : float) (axis : Axis)
    (phase : float) : list Point :=
  map (fun p =>
         let axisVal := getAxisVal axis p in
         let displacement := (amp * sin M (axisVal * freq + phase))%float in
         match axis with
         | AxisX => mkPoint (px p) (py p + displacement) (pz p)
         | AxisY => mkPoint (px p + displacement) (py p) (pz p)
         | AxisZ => mkPoint (px p) (py p + displacement) (pz p)
         end)
      points.

(** The stages of [applyDeformers], each guarded by its condition. *)
Definition smoothStage (st : Noise.State) (params : Params) (pts : list Point)
    : list Point :=
  if smoothEnabled params && (0 <? smoothAmp params)%float then
    noiseDisplace st pts
      (mkDisplaceOpts (smoothFreq params) (smoothAmp params) 1 0.5 2.0
         (JS.orElse (noiseOffsetX params) 0 + 200)
         (JS.orElse (noiseOffsetY params) 0 + 200)
         (JS.orElse (noiseOffsetZ params) 0 + 200))
  else pts.

Definition noiseStage (st : Noise.State) (params : Params) (pts : list Point)
    : list Point :=
  if (0 <? noiseAmp params)%float then
    noiseDisplace st pts
      (mkDisplaceOpts (noiseFreq params) (noiseAmp params) (noiseOctaves params)
         (noisePersistence params) (noiseLacunarity params)
         (noiseOffsetX params) (noiseOffsetY params) (noiseOffsetZ params))
  else pts.

Definition twistStage (params : Params) (pts : list Point) : list Point :=
  if twistEnabled params then twist pts (twistAmount params) (twistAxis params)
  else pts.

Definition taperStage (params : Params) (pts : list Point) : list Point :=
  if taperEnabled params
  then taper pts (taperStart params) (taperEnd params) (taperAxis params)
  else pts.

Definition bendStage (params : Params) (pts : list Point) : list Point :=
  if bendEnabled params then bend pts (bendAngle params) (bendAxis params)
  else pts.

Definition waveStage (params : Params) (pts : list Point) : list Point :=
  if waveEnabled params
  then wave pts (waveFreq params) (waveAmp params) (waveAxis params)
            (wavePhase params)
  else pts.

(** [applyDeformers(points, params)]: the deformed cloud and the noise state
    it leaves. *)
Definition applyDeformers (st : Noise.State) (points : list Point)
    (params : Params) : list Point * Noise.State :=
  let pts := points in
  let st := Noise.seed (seed params) st in
  let pts := smoothStage st params pts in
  let pts := noiseStage st params pts in
  let pts := twistStage params pts in
  let pts := taperStage params pts in
  let pts := bendStage params pts in
  let pts := waveStage params pts in
  (pts, st).

End WithMath.

End Deformers.

(* ================================================================== *)
(** ** The vector helpers used by the projection *)

Module Vec3.

Section WithMath.

Variable M : MathLib.

Definition rotateX (v : Point) (angle : float) : Point :=
  let c := cos M angle in
  let s := sin M angle in
  mkPoint (px v) (py v * c - pz v * s) (py v * s + pz v * c).

Definition rotateY (v : Point) (angle : float) : Point :=
  let c := cos M angle in
  let s := sin M angle in
  mkPoint (px v * c + pz v * s) (py v) (- px v * s + pz v * c).

Definition rotateZ (v : Point) (angle : float) : Point :=
  let c := cos M angle in
  let s := sin M angle in
  mkPoint (px v * c - py v * s) (px v * s + py v * c) (pz v).

End WithMath.

End Vec3.

(* ================================================================== *)
(** ** The projection: camera, orientation, depth effects, ordering *)

Module Projection.

(** A projected primitive.  The first loop fills [sx .. poseIndex]; [scale],
    [opacity] and [localDensity] are assigned by the later passes and are
    NaN until then. *)
Record Bird : Type := mkBird {
  sx : float;
  sy : float;
  depth : float;
  angle : float;
  perspScale : float;
  poseIndex : Z;
  scale : float;
  opacity : float;
  localDensity : float
}.

Definition camDist : float := 300%float.

(** The pose index from the remapped noise value. *)
Definition poseOf (poseVal : float) : Z :=
  if (poseVal <? 0.35)%float then 0
  else if (poseVal <? 0.55)%float then 1
  else if (poseVal <? 0.75)%float then 2
  else 3.

(** [Array.prototype.sort] with a comparison function, as a stable insertion
    sort: [b] goes before [a] when [cmp b a < 0]; a NaN comparison counts as
    equal. *)
Fixpoint insertBy {A : Type} (cmp : A -> A -> float) (a : A) (l : list A) : list A :=
  match l with
  | [] => [a]
  | b :: r => if (cmp b a <? 0)%float then b :: insertBy cmp a r else a :: b :: r
  end.

Definition sortBy {A : Type} (cmp : A -> A -> float) (l : list A) : list A :=
  fold_right (insertBy cmp) [] l.

(** *** The density grid *)

(** [grid[i]++] on a [Uint16Array]; nothing happens out of range. *)
Definition incr (grid : list Z) (i : Z) : list Z :=
  Noise.set grid (Z.to_nat i) ((Noise.get grid i + 1) mod 65536).

Definition cellOf (gs : float) (b : Bird) : float * float :=
  (JS.floor (sx b / gs), JS.floor (sy b / gs)).

Definition inGrid (cols rows col row : float) : bool :=
  (0 <=? col)%float && (col <? cols)%float && (0 <=? row)%float && (row <? rows)%float.

Definition fillGrid (gs cols rows : float) (birds : list Bird) (grid : list Z)
    : list Z :=
  fold_left
    (fun grid b =>
       let '(col, row) := cellOf gs b in
       if inGrid cols rows col row
       then incr grid (JS.F2Z (row * cols + col)%float)
       else grid)
    birds grid.

(** [smoothDensity(col, row)]: the mean of the cells of the 3x3
    neighbourhood that lie in the grid. *)
Definition smoothDensity (grid : list Z) (cols rows col row : float) : float :=
  let '(sum, count) :=
    fold_left
      (fun acc dr =>
         fold_left
           (fun acc dc =>
              let '(sum, count) := acc in
              let r := (row + dr)%float in
              let c := (col + dc)%float in
              if (0 <=? r)%float && (r <? rows)%float
                 && (0 <=? c)%float && (c <? cols)%float
              then ((sum + JS.Z2F (Noise.get grid (JS.F2Z (r * cols + c)%float)))%float,
                    (count + 1)%float)
              else (sum, count))
           [(-1)%float; 0%float; 1%float] acc)
      [(-1)%float; 0%float; 1%float] (0%float, 0%float) in
  (sum / count)%float.

(** The pre-scan [for r < rows, for c < cols] for the largest smoothed
    density, from [maxDensity = 1]. *)
Definition maxSmoothDensity (grid : list Z) (cols rows : float) : float :=
  fold_left
    (fun mx r =>
       fold_left
         (fun mx c =>
            let d := smoothDensity grid cols rows (JS.Z2F (Z.of_nat c))
                       (JS.Z2F (Z.of_nat r)) in
            if (mx <? d)%float then d else mx)
         (seq 0 (Z.to_nat (JS.F2Z cols))) mx)
    (seq 0 (Z.to_nat (JS.F2Z rows))) 1%float.

Definition setDensity (b : Bird) (d : float) : Bird :=
  mkBird (sx b) (sy b) (depth b) (angle b) (perspScale b) (poseIndex b)
         (scale b) (opacity b) d.

(** The dark-band pass.  The grid is a [Uint16Array(cols * rows)]; a size
    the host cannot allocate is outside the model. *)
Definition darkBand (params : Params) (birds : list Bird) : list Bird :=
  if darkBandEnabled params then
    let gs := JS.orElse (darkBandGridSize params) 20 in
    let cols := JS.ceil (width params / gs) in
    let rows := JS.ceil (height params / gs) in
    let grid := fillGrid gs cols rows birds
                  (repeat 0 (Z.to_nat (JS.F2Z (cols * rows)%float))) in
    let maxDensity := maxSmoothDensity grid cols rows in
    map (fun b =>
           let '(col, row) := cellOf gs b in
           if inGrid cols rows col row
           then setDensity b (smoothDensity grid cols rows col row / maxDensity)
           else setDensity b 0)
        birds
  else map (fun b => setDensity b 0) birds.

(** *** Depth range, scale and opacity *)

Definition depthRange (birds : list Bird) : float * float :=
  fold_left
    (fun mm b =>
       let '(minZ, maxZ) := mm in
       ((if (depth b <? minZ)%float then depth b else minZ),
        (if (maxZ <? depth b)%float then depth b else maxZ)))
    birds (infinity, neg_infinity).

Section WithMath.

Variable M : MathLib.

(** [seededRandom(s)]: the sine hash of the jitter. *)
Definition seededRandom (s : float) : float :=
  let s := (sin M (s * 12.9898 + 78.233) * 43758.5453)%float in
  (s - JS.floor s)%float.

Definition rotateCam (params : Params) (v : Point) : Point :=
  Vec3.rotateZ M (Vec3.rotateY M (Vec3.rotateX M v (camRotX params))
                                  (camRotY params))
               (camRotZ params).

(** The pose index of a world-space point. *)
Definition poseIndexAt (st : Noise.State) (params : Params) (p : Point) : Z :=
  if poseVariation params && (0 <? poseNoiseFreq params)%float then
    let poseNoise := Noise.simplex3 st (px p * poseNoiseFreq params)
                       (py p * poseNoiseFreq params) (pz p * poseNoiseFreq params) in
    let poseVal := ((poseNoise + 1) * 0.5)%float in
    poseOf poseVal
  else 0.

(** The body of the first loop for the point [p] of index [i]: [None] when
    the iteration takes [continue]. *)
Definition projectPoint (st : Noise.State) (params : Params) (i : Z) (p : Point)
    : option Bird :=
  let cx := (width params / 2)%float in
  let cy := (height params / 2)%float in
  let flowFreq := JS.orElse (JS.orElse (curlFlowFreq params) (noiseFreq params)) 0.015 in
  let curlVec :=
    if orientToFlow params && (0 <? flowFreq)%float then
      Some (Noise.curl3 st (px p * flowFreq) (py p * flowFreq) (pz p * flowFreq)
              (Noise.mkOpts (Some (JS.orElseZ (curlFlowOctaves params) 2)) None None
                            (Some 1%float) None))
    else None in
  let v := rotateCam params p in
  let angle :=
    match curlVec with
    | Some cv => let cv := rotateCam params cv in atan2 M (py cv) (px cv)
    | None => 0%float
    end in
  let angle :=
    if (0 <? orientJitter params)%float then
      (angle + (seededRandom (JS.Z2F (seed params + i * 7)) - 0.5)
               * orientJitter params * JS.PI * 2)%float
    else angle in
  let projected :=
    match projType params with
    | Perspective =>
        let d := (pz v + camDist)%float in
        if (d <=? 0.1)%float then None
        else
          let perspScale := (camFOV params / d)%float in
          Some ((px v * perspScale + cx)%float, (py v * perspScale + cy)%float,
                perspScale)
    | Ortho =>
        Some ((px v * camZoom params + cx)%float, (py v * camZoom params + cy)%float,
              1%float)
    end in
  match projected with
  | None => None
  | Some (sx, sy, perspScale) =>
      Some (mkBird sx sy (pz v) angle perspScale (poseIndexAt st params p)
                   nan nan nan)
  end.

(** The first loop: [for (i = 0; i < points3d.length; i++)]. *)
Fixpoint collect (st : Noise.State) (params : Params) (i : Z)
    (points3d : list Point) : list Bird :=
  match points3d with
  | [] => []
  | p :: rest =>
      match projectPoint st params i p with
      | Some b => b :: collect st params (i + 1) rest
      | None => collect st params (i + 1) rest
      end
  end.

(** The scale and opacity pass on one primitive. *)
Definition shade (params : Params) (minZ zRange : float) (b : Bird) : Bird :=
  let normDepth := ((depth b - minZ) / zRange)%float in
  let scale :=
    match projType params with
    | Perspective => (birdScale params * perspScale b * 0.5)%float
    | Ortho =>
        let dScale := (1 - depthScale params * (1 - normDepth))%float in
        (birdScale params * camZoom params * 0.5 * dScale)%float
    end in
  let depthCurve := JS.orElse (depthOpacityCurve params) 1.0 in
  let curvedDepth := pow M normDepth depthCurve in
  mkBird (sx b) (sy b) (depth b) (angle b) (perspScale b) (poseIndex b)
         scale (depthOpacity params + (1 - depthOpacity params) * curvedDepth)%float
         (localDensity b).

Definition byDepth (a b : Bird) : float := (depth a - depth b)%float.

(** [projectScene(points3d, params)]. *)
Definition projectScene (st : Noise.State) (points3d : list Point)
    (params : Params) : list Bird :=
  let birds := collect st params 0 points3d in
  match birds with
  | [] => []
  | _ =>
      let '(minZ, maxZ) := depthRange birds in
      let zRange := JS.orElse (maxZ - minZ) 1 in
      let birds := map (shade params minZ zRange) birds in
      let birds := darkBand params birds in
      sortBy byDepth birds
  end.

End WithMath.

End Projection.

(* ================================================================== *)
(** ** main.js: one full run of the pipeline *)

Module Main.

Section WithMath.

Variable M : MathLib.

(** [regenerate()] with every stage dirty: generate, deform, project.  The
    result is the projected list and the noise state left behind. *)
Definition regenerate (st : Noise.State) (params : Params)
    : list Projection.Bird * Noise.State :=
  let '(baseCloud, st) := Generate.generateCloud M st params in
  let '(deformedCloud, st) := Deformers.applyDeformers M st baseCloud params in
  let projectedBirds := Projection.projectScene M st deformedCloud params in
  (projectedBirds, st).

End WithMath.

End Main.

(* ================================================================== *)
(** ** Statements of the specification, in its own words *)

Module Spec.

(** The camera angles set, everything else kept: what orbiting the camera
    does to the parameter object. *)
Definition withCamera (p : Params) (rx ry rz : float) : Params :=
  mkParams (shapeType p) (count p) (radiusX p) (radiusY p) (radiusZ p)
    (torusMajor p) (torusMinor p) (sweptRadius p) (fillMode p) (seed p)
    (densityFalloff p) (densityNoise p) (densityNoiseFreq p)
    (subFlocks p) (subFlockSpread p) (subFlockSizeVar p) (subFlockBridge p)
    (noiseFreq p) (noiseAmp p) (noiseOctaves p) (noisePersistence p)
    (noiseLacunarity p) (noiseOffsetX p) (noiseOffsetY p) (noiseOffsetZ p)
    (smoothEnabled p) (smoothFreq p) (smoothAmp p)
    (twistEnabled p) (twistAmount p) (twistAxis p)
    (taperEnabled p) (taperStart p) (taperEnd p) (taperAxis p)
    (bendEnabled p) (bendAngle p) (bendAxis p)
    (waveEnabled p) (waveFreq p) (waveAmp p) (waveAxis p) (wavePhase p)
    rx ry rz (camZoom p) (projType p) (camFOV p)
    (birdScale p) (depthScale p) (orientToFlow p) (orientJitter p)
    (curlFlowFreq p) (curlFlowOctaves p) (poseVariation p) (poseNoiseFreq p)
    (depthOpacity p) (depthOpacityCurve p) (darkBandEnabled p)
    (darkBandGridSize p) (width p) (height p).

(** The central finite difference of a scalar field along each axis. *)
Definition ddx (eps : float) (f : float -> float -> float -> float)
    (x y z : float) : float :=
  ((f (x + eps) y z - f (x - eps) y z) / (2 * eps))%float.

Definition ddy (eps : float) (f : float -> float -> float -> float)
    (x y z : float) : float :=
  ((f x (y + eps) z - f x (y - eps) z) / (2 * eps))%float.

Definition ddz (eps : float) (f : float -> float -> float -> float)
    (x y z : float) : float :=
  ((f x y (z + eps) - f x y (z - eps)) / (2 * eps))%float.

(** The discrete curl of a vector potential [N]:
    (dNz/dy - dNy/dz, dNx/dz - dNz/dx, dNy/dx - dNx/dy). *)
Definition discreteCurl (eps : float) (N : float -> float -> float -> Point)
    (x y z : float) : Point :=
  let Nx := fun x y z => px (N x y z) in
  let Ny := fun x y z => py (N x y z) in
  let Nz := fun x y z => pz (N x y z) in
  mkPoint (ddy eps Nz x y z - ddz eps Ny x y z)
          (ddz eps Nx x y z - ddx eps Nz x y z)
          (ddx eps Ny x y z - ddy eps Nx x y z).

Definition isVolume (f : FillMode) : bool :=
  match f with Volume => true | Surface => false end.

(** The remap of a noise value in [-1,1] to a multiplier in
    [1 - densityNoise, 1]. *)
Definition noiseMultiplier (densityNoise nval : float) : float :=
  (1.0 - densityNoise + densityNoise * (0.5 + 0.5 * nval))%float.

Section WithMath.

Variable M : MathLib.
Variable st : Noise.State.

Definition falloffFactor (dist falloff : float) : float :=
  pow M (JS.max 0 (1 - dist)) falloff.

Definition noiseFactor (p : Point) (dp : Params) : float :=
  noiseMultiplier (densityNoise dp)
    (Noise.simplex3 st (px p * densityNoiseFreq dp) (py p * densityNoiseFreq dp)
                    (pz p * densityNoiseFreq dp)).

(** The acceptance probability as the specification words it: the noise
    term applies whenever [densityNoise > 0]. *)
Definition acceptanceProb (p : Point) (dist : float) (fillMode : FillMode)
    (dp : Params) : float :=
  let prob := 1.0%float in
  let prob := if (0 <? densityFalloff dp)%float && isVolume fillMode
              then (prob * falloffFactor dist (densityFalloff dp))%float
              else prob in
  let prob := if (0 <? densityNoise dp)%float
              then (prob * noiseFactor p dp)%float
              else prob in
  prob.


(** Accept if and only if the next uniform draw is below the probability. *)
Definition accepts (prob : float) (rng : Prng.state) : bool :=
  (fst (Prng.next rng) <? prob)%float.

End WithMath.

(** What the specification promises of a sampler's loop for a requested
    count [n]: at most [20 n] trials, at most [n] points, the loop has left
    its test, and it ends either with the count met or, the trials
    exhausted, with the fewer points gathered. *)
Definition withinBudget (n : Z) (l : Generate.Loop) : Prop :=
  0 <= Generate.attempts l <= 20 * n
  /\ Z.of_nat (length (Generate.points l)) <= n
  /\ Generate.running n (n * 20) l = false
  /\ (Z.of_nat (length (Generate.points l)) = n
      \/ (Z.of_nat (length (Generate.points l)) < n
          /\ Generate.attempts l = 20 * n)).

(** What one iteration of a sampler does to the loop variables: one more
    trial, at most one more point. *)
Definition oneTrial (body : Generate.Loop -> Generate.Loop) : Prop :=
  forall l,
    Generate.attempts (body l) = Generate.attempts l + 1
    /\ (length (Generate.points l) <= length (Generate.points (body l))
        <= S (length (Generate.points l)))%nat.

(** The depth of a primitive normalised across a batch, the zero range
    guarded. *)
Definition normDepth (batch : list Projection.Bird) (d : float) : float :=
  let '(minZ, maxZ) := Projection.depthRange batch in
  ((d - minZ) / JS.orElse (maxZ - minZ) 1)%float.

(** depthOpacity + (1 - depthOpacity) * normDepth ^ exponent. *)
Definition opacityOf (M : MathLib) (params : Params) (normDepth exponent : float)
    : float :=
  (depthOpacity params + (1 - depthOpacity params) * pow M normDepth exponent)%float.

(** A cloud obtained from another point by point, in order. *)
Definition pointwise (pts out : list Point) : Prop :=
  exists g : Point -> Point, out = map g pts.

(** A depth that is a number, not NaN. *)
Definition isNumber (d : float) : bool := negb (is_nan d).

Definition depthsAreNumbers (l : list Projection.Bird) : bool :=
  forallb (fun b => isNumber (Projection.depth b)) l.

(** Non-decreasing depth along a list of primitives. *)
Definition depthLe (a b : Projection.Bird) : Prop :=
  (Projection.depth a <=? Projection.depth b)%float = true.

End Spec.

(** Whether an optional result is there, and whether a list has an
    element. *)
Definition isSome {A : Type} (o : option A) : bool :=
  match o with Some _ => true | None => false end.

Definition nonEmpty {A : Type} (l : list A) : bool :=
  match l with [] => false | _ :: _ => true end.

(* ================================================================== *)
(** ** Example inputs *)

Module Examples.

(** The state a page starts from, and the state left by some earlier run. *)
Definition fresh : Noise.State := Noise.initial.
Definition used : Noise.State := Noise.seed 7 Noise.initial.

Definition params : Params := defaultParams 800 600.

(** The defaults seen through the perspective camera. *)
Definition perspective : Params :=
  mkParams Ellipsoid 800 40 30 100 60 20 15 Surface 42
    2.0 0.3 0.02 1 0.6 0.3 0.15
    0.02 20 4 0.5 2.0 0 0 0 false 0.005 30
    false 0.5 AxisZ false 1.0 0.3 AxisZ false 0.5 AxisX
    false 0.05 10 AxisZ 0
    0.3 0.5 0 2.5 Perspective 400
    1.0 0.5 true 0.2 0.015 2 true 0.01 0.3 1.0 true 20
    800 600.

(** The defaults with [depthOpacity = 0] and [depthOpacityCurve = 0]. *)
Definition curveZero : Params :=
  mkParams Ellipsoid 800 40 30 100 60 20 15 Surface 42
    2.0 0.3 0.02 1 0.6 0.3 0.15
    0.02 20 4 0.5 2.0 0 0 0 false 0.005 30
    false 0.5 AxisZ false 1.0 0.3 AxisZ false 0.5 AxisX
    false 0.05 10 AxisZ 0
    0.3 0.5 0 2.5 Ortho 400
    1.0 0.5 true 0.2 0.015 2 true 0.01 0 0 true 20
    800 600.

(** The defaults with [densityFalloff = 0], [densityNoise = 1] and
    [densityNoiseFreq = 0]. *)
Definition noiseFreqZero : Params :=
  mkParams Ellipsoid 800 40 30 100 60 20 15 Surface 42
    0 1 0 1 0.6 0.3 0.15
    0.02 20 4 0.5 2.0 0 0 0 false 0.005 30
    false 0.5 AxisZ false 1.0 0.3 AxisZ false 0.5 AxisX
    false 0.05 10 AxisZ 0
    0.3 0.5 0 2.5 Ortho 400
    1.0 0.5 true 0.2 0.015 2 true 0.01 0.3 1.0 true 20
    800 600.

(** The defaults with [densityFalloff = 1] and [densityNoise = 0]. *)
Definition falloffOne : Params :=
  mkParams Ellipsoid 800 40 30 100 60 20 15 Surface 42
    1 0 0.02 1 0.6 0.3 0.15
    0.02 20 4 0.5 2.0 0 0 0 false 0.005 30
    false 0.5 AxisZ false 1.0 0.3 AxisZ false 0.5 AxisX
    false 0.05 10 AxisZ 0
    0.3 0.5 0 2.5 Ortho 400
    1.0 0.5 true 0.2 0.015 2 true 0.01 0.3 1.0 true 20
    800 600.

Definition cloud : list Point :=
  [ mkPoint 10 (-20) 30; mkPoint (-40) 5 (-60); mkPoint 0 0 0;
    mkPoint 25 25 (-10) ]%float.

End Examples.

(* ================================================================== *)
(** ** shapes.js: the bird shapes, the pose keys and the path cache *)

Module Shapes.

(** A shape entry; [path] is [None] where the source has [null]. *)
Record Shape : Type := mkShape {
  name : String.string;
  path : option String.string;
  filled : bool
}.

(** A [Path2D] object, known by the path data it was built from. *)
Definition Path2D : Type := String.string.

(** The module state: the [custom] entry of [SHAPES], the only one that is
    ever assigned, and the [pathCache] map in insertion order. *)
Record State : Type := mkState {
  custom : Shape;
  pathCache : list (String.string * Path2D)
}.

Definition initial : State :=
  mkState (mkShape "Custom" None true) [].

(** The [SHAPES] object. *)
Definition SHAPES (s : State) : list (String.string * Shape) :=
  [ ("vee", mkShape "V-Shape" (Some "M-5,-3 L0,0 L-5,3") false);
    ("starling",
     mkShape "Starling"
       (Some "M5,0 C3.5,0.8 1.5,1.5 -1,2.5 L-4,4 L-3,1.5 L-5,0 L-3,-1.5 L-4,-4 L-1,-2.5 C1.5,-1.5 3.5,-0.8 5,0 Z")
       true);
    ("dot", mkShape "Dot" (Some "M2,0 A2,2 0 1,1 -2,0 A2,2 0 1,1 2,0 Z") true);
    ("swoop",
     mkShape "Swooping"
       (Some "M5,0 C3,0.6 1,1.2 -1,2 L-4,3.5 L-2.5,0 L-4,-3.5 L-1,-2 C1,-1.2 3,-0.6 5,0 Z")
       true);
    ("starlingUp",
     mkShape "Wings Up"
       (Some "M5,0 C3.5,0.5 1.5,1 -1,1.5 L-3.5,5 L-3,1 L-5,0 L-3,-1 L-3.5,-5 L-1,-1.5 C1.5,-1 3.5,-0.5 5,0 Z")
       true);
    ("starlingDown",
     mkShape "Wings Down"
       (Some "M5,0 C3.5,0.6 1.5,1.2 -1,2 L-4,2.5 L-3,0.8 L-5,0 L-3,-0.8 L-4,-2.5 L-1,-2 C1.5,-1.2 3.5,-0.6 5,0 Z")
       true);
    ("starlingSwept",
     mkShape "Wings Swept"
       (Some "M5,0 C3,0.4 1,0.8 -2,1.2 L-5,1.5 L-4,0.5 L-5,0 L-4,-0.5 L-5,-1.5 L-2,-1.2 C1,-0.8 3,-0.4 5,0 Z")
       true);
    ("custom", custom s) ]%string.

Definition POSE_KEYS : list String.string :=
  [ "starling"; "starlingUp"; "starlingDown"; "starlingSwept" ]%string.

(** Lookup of an own key in an object or a [Map] kept as a list. *)
Fixpoint lookup {A : Type} (k : String.string) (l : list (String.string * A)) : option A :=
  match l with
  | [] => None
  | (k', v) :: r => if String.eqb k k' then Some v else lookup k r
  end.

(** [Map.prototype.set]: the value of an existing key is replaced in
    place, a new key goes last. *)
Fixpoint mapSet {A : Type} (k : String.string) (v : A) (l : list (String.string * A))
    : list (String.string * A) :=
  match l with
  | [] => [(k, v)]
  | (k', v') :: r => if String.eqb k k' then (k, v) :: r else (k', v') :: mapSet k v r
  end.

(** A path that passes the test [shape.path]: neither [null] nor empty. *)
Definition truthy (p : option String.string) : option String.string :=
  match p with
  | Some d => if String.eqb d "" then None else Some d
  | None => None
  end.

(** [POSE_KEYS[poseIndex] || 'starling'] for an integer index. *)
Definition getPoseShapeKey (poseIndex : Z) : String.string :=
  if poseIndex <? 0 then "starling"%string
  else match nth_error POSE_KEYS (Z.to_nat poseIndex) with
       | Some k => if String.eqb k "" then "starling"%string else k
       | None => "starling"%string
       end.

(** [getPath2D(shapeKey)]: [None] is [null].  A key that [SHAPES] only
    inherits (such as [constructor]) names an object with no [path], and
    gives [null] like a key that is absent. *)
Definition getPath2D (shapeKey : String.string) (s : State) : option Path2D * State :=
  match lookup shapeKey (SHAPES s) with
  | None => (None, s)
  | Some shape =>
      match truthy (path shape) with
      | None => (None, s)
      | Some d =>
          let s :=
            if negb (isSome (lookup shapeKey (pathCache s)))
               || String.eqb shapeKey "custom"
            then mkState (custom s) (mapSet shapeKey d (pathCache s))
            else s in
          (lookup shapeKey (pathCache s), s)
      end
  end.

Definition getPosePath2D (poseIndex : Z) (s : State) : option Path2D * State :=
  getPath2D (getPoseShapeKey poseIndex) s.

(** [setCustomShape(pathData, isFilled)]. *)
Definition setCustomShape (pathData : String.string) (isFilled : bool) (s : State)
    : State :=
  mkState (mkShape (name (custom s)) (Some pathData) isFilled)
          (mapSet "custom" pathData (pathCache s)).

(** [getAvailableShapeKeys()]. *)
Definition getAvailableShapeKeys (s : State) : list String.string :=
  filter (fun k => negb (String.eqb k "custom") || isSome (truthy (path (custom s))))
         (map fst (SHAPES s)).

(** The calls a client of the module can make. *)
Inductive Call : Type :=
| CallGetPath2D (shapeKey : String.string)
| CallGetPosePath2D (poseIndex : Z)
| CallSetCustomShape (pathData : String.string) (isFilled : bool).

Definition call (c : Call) (s : State) : State :=
  match c with
  | CallGetPath2D k => snd (getPath2D k s)
  | CallGetPosePath2D i => snd (getPosePath2D i s)
  | CallSetCustomShape d f => setCustomShape d f s
  end.

(** The state after a sequence of calls from the state at module load. *)
Definition after (calls : list Call) : State :=
  fold_left (fun s c => call c s) calls initial.

End Shapes.

(* ================================================================== *)
(** ** presets.js: the built-in presets and their application *)

Module Presets.

(** The values a parameter takes. *)
Inductive Value : Type :=
| Num (v : float)
| Bool (b : bool)
| Str (s : String.string).

(** An object as its own properties in insertion order. *)
Definition Obj : Type := list (String.string * Value).

Definition BUILT_IN_PRESETS : list (String.string * Obj) :=
  [ ("Classic Murmuration",
     [ ("shapeType", Str "ellipsoid"); ("count", Num 1200);
       ("radiusX", Num 50); ("radiusY", Num 35); ("radiusZ", Num 120);
       ("fillMode", Str "volume");
       ("densityFalloff", Num 2.5); ("densityNoise", Num 0.4);
       ("densityNoiseFreq", Num 0.02);
       ("noiseAmp", Num 25); ("noiseFreq", Num 0.015); ("noiseOctaves", Num 3);
       ("smoothEnabled", Bool true); ("smoothFreq", Num 0.005); ("smoothAmp", Num 35);
       ("subFlocks", Num 2); ("subFlockSpread", Num 0.5);
       ("subFlockSizeVar", Num 0.3); ("subFlockBridge", Num 0.1);
       ("curlFlowFreq", Num 0.012); ("curlFlowOctaves", Num 2);
       ("darkBandEnabled", Bool true); ("darkBandStrength", Num 0.6);
       ("birdScale", Num 1.0); ("poseVariation", Bool true);
       ("depthOpacity", Num 0.2); ("depthOpacityCurve", Num 1.8);
       ("orientToFlow", Bool true); ("orientJitter", Num 0.15) ]);
    ("Tornado",
     [ ("shapeType", Str "ellipsoid"); ("count", Num 1500);
       ("radiusX", Num 20); ("radiusY", Num 20); ("radiusZ", Num 100);
       ("fillMode", Str "volume");
       ("densityFalloff", Num 1.5); ("densityNoise", Num 0.2);
       ("noiseAmp", Num 15); ("noiseFreq", Num 0.02); ("noiseOctaves", Num 3);
       ("twistEnabled", Bool true); ("twistAmount", Num 2.0); ("twistAxis", Str "z");
       ("taperEnabled", Bool true); ("taperStart", Num 1.5); ("taperEnd", Num 0.2);
       ("taperAxis", Str "z");
       ("subFlocks", Num 1);
       ("darkBandEnabled", Bool true); ("darkBandStrength", Num 0.5);
       ("smoothEnabled", Bool false);
       ("curlFlowFreq", Num 0.015); ("orientToFlow", Bool true) ]);
    ("River",
     [ ("shapeType", Str "swept"); ("count", Num 1000); ("sweptRadius", Num 12);
       ("densityFalloff", Num 2.0); ("densityNoise", Num 0.3);
       ("noiseAmp", Num 15); ("noiseFreq", Num 0.02); ("noiseOctaves", Num 3);
       ("smoothEnabled", Bool true); ("smoothFreq", Num 0.008); ("smoothAmp", Num 20);
       ("subFlocks", Num 1);
       ("curlFlowFreq", Num 0.015);
       ("darkBandEnabled", Bool true); ("darkBandStrength", Num 0.4);
       ("orientToFlow", Bool true); ("poseVariation", Bool true) ]);
    ("Explosion",
     [ ("shapeType", Str "sphere"); ("count", Num 2000);
       ("radiusX", Num 80); ("radiusY", Num 80); ("radiusZ", Num 80);
       ("fillMode", Str "volume");
       ("densityFalloff", Num 0.8); ("densityNoise", Num 0.6);
       ("densityNoiseFreq", Num 0.015);
       ("noiseAmp", Num 40); ("noiseFreq", Num 0.02); ("noiseOctaves", Num 5);
       ("smoothEnabled", Bool false);
       ("subFlocks", Num 3); ("subFlockSpread", Num 1.2);
       ("subFlockSizeVar", Num 0.4); ("subFlockBridge", Num 0.08);
       ("darkBandEnabled", Bool true); ("darkBandStrength", Num 0.4);
       ("curlFlowFreq", Num 0.01);
       ("orientToFlow", Bool true); ("poseVariation", Bool true) ]);
    ("Ribbon",
     [ ("shapeType", Str "torus"); ("count", Num 800);
       ("torusMajor", Num 70); ("torusMinor", Num 8);
       ("fillMode", Str "surface");
       ("densityFalloff", Num 1.0); ("densityNoise", Num 0.2);
       ("noiseAmp", Num 10); ("noiseFreq", Num 0.02); ("noiseOctaves", Num 3);
       ("smoothEnabled", Bool true); ("smoothFreq", Num 0.006); ("smoothAmp", Num 20);
       ("subFlocks", Num 1);
       ("curlFlowFreq", Num 0.01);
       ("darkBandEnabled", Bool true); ("darkBandStrength", Num 0.5);
       ("orientToFlow", Bool true); ("poseVariation", Bool true) ]) ]%string%float.

(** The property names an object literal inherits from [Object.prototype];
    [BUILT_IN_PRESETS[name]] finds a function or an object there, which is
    truthy and has no own enumerable property. *)
Definition inherited : list String.string :=
  [ "constructor"; "hasOwnProperty"; "isPrototypeOf"; "propertyIsEnumerable";
    "toLocaleString"; "toString"; "valueOf"; "__proto__";
    "__defineGetter__"; "__defineSetter__"; "__lookupGetter__";
    "__lookupSetter__" ]%string.

(** [target[k] = v]. *)
Definition put (target : Obj) (kv : String.string * Value) : Obj :=
  Shapes.mapSet (fst kv) (snd kv) target.

(** [Object.assign(target, source)]. *)
Definition assign (target source : Obj) : Obj := fold_left put source target.

(** [applyPreset(presetName, params)]: the returned flag and the
    parameter object afterwards. *)
Definition applyPreset (presetName : String.string) (params : Obj) : bool * Obj :=
  match Shapes.lookup presetName BUILT_IN_PRESETS with
  | Some preset => (true, assign params preset)
  | None =>
      if existsb (String.eqb presetName) inherited then (true, assign params [])
      else (false, params)
  end.

End Presets.

(* ================================================================== *)
(** ** main.js: the cached pipeline and the camera handlers *)

Module App.

(** The parameter object with new camera angles, zoom or viewport. *)
Definition withCamRot (p : Params) (rx ry : float) : Params :=
  Spec.withCamera p rx ry (camRotZ p).

Definition withZoom (p : Params) (zoom : float) : Params :=
  mkParams (shapeType p) (count p) (radiusX p) (radiusY p) (radiusZ p)
    (torusMajor p) (torusMinor p) (sweptRadius p) (fillMode p) (seed p)
    (densityFalloff p) (densityNoise p) (densityNoiseFreq p)
    (subFlocks p) (subFlockSpread p) (subFlockSizeVar p) (subFlockBridge p)
    (noiseFreq p) (noiseAmp p) (noiseOctaves p) (noisePersistence p)
    (noiseLacunarity p) (noiseOffsetX p) (noiseOffsetY p) (noiseOffsetZ p)
    (smoothEnabled p) (smoothFreq p) (smoothAmp p)
    (twistEnabled p) (twistAmount p) (twistAxis p)
    (taperEnabled p) (taperStart p) (taperEnd p) (taperAxis p)
    (bendEnabled p) (bendAngle p) (bendAxis p)
    (waveEnabled p) (waveFreq p) (waveAmp p) (waveAxis p) (wavePhase p)
    (camRotX p) (camRotY p) (camRotZ p) zoom (projType p) (camFOV p)
    (birdScale p) (depthScale p) (orientToFlow p) (orientJitter p)
    (curlFlowFreq p) (curlFlowOctaves p) (poseVariation p) (poseNoiseFreq p)
    (depthOpacity p) (depthOpacityCurve p) (darkBandEnabled p)
    (darkBandGridSize p) (width p) (height p).

Definition withViewport (p : Params) (w h : float) : Params :=
  mkParams (shapeType p) (count p) (radiusX p) (radiusY p) (radiusZ p)
    (torusMajor p) (torusMinor p) (sweptRadius p) (fillMode p) (seed p)
    (densityFalloff p) (densityNoise p) (densityNoiseFreq p)
    (subFlocks p) (subFlockSpread p) (subFlockSizeVar p) (subFlockBridge p)
    (noiseFreq p) (noiseAmp p) (noiseOctaves p) (noisePersistence p)
    (noiseLacunarity p) (noiseOffsetX p) (noiseOffsetY p) (noiseOffsetZ p)
    (smoothEnabled p) (smoothFreq p) (smoothAmp p)
    (twistEnabled p) (twistAmount p) (twistAxis p)
    (taperEnabled p) (taperStart p) (taperEnd p) (taperAxis p)
    (bendEnabled p) (bendAngle p) (bendAxis p)
    (waveEnabled p) (waveFreq p) (waveAmp p) (waveAxis p) (wavePhase p)
    (camRotX p) (camRotY p) (camRotZ p) (camZoom p) (projType p) (camFOV p)
    (birdScale p) (depthScale p) (orientToFlow p) (orientJitter p)
    (curlFlowFreq p) (curlFlowOctaves p) (poseVariation p) (poseNoiseFreq p)
    (depthOpacity p) (depthOpacityCurve p) (darkBandEnabled p)
    (darkBandGridSize p) w h.

(** The argument of [markDirty]; any string other than ['shape'] and
    ['deform'] acts as ['camera']. *)
Inductive Level : Type := LevelShape | LevelDeform | LevelCamera.

(** The module variables: [params], the [dirty] flags, the three cached
    stages, and the noise module's state. *)
Record State : Type := mkState {
  params : Params;
  dirtyShape : bool;
  dirtyDeform : bool;
  dirtyCamera : bool;
  baseCloud : list Point;
  deformedCloud : list Point;
  projectedBirds : list Projection.Bird;
  noise : Noise.State
}.

(** The variables at module load, for a window of [w] by [h]. *)
Definition initial (w h : float) : State :=
  mkState (defaultParams w h) true true true [] [] [] Noise.initial.

Definition setParams (s : State) (p : Params) : State :=
  mkState p (dirtyShape s) (dirtyDeform s) (dirtyCamera s)
          (baseCloud s) (deformedCloud s) (projectedBirds s) (noise s).

Definition setDirtyCamera (s : State) : State :=
  mkState (params s) (dirtyShape s) (dirtyDeform s) true
          (baseCloud s) (deformedCloud s) (projectedBirds s) (noise s).

(** [markDirty(level)]. *)
Definition markDirty (level : Level) (s : State) : State :=
  let dShape := match level with LevelShape => true | _ => dirtyShape s end in
  let dDeform := match level with
                 | LevelShape | LevelDeform => true
                 | LevelCamera => dirtyDeform s
                 end in
  mkState (params s) dShape dDeform true
          (baseCloud s) (deformedCloud s) (projectedBirds s) (noise s).

Section WithMath.

Variable M : MathLib.

(** [regenerate()]: each stage runs if its flag is set, and sets the flag
    of the next one. *)
Definition regenerate (s : State) : State :=
  let '(base, st, dDeform) :=
    if dirtyShape s then
      let '(b, st) := Generate.generateCloud M (noise s) (params s) in (b, st, true)
    else (baseCloud s, noise s, dirtyDeform s) in
  let '(deformed, st, dCamera) :=
    if dDeform then
      let '(d, st) := Deformers.applyDeformers M st base (params s) in (d, st, true)
    else (deformedCloud s, st, dirtyCamera s) in
  let projected :=
    if dCamera then Projection.projectScene M st deformed (params s)
    else projectedBirds s in
  mkState (params s) false false false base deformed projected st.

(** [callbacks.onParamChange(level)], the control having assigned the new
    value already; the drawing on the canvas is not part of the state. *)
Definition onParamChange (level : Level) (s : State) : State :=
  regenerate (markDirty level s).

End WithMath.

(** [resizeCanvas()] for a window of [w] by [h]. *)
Definition resizeCanvas (w h : float) (s : State) : State :=
  setDirtyCamera (setParams s (withViewport (params s) w h)).

(** The [pointermove] handler while dragging, the pointer having moved by
    [dx], [dy]. *)
Definition onPointerMove (dx dy : float) (s : State) : State :=
  let p := params s in
  setDirtyCamera
    (setParams s (withCamRot p (camRotX p + dy * 0.005) (camRotY p + dx * 0.005))).

(** The [wheel] handler. *)
Definition onWheel (deltaY : float) (s : State) : State :=
  let p := params s in
  let zoomDelta := (deltaY * -0.001)%float in
  setDirtyCamera
    (setParams s
       (withZoom p (JS.max 0.5 (JS.min 10 (camZoom p + zoomDelta * camZoom p))))).

End App.

(* ================================================================== *)
(** ** freehand.js: simplifying and normalising a drawn stroke *)

Module Freehand.

Record Point2 : Type := mkPoint2 { x : float; y : float }.

Definition origin : Point2 := mkPoint2 0 0.

Definition perpendicularDistance (point lineStart lineEnd : Point2) : float :=
  let dx := (x lineEnd - x lineStart)%float in
  let dy := (y lineEnd - y lineStart)%float in
  let lenSq := (dx * dx + dy * dy)%float in
  if (lenSq =? 0)%float then
    let ex := (x point - x lineStart)%float in
    let ey := (y point - y lineStart)%float in
    sqrt (ex * ex + ey * ey)
  else
    let t := JS.max 0 (JS.min 1 (((x point - x lineStart) * dx
                                  + (y point - y lineStart) * dy) / lenSq)%float) in
    let projX := (x lineStart + t * dx)%float in
    let projY := (y lineStart + t * dy)%float in
    let ex := (x point - projX)%float in
    let ey := (y point - projY)%float in
    sqrt (ex * ex + ey * ey).

(** The scan [for (i = 1; i < last; i++)] of [simplifyRDP] for the
    farthest interior point: [(maxDist, maxIdx)], from [(0, 0)]. *)
Definition farthest (points : list Point2) : float * nat :=
  let last := (length points - 1)%nat in
  fold_left
    (fun acc i =>
       let d := perpendicularDistance (nth i points origin) (nth 0 points origin)
                  (nth last points origin) in
       if (fst acc <? d)%float then (d, i) else acc)
    (seq 1 (last - 1)) (0%float, 0%nat).

(** [simplifyRDP(points, epsilon)].  The recursion is unrolled at most
    [fuel] deep; [None] stands for a recursion that does not return. *)
Fixpoint simplifyRDP (fuel : nat) (points : list Point2) (epsilon : float)
    : option (list Point2) :=
  if (length points <=? 2)%nat then Some points
  else
    match fuel with
    | O => None
    | S f =>
        let '(maxDist, maxIdx) := farthest points in
        let last := (length points - 1)%nat in
        if (epsilon <? maxDist)%float then
          match simplifyRDP f (firstn (maxIdx + 1) points) epsilon with
          | None => None
          | Some left_ =>
              match simplifyRDP f (skipn maxIdx points) epsilon with
              | None => None
              | Some right_ => Some (removelast left_ ++ right_)
              end
          end
        else Some [nth 0 points origin; nth last points origin]
    end.

(** The bounding box scan of [normaliseShape]:
    [(minX, minY, maxX, maxY)]. *)
Definition bbox (points : list Point2) : float * float * float * float :=
  fold_left
    (fun acc p =>
       let '(minX, minY, maxX, maxY) := acc in
       ((if (x p <? minX)%float then x p else minX),
        (if (y p <? minY)%float then y p else minY),
        (if (maxX <? x p)%float then x p else maxX),
        (if (maxY <? y p)%float then y p else maxY)))
    points (infinity, infinity, neg_infinity, neg_infinity).

Definition normaliseShape (points : list Point2) (canvasW canvasH targetSize : float)
    : list Point2 :=
  let '(minX, minY, maxX, maxY) := bbox points in
  let cx := ((minX + maxX) / 2)%float in
  let cy := ((minY + maxY) / 2)%float in
  let w := (maxX - minX)%float in
  let h := (maxY - minY)%float in
  let scale := (targetSize / JS.max3 w h 1)%float in
  map (fun p => mkPoint2 ((x p - cx) * scale) ((y p - cy) * scale)) points.

(** [r(n)]: two decimals. *)
Definition r (n : float) : float := (JS.round (n * 100) / 100)%float.

Section WithNumberFormat.

(** The conversion of a number to a string in a template literal. *)
Variable toString : float -> String.string.

Definition coords (p : Point2) : String.string :=
  String.append (toString (r (x p))) (String.append "," (toString (r (y p)))).

(** [pointsToSmoothPath(points, closed)]. *)
Definition pointsToSmoothPath (points : list Point2) (closed : bool) : String.string :=
  match points with
  | [] => ""%string
  | p0 :: rest =>
      if (length points <? 3)%nat then
        let d := String.append "M" (coords p0) in
        let d := fold_left (fun d p => String.append d (String.append " L" (coords p)))
                           rest d in
        if closed then String.append d " Z" else d
      else
        let mid := fun a b => mkPoint2 ((x a + x b) / 2) ((y a + y b) / 2) in
        let d := String.append "M" (coords p0) in
        let d :=
          fold_left
            (fun d i =>
               let m := mid (nth i points origin) (nth (i + 1) points origin) in
               String.append d
                 (String.append " Q"
                    (String.append (coords (nth i points origin))
                       (String.append " " (coords m)))))
            (seq 1 (length points - 2)) d in
        let last := nth (length points - 1) points origin in
        let d := String.append d (String.append " L" (coords last)) in
        if closed then String.append d " Z" else d
  end.

(** The [Done] button of the editor, for the stroke drawn so far:
    [None] when the drawing is cancelled (fewer than three points),
    otherwise the path data and the shape module with the custom shape
    registered.  The overlay and its listeners are not part of the
    state. *)
Definition onDone (points : list Point2) (canvasW canvasH : float)
    (shapes : Shapes.State) : option (String.string * Shapes.State) :=
  if (length points <? 3)%nat then None
  else
    match simplifyRDP (length points) points 3 with
    | None => None
    | Some simplified =>
        let normalised := normaliseShape simplified canvasW canvasH 10 in
        let pathData := pointsToSmoothPath normalised true in
        Some (pathData, Shapes.setCustomShape pathData true shapes)
    end.

End WithNumberFormat.

End Freehand.

(* ================================================================== *)
(** ** Notions used to state further properties *)

Module Laws.

(** The generator's state after [n] draws. *)
Definition stateAfter (n : nat) (a : Prng.state) : Prng.state :=
  Nat.iter n (fun s => snd (Prng.next s)) a.

(** The [n]-th draw (from 0) of a generator. *)
Definition draw (n : nat) (a : Prng.state) : float :=
  fst (Prng.next (stateAfter n a)).

(** An iteration of a sampler's loop that accepts its candidate. *)
Definition accepting (body : Generate.Loop -> Generate.Loop) : Prop :=
  forall l,
    Generate.attempts (body l) = Generate.attempts l + 1
    /\ length (Generate.points (body l)) = S (length (Generate.points l)).

(** Whether the first loop of [projectScene] keeps a point: the
    perspective camera drops the points at or behind it. *)
Definition visible (M : MathLib) (params : Params) (p : Point) : bool :=
  match projType params with
  | Perspective =>
      negb (pz (Projection.rotateCam M params p) + Projection.camDist <=? 0.1)%float
  | Ortho => true
  end.

(** Two primitives that agree on everything but their place on the
    screen, their heading and their local density. *)
Definition sameButPlace (b b' : Projection.Bird) : Prop :=
  Projection.depth b = Projection.depth b'
  /\ Projection.perspScale b = Projection.perspScale b'
  /\ Projection.poseIndex b = Projection.poseIndex b'
  /\ Projection.scale b = Projection.scale b'
  /\ Projection.opacity b = Projection.opacity b'.

(** The path cache holds, under every key but ['custom'], the path of
    that key's shape. *)
Definition cacheInv (s : Shapes.State) : Prop :=
  forall k d,
    String.eqb k "custom" = false ->
    Shapes.lookup k (Shapes.pathCache s) = Some d ->
    exists shape,
      Shapes.lookup k (Shapes.SHAPES s) = Some shape
      /\ Shapes.truthy (Shapes.path shape) = Some d.

(** The parameter object after loading presets one after the other. *)
Definition loadPresets (names : list String.string) (params : Presets.Obj)
    : Presets.Obj :=
  fold_left (fun p n => snd (Presets.applyPreset n p)) names params.

(** Two parameter objects that agree on the parameters of the base
    cloud (the controls bound with the level ['shape']). *)
Definition sameShape (p q : Params) : Prop :=
  shapeType p = shapeType q /\ count p = count q
  /\ radiusX p = radiusX q /\ radiusY p = radiusY q /\ radiusZ p = radiusZ q
  /\ torusMajor p = torusMajor q /\ torusMinor p = torusMinor q
  /\ sweptRadius p = sweptRadius q /\ fillMode p = fillMode q
  /\ seed p = seed q
  /\ densityFalloff p = densityFalloff q /\ densityNoise p = densityNoise q
  /\ densityNoiseFreq p = densityNoiseFreq q
  /\ subFlocks p = subFlocks q /\ subFlockSpread p = subFlockSpread q
  /\ subFlockSizeVar p = subFlockSizeVar q /\ subFlockBridge p = subFlockBridge q.

(** Two parameter objects that agree on the seed and on the parameters of
    the deformer stack (the controls bound with the level ['deform']). *)
Definition sameDeform (p q : Params) : Prop :=
  seed p = seed q
  /\ noiseFreq p = noiseFreq q /\ noiseAmp p = noiseAmp q
  /\ noiseOctaves p = noiseOctaves q /\ noisePersistence p = noisePersistence q
  /\ noiseLacunarity p = noiseLacunarity q
  /\ noiseOffsetX p = noiseOffsetX q /\ noiseOffsetY p = noiseOffsetY q
  /\ noiseOffsetZ p = noiseOffsetZ q
  /\ smoothEnabled p = smoothEnabled q /\ smoothFreq p = smoothFreq q
  /\ smoothAmp p = smoothAmp q
  /\ twistEnabled p = twistEnabled q /\ twistAmount p = twistAmount q
  /\ twistAxis p = twistAxis q
  /\ taperEnabled p = taperEnabled q /\ taperStart p = taperStart q
  /\ taperEnd p = taperEnd q /\ taperAxis p = taperAxis q
  /\ bendEnabled p = bendEnabled q /\ bendAngle p = bendAngle q
  /\ bendAxis p = bendAxis q
  /\ waveEnabled p = waveEnabled q /\ waveFreq p = waveFreq q
  /\ waveAmp p = waveAmp q /\ waveAxis p = waveAxis q /\ wavePhase p = wavePhase q.

(** The application's caches hold what a full run of the pipeline on its
    current parameters gives, and no stage is marked dirty. *)
Definition upToDate (M : MathLib) (s : App.State) : Prop :=
  App.dirtyShape s = false /\ App.dirtyDeform s = false /\ App.dirtyCamera s = false
  /\ App.baseCloud s = fst (Generate.generateCloud M Noise.initial (App.params s))
  /\ App.deformedCloud s
     = fst (Deformers.applyDeformers M Noise.initial (App.baseCloud s) (App.params s))
  /\ App.projectedBirds s = fst (Main.regenerate M Noise.initial (App.params s))
  /\ App.noise s = Noise.seed (seed (App.params s)) Noise.initial.

(** An integer that orders the numbers as the comparisons do: the
    magnitude scaled to the smallest exponent, signed; the infinities lie
    beyond every finite number. *)
Definition top : Z := 2 ^ 3000.

Definition SFkey (x : spec_float) : Z :=
  match x with
  | S754_zero _ => 0
  | S754_infinity s => if s then - top else top
  | S754_nan => 0
  | S754_finite s m e =>
      let v := Zpos m * 2 ^ (e + 1074) in if s then - v else v
  end.

Definition key (x : float) : Z := SFkey (Prim2SF x).

(** One step of the scan of [getBounds]. *)
Definition boundsStep (axis : Axis) (b : Deformers.Bounds) (p : Point)
    : Deformers.Bounds :=
  let v := Deformers.getAxisVal axis p in
  Deformers.mkBounds (if (v <? Deformers.bmin b)%float then v else Deformers.bmin b)
                     (if (Deformers.bmax b <? v)%float then v else Deformers.bmax b).

(** The number [v * 2^(-sh)], for an integer [0 <= v < 2^53], as the
    format writes it: the mantissa filled to 53 bits. *)
Definition dyadic (v sh : Z) : spec_float :=
  match v with
  | Zpos p =>
      let d := Zpos (digits2_pos p) in
      S754_finite false (Z.to_pos (v * 2 ^ (53 - d))) (d - 53 - sh)
  | _ => S754_zero false
  end.

(** The quotient N / D of two integers, D > 0, rounded to the nearest
    integer, a tie going to the even one. *)
Definition rne (N D : Z) : Z :=
  let q := N / D in
  let r := N mod D in
  if 2 * r <? D then q
  else if D <? 2 * r then q + 1
  else if Z.even q then q else q + 1.

(** A shift record of the format's rounding stands for the quotient N / D:
    its mantissa is the integer part, its two bits say where the rest lies
    against one half. *)
Definition stands (mrs : shr_record) (N D : Z) : Prop :=
  shr_m mrs = N / D
  /\ shr_r mrs = (D <=? 2 * (N mod D))
  /\ shr_s mrs = negb (N mod D =? 0) && negb (2 * (N mod D) =? D).

(** On the scale of [key] (a number times 2^1074) the numbers of the
    format near W are the multiples of [ulp W]; [nearest W] is the one
    nearest to W, a tie going to the even multiple. *)
Definition ulp (W : Z) : Z := 2 ^ Z.max 0 (Zdigits2 W - 53).

Definition nearest (W : Z) : Z := rne W (ulp W) * ulp W.

(** The keys of the finite numbers lie below [huge]. *)
Definition huge : Z := 2 ^ 2098.

(** A number of the format that is neither NaN nor an infinity. *)
Definition isFiniteSF (x : spec_float) : bool :=
  match x with
  | S754_zero _ | S754_finite _ _ _ => true
  | _ => false
  end.

(** A depth that is a finite number, and a batch of such depths whose
    range is finite too. *)
Definition depthsAreFinite (l : list Projection.Bird) : bool :=
  forallb (fun b => is_finite (Projection.depth b)) l.

Definition rangeIsFinite (l : list Projection.Bird) : bool :=
  is_finite (snd (Projection.depthRange l) - fst (Projection.depthRange l)).

(** A list obtained from another by leaving elements out. *)
Inductive subseq {A : Type} : list A -> list A -> Prop :=
| subseq_nil : subseq [] []
| subseq_skip (a : A) (l m : list A) : subseq l m -> subseq l (a :: m)
| subseq_take (a : A) (l m : list A) : subseq l m -> subseq (a :: l) (a :: m).

End Laws.

(* ================================================================== *)
(** ** Further example inputs *)

Module Samples.

(** The defaults with both density controls at 0. *)
Definition uniform : Params :=
  mkParams Ellipsoid 800 40 30 100 60 20 15 Surface 42
    0 0 0.02 1 0.6 0.3 0.15
    0.02 20 4 0.5 2.0 0 0 0 false 0.005 30
    false 0.5 AxisZ false 1.0 0.3 AxisZ false 0.5 AxisX
    false 0.05 10 AxisZ 0
    0.3 0.5 0 2.5 Ortho 400
    1.0 0.5 true 0.2 0.015 2 true 0.01 0.3 1.0 true 20
    800 600.

(** The defaults with the density noise at 0 and the falloff kept. *)
Definition falloffOnly : Params :=
  mkParams Ellipsoid 800 40 30 100 60 20 15 Surface 42
    2.0 0 0.02 1 0.6 0.3 0.15
    0.02 20 4 0.5 2.0 0 0 0 false 0.005 30
    false 0.5 AxisZ false 1.0 0.3 AxisZ false 0.5 AxisX
    false 0.05 10 AxisZ 0
    0.3 0.5 0 2.5 Ortho 400
    1.0 0.5 true 0.2 0.015 2 true 0.01 0.3 1.0 true 20
    800 600.

(** The defaults with [noiseOctaves = 0]. *)
Definition noOctaves : Params :=
  mkParams Ellipsoid 800 40 30 100 60 20 15 Surface 42
    2.0 0.3 0.02 1 0.6 0.3 0.15
    0.02 20 0 0.5 2.0 0 0 0 false 0.005 30
    false 0.5 AxisZ false 1.0 0.3 AxisZ false 0.5 AxisX
    false 0.05 10 AxisZ 0
    0.3 0.5 0 2.5 Ortho 400
    1.0 0.5 true 0.2 0.015 2 true 0.01 0.3 1.0 true 20
    800 600.

(** Three points on a line. *)
Definition collinear : list Freehand.Point2 :=
  [ Freehand.mkPoint2 0 0; Freehand.mkPoint2 1 0; Freehand.mkPoint2 2 0 ]%float.

(** A stand-in for the conversion of numbers to strings. *)
Definition noDigits (v : float) : String.string := "0"%string.

(** A drawn stroke: a hook of six points. *)
Definition stroke : list Freehand.Point2 :=
  [ Freehand.mkPoint2 10 10; Freehand.mkPoint2 20 11; Freehand.mkPoint2 40 10;
    Freehand.mkPoint2 60 40; Freehand.mkPoint2 61 80; Freehand.mkPoint2 20 90 ]%float.

End Samples.

(* ================================================================== *)
(** * Properties *)

(** ** Lists and loops *)

Lemma set_length (p : list Z) (i : nat) (v : Z) :
  length (Noise.set p i v) = length p.
Proof.
  revert i; induction p as [|x r IH]; intros [|i]; simpl; auto.
Qed.

Lemma set_middle (done rest : list Z) (x v : Z) :
  Noise.set (done ++ x :: rest) (length done) v = done ++ v :: rest.
Proof.
  induction done as [|d done IH]; simpl; [reflexivity|]. now rewrite IH.
Qed.

(** Writing [f i] at every index of a table leaves [map f] of the indices,
    whatever the table held. *)
Lemma overwrite_from (f : nat -> Z) (rest done : list Z) :
  fold_left (fun perm i => Noise.set perm i (f i))
            (seq (length done) (length rest)) (done ++ rest)
  = done ++ map f (seq (length done) (length rest)).
Proof.
  revert done; induction rest as [|x rest IH]; intros done; simpl.
  - reflexivity.
  - rewrite set_middle.
    replace (done ++ f (length done) :: rest)
      with ((done ++ [f (length done)]) ++ rest) by now rewrite <- app_assoc.
    replace (S (length done)) with (length (done ++ [f (length done)]))
      by (rewrite length_app; simpl; lia).
    rewrite IH. rewrite <- app_assoc. simpl.
    now rewrite length_app; simpl; replace (length done + 1)%nat with (S (length done)) by lia.
Qed.

Lemma overwrite_all (f : nat -> Z) (l : list Z) :
  fold_left (fun perm i => Noise.set perm i (f i)) (seq 0 (length l)) l
  = map f (seq 0 (length l)).
Proof. exact (overwrite_from f l []). Qed.

(** ** Bounded loops *)

Lemma repeatUntilN_add {St R : Type} (step : St -> St + R) (n m : nat) (s : St) :
  repeatUntilN (n + m) step s
  = match repeatUntilN n step s with
    | inl s' => repeatUntilN m step s'
    | inr r => inr r
    end.
Proof.
  revert s; induction n as [|n IH]; intros s; cbn [repeatUntilN Nat.add].
  - reflexivity.
  - destruct (step s) as [s'|r]; [apply IH|reflexivity].
Qed.

(** The binary bound and the unary bound count the same rounds. *)
Lemma repeatUntil_unary {St R : Type} (step : St -> St + R) (p : positive) (s : St) :
  repeatUntil p step s = repeatUntilN (Pos.to_nat p) step s.
Proof.
  revert s; induction p as [p IH|p IH|]; intros s; cbn [repeatUntil].
  - rewrite Pos2Nat.inj_xI.
    replace (S (2 * Pos.to_nat p)) with (1 + (Pos.to_nat p + Pos.to_nat p))%nat by lia.
    rewrite repeatUntilN_add. cbn [repeatUntilN].
    destruct (step s) as [s'|r]; [|reflexivity].
    rewrite repeatUntilN_add. rewrite IH.
    destruct (repeatUntilN (Pos.to_nat p) step s') as [s''|r]; [apply IH|reflexivity].
  - rewrite Pos2Nat.inj_xO.
    replace (2 * Pos.to_nat p)%nat with (Pos.to_nat p + Pos.to_nat p)%nat by lia.
    rewrite repeatUntilN_add. rewrite IH.
    destruct (repeatUntilN (Pos.to_nat p) step s) as [s'|r]; [apply IH|reflexivity].
  - change (Pos.to_nat 1) with 1%nat. cbn [repeatUntilN].
    destruct (step s); reflexivity.
Qed.

(** ** Facts about numbers *)

Lemma SFcompare_refl (x : spec_float) :
  x <> S754_nan -> SFcompare x x = Some Eq.
Proof.
  destruct x as [s|s| |s m e]; intros H; try congruence; cbn.
  - reflexivity.
  - now destruct s.
  - rewrite Z.compare_refl, Pos.compare_cont_refl. now destruct s.
Qed.

Lemma is_nan_SF (x : float) :
  is_nan x = match Prim2SF x with S754_nan => true | _ => false end.
Proof.
  unfold is_nan. rewrite eqb_spec. unfold SFeqb.
  destruct (Prim2SF x) as [s|s| |s m e] eqn:E.
  - reflexivity.
  - now destruct s.
  - reflexivity.
  - rewrite SFcompare_refl by congruence. reflexivity.
Qed.

Lemma Prim2SF_zero : Prim2SF 0 = S754_zero false.
Proof. reflexivity. Qed.

(** [x || 0] and the comparisons with 0. *)
Lemma orElse0_leb (x : float) :
  (JS.orElse x 0 <=? 0)%float = negb (0 <? x)%float.
Proof.
  unfold JS.orElse. rewrite is_nan_SF, eqb_spec, ltb_spec, Prim2SF_zero.
  destruct (Prim2SF x) as [s|s| |s m e] eqn:E; try destruct s; cbn;
    try reflexivity; now rewrite leb_spec, E, Prim2SF_zero.
Qed.

Lemma orElse0_pos (x : float) :
  (0 <? x)%float = true -> JS.orElse x 0 = x.
Proof.
  unfold JS.orElse. rewrite is_nan_SF, eqb_spec, ltb_spec, Prim2SF_zero.
  destruct (Prim2SF x) as [s|s| |s m e] eqn:E; try destruct s; cbn;
    try discriminate; reflexivity.
Qed.

Lemma orElse0_ltb (x : float) :
  (0 <? JS.orElse x 0)%float = (0 <? x)%float.
Proof.
  destruct (0 <? x)%float eqn:E.
  - now rewrite orElse0_pos.
  - unfold JS.orElse.
    destruct ((x =? 0)%float || is_nan x); [reflexivity|exact E].
Qed.

Lemma SFcompare_Gt (x y : spec_float) :
  SFcompare x y = Some Gt -> SFcompare y x = Some Lt.
Proof.
  destruct x as [sx|sx| |sx mx ex], y as [sy|sy| |sy my ey]; cbn;
    try discriminate;
    try (repeat match goal with b : bool |- _ => destruct b end;
         cbn; congruence).
  replace (ey ?= ex) with (CompOpp (ex ?= ey))
    by (symmetry; apply Z.compare_antisym).
  replace (Pos.compare_cont Eq my mx) with (CompOpp (Pos.compare_cont Eq mx my))
    by (rewrite Pos.compare_cont_antisym; reflexivity).
  destruct sx, sy; cbn; try congruence;
    destruct (ex ?= ey); cbn; try congruence;
    destruct (Pos.compare_cont Eq mx my); cbn; congruence.
Qed.

(** Between two numbers, if not [x <= y] then [y < x]. *)
Lemma leb_false_ltb (x y : float) :
  is_nan x = false -> is_nan y = false ->
  (x <=? y)%float = false -> (y <? x)%float = true.
Proof.
  rewrite !is_nan_SF, leb_spec, ltb_spec. unfold SFleb, SFltb.
  intros Hx Hy H.
  destruct (SFcompare (Prim2SF x) (Prim2SF y)) as [[| |]|] eqn:E; try discriminate.
  - now rewrite (SFcompare_Gt _ _ E).
  - destruct (Prim2SF x), (Prim2SF y); cbn in E; try discriminate;
      repeat match goal with b : bool |- _ => destruct b end; discriminate.
Qed.

Lemma float_neq (x y : float) :
  (x =? y)%float = false -> (x =? x)%float = true -> x <> y.
Proof. intros H1 H2 E. subst. congruence. Qed.

Lemma orElse_truthy (x d : float) :
  (x =? 0)%float = false -> is_nan x = false -> JS.orElse x d = x.
Proof. unfold JS.orElse. now intros -> ->. Qed.

Lemma orElse_pos (x d : float) :
  (0 <? x)%float = true -> JS.orElse x d = x.
Proof.
  intros H. apply orElse_truthy.
  - revert H. rewrite eqb_spec, ltb_spec, Prim2SF_zero.
    destruct (Prim2SF x) as [s|s| |s m e]; try destruct s; cbn; congruence.
  - revert H. rewrite is_nan_SF, ltb_spec, Prim2SF_zero.
    destruct (Prim2SF x) as [s|s| |s m e]; try destruct s; cbn; congruence.
Qed.

Lemma orElse_zero (x d : float) :
  (x =? 0)%float = true -> JS.orElse x d = d.
Proof. unfold JS.orElse. now intros ->. Qed.

(** ** The sign of a difference

    The comparison function of the depth sort is a subtraction; that its
    sign orders its operands is a fact of the binary64 format, proved here
    from the format's specification. *)

Lemma digits2_pos_bounds (m : positive) :
  2 ^ (Zpos (digits2_pos m) - 1) <= Zpos m < 2 ^ Zpos (digits2_pos m).
Proof.
  induction m as [m IH|m IH|]; cbn [digits2_pos].
  - rewrite Pos2Z.inj_succ.
    replace (Z.succ (Zpos (digits2_pos m)) - 1) with (Z.succ (Zpos (digits2_pos m) - 1)) by lia.
    rewrite !Z.pow_succ_r by lia. lia.
  - rewrite Pos2Z.inj_succ.
    replace (Z.succ (Zpos (digits2_pos m)) - 1) with (Z.succ (Zpos (digits2_pos m) - 1)) by lia.
    rewrite !Z.pow_succ_r by lia. lia.
  - cbn. lia.
Qed.

Lemma shr_1_m (mrs : shr_record) :
  0 <= shr_m mrs -> shr_m (shr_1 mrs) = shr_m mrs / 2.
Proof.
  destruct mrs as [m r s]; cbn [shr_m]. intros H.
  destruct m as [|[p|p|]|p]; cbn [shr_1 shr_m]; try lia.
  - reflexivity.
  - rewrite Pos2Z.inj_xI. apply Z.div_unique with 1; lia.
  - rewrite Pos2Z.inj_xO. apply Z.div_unique with 0; lia.
  - reflexivity.
Qed.

Lemma shr_1_nonneg (mrs : shr_record) : 0 <= shr_m mrs -> 0 <= shr_m (shr_1 mrs).
Proof. intros H. rewrite shr_1_m by exact H. apply Z.div_pos; lia. Qed.

Lemma shr_iter_m (p : positive) :
  forall mrs, 0 <= shr_m mrs ->
    shr_m (iter_pos shr_1 p mrs) = shr_m mrs / 2 ^ Zpos p.
Proof.
  induction p as [p IH|p IH|]; intros mrs H; cbn [iter_pos].
  - assert (H1 := shr_1_nonneg mrs H).
    assert (H2 : 0 <= shr_m (iter_pos shr_1 p (shr_1 mrs))).
    { rewrite IH by exact H1. apply Z.div_pos; lia. }
    rewrite IH by exact H2. rewrite IH by exact H1. rewrite shr_1_m by exact H.
    rewrite !Z.div_div by lia. f_equal.
    rewrite Pos2Z.inj_xI. rewrite Z.pow_add_r, Z.pow_mul_r by lia.
    change (2 ^ 2) with 4. change (2 ^ 1) with 2.
    replace (4 ^ Zpos p) with (2 ^ Zpos p * 2 ^ Zpos p).
    + lia.
    + rewrite <- Z.pow_add_r by lia. replace (Zpos p + Zpos p) with (2 * Zpos p) by lia.
      rewrite Z.pow_mul_r by lia. reflexivity.
  - assert (H2 : 0 <= shr_m (iter_pos shr_1 p mrs)).
    { rewrite IH by exact H. apply Z.div_pos; lia. }
    rewrite IH by exact H2. rewrite IH by exact H.
    rewrite Z.div_div by lia. f_equal.
    rewrite Pos2Z.inj_xO. rewrite <- Z.pow_add_r by lia. f_equal. lia.
  - rewrite shr_1_m by exact H. reflexivity.
Qed.

Lemma fexp64 (k : Z) : fexp prec emax k = Z.max (k - 53) (-1074).
Proof. reflexivity. Qed.

Lemma shr_record_of_loc_m (m : Z) (l : location) : shr_m (shr_record_of_loc m l) = m.
Proof. destruct l as [|[| |]]; reflexivity. Qed.

(** Shifting to the format's exponent never cancels a positive mantissa. *)
Lemma shr_fexp_pos (m : positive) (e : Z) (l : location) :
  -1074 <= e ->
  0 < shr_m (fst (shr_fexp prec emax (Zpos m) e l))
  /\ -1074 <= snd (shr_fexp prec emax (Zpos m) e l).
Proof.
  intros He. unfold shr_fexp. rewrite fexp64. cbn [Zdigits2].
  pose proof (digits2_pos_bounds m) as Hd.
  set (d := Zpos (digits2_pos m)) in *.
  destruct (Z.max (d + e - 53) (-1074) - e) as [|p|p] eqn:En; cbn [shr fst snd].
  - rewrite shr_record_of_loc_m. lia.
  - rewrite shr_iter_m by (rewrite shr_record_of_loc_m; lia).
    rewrite shr_record_of_loc_m. split; [|lia].
    apply Z.div_str_pos. split; [lia|].
    apply Z.le_trans with (2 ^ (d - 1)); [|lia].
    apply Z.pow_le_mono_r; lia.
  - rewrite shr_record_of_loc_m. lia.
Qed.

Lemma round_nearest_even_pos (m : Z) (l : location) :
  0 < m -> 0 < round_nearest_even m l.
Proof.
  intros H. destruct l as [|[| |]]; cbn [round_nearest_even]; try lia.
  destruct (Z.even m); lia.
Qed.

Lemma binary_round_aux_signed (s : bool) (m : positive) (e : Z) (l : location) :
  -1074 <= e -> JS.signed s (binary_round_aux prec emax s (Zpos m) e l).
Proof.
  intros He. unfold binary_round_aux.
  pose proof (@shr_fexp_pos m e l He) as H1.
  destruct (shr_fexp prec emax (Zpos m) e l) as [mrs' e']. cbn [fst snd] in H1.
  destruct H1 as [Hm He'].
  pose proof (@round_nearest_even_pos (shr_m mrs') (loc_of_shr_record mrs') Hm) as Hr.
  destruct (round_nearest_even (shr_m mrs') (loc_of_shr_record mrs')) as [|m2|m2];
    try lia.
  pose proof (@shr_fexp_pos m2 e' loc_Exact He') as H2.
  destruct (shr_fexp prec emax (Zpos m2) e' loc_Exact) as [mrs'' e''].
  cbn [fst snd] in H2. destruct H2 as [Hm2 _].
  destruct (shr_m mrs'') as [|m3|m3]; try lia.
  destruct (e'' <=? emax - prec); [left; eauto|now right].
Qed.

Lemma binary_round_signed (s : bool) (m : positive) (e : Z) :
  -1074 <= e -> JS.signed s (binary_round prec emax s m e).
Proof.
  intros He. unfold binary_round.
  destruct (shl_align m e (fexp prec emax (Zpos (digits2_pos m) + e))) as [mz ez] eqn:E.
  apply binary_round_aux_signed.
  unfold shl_align in E. rewrite fexp64 in E.
  destruct (Z.max (Zpos (digits2_pos m) + e - 53) (-1074) - e);
    inversion E; subst; lia.
Qed.

Lemma signed_ltb_zero (s : bool) (x : spec_float) :
  JS.signed s x -> SFltb x (S754_zero false) = s.
Proof.
  intros [(m & e & ->)| ->]; cbn; now destruct s.
Qed.

(** The sign of a normalised integer is the sign of the integer. *)
Lemma binary_normalize_ltb_zero (D e : Z) :
  -1074 <= e ->
  SFltb (binary_normalize prec emax D e false) (S754_zero false) = (D <? 0).
Proof.
  intros He. destruct D as [|m|m]; cbn [binary_normalize].
  - reflexivity.
  - now rewrite (@signed_ltb_zero false _ (@binary_round_signed false m e He)).
  - now rewrite (@signed_ltb_zero true _ (@binary_round_signed true m e He)).
Qed.

Lemma valid_finite (s : bool) (m : positive) (e : Z) :
  valid_binary (S754_finite s m e) = true ->
  -1074 <= e /\ Zpos (digits2_pos m) <= 53
  /\ (-1074 < e -> Zpos (digits2_pos m) = 53).
Proof.
  cbn [SpecFloat.valid_binary]. unfold bounded, canonical_mantissa.
  rewrite fexp64. intros H. apply andb_true_iff in H. destruct H as [H _].
  apply Z.eqb_eq in H. lia.
Qed.

Lemma iter_xO (m d : positive) : Zpos (Pos.iter xO m d) = Zpos m * 2 ^ Zpos d.
Proof.
  induction d as [|d IH] using Pos.peano_ind.
  - cbn. lia.
  - rewrite Pos.iter_succ, Pos2Z.inj_xO, IH, Pos2Z.inj_succ, Z.pow_succ_r by lia. lia.
Qed.

Lemma shl_align_value (m : positive) (e e' : Z) :
  e' <= e -> Zpos (fst (shl_align m e e')) = Zpos m * 2 ^ (e - e').
Proof.
  intros H. unfold shl_align.
  destruct (e' - e) as [|d|d] eqn:E; cbn [fst]; try lia.
  - replace (e - e') with 0 by lia. cbn. lia.
  - rewrite iter_xO. f_equal. f_equal. lia.
Qed.

(** For numbers of the format, comparing exponents first and mantissas
    next compares the values. *)
Lemma magnitude_compare (sx sy : bool) (mx my : positive) (ex ey : Z) :
  valid_binary (S754_finite sx mx ex) = true ->
  valid_binary (S754_finite sy my ey) = true ->
  match ex ?= ey with
  | Lt => Lt
  | Gt => Gt
  | Eq => Pos.compare_cont Eq mx my
  end
  = (Zpos mx * 2 ^ (ex - Z.min ex ey) ?= Zpos my * 2 ^ (ey - Z.min ex ey)).
Proof.
  intros Hx Hy. apply valid_finite in Hx, Hy.
  destruct Hx as (Hx1 & Hx2 & Hx3), Hy as (Hy1 & Hy2 & Hy3).
  pose proof (digits2_pos_bounds mx) as Bx. pose proof (digits2_pos_bounds my) as By.
  destruct (ex ?= ey) eqn:E.
  - apply Z.compare_eq in E. subst ey. rewrite Z.min_id, Z.sub_diag.
    change (2 ^ 0) with 1. rewrite !Z.mul_1_r. reflexivity.
  - rewrite Z.compare_lt_iff in E. symmetry. apply Z.compare_lt_iff.
    rewrite Z.min_l by lia. rewrite Z.sub_diag. change (2 ^ 0) with 1.
    rewrite Z.mul_1_r.
    rewrite Hy3 in By by lia. change (2 ^ (53 - 1)) with 4503599627370496 in By.
    assert (Zpos mx < 2 ^ 53).
    { apply Z.lt_le_trans with (2 ^ Zpos (digits2_pos mx)); [lia|].
      apply Z.pow_le_mono_r; lia. }
    assert (2 ^ 1 <= 2 ^ (ey - ex)) by (apply Z.pow_le_mono_r; lia).
    change (2 ^ 53) with 9007199254740992 in *. change (2 ^ 1) with 2 in *. nia.
  - rewrite Z.compare_gt_iff in E. symmetry. apply Z.compare_gt_iff.
    rewrite Z.min_r by lia. rewrite Z.sub_diag. change (2 ^ 0) with 1.
    rewrite Z.mul_1_r.
    rewrite Hx3 in Bx by lia. change (2 ^ (53 - 1)) with 4503599627370496 in Bx.
    assert (Zpos my < 2 ^ 53).
    { apply Z.lt_le_trans with (2 ^ Zpos (digits2_pos my)); [lia|].
      apply Z.pow_le_mono_r; lia. }
    assert (2 ^ 1 <= 2 ^ (ex - ey)) by (apply Z.pow_le_mono_r; lia).
    change (2 ^ 53) with 9007199254740992 in *. change (2 ^ 1) with 2 in *. nia.
Qed.

(** The sign of a difference decides the order of its operands. *)
Lemma SFsub_ltb_zero (x y : spec_float) :
  valid_binary x = true -> valid_binary y = true ->
  x <> S754_nan -> y <> S754_nan ->
  SFltb (SF64sub x y) (S754_zero false) = SFltb x y.
Proof.
  intros Vx Vy Nx Ny.
  destruct x as [sx|sx| |sx mx ex], y as [sy|sy| |sy my ey]; try congruence;
    try (repeat match goal with b : bool |- _ => destruct b end; reflexivity).
  unfold SF64sub, SFsub.
  pose proof (@valid_finite sx mx ex Vx) as (Hx & _).
  pose proof (@valid_finite sy my ey Vy) as (Hy & _).
  rewrite binary_normalize_ltb_zero by lia.
  rewrite !shl_align_value by lia.
  unfold SFltb. cbn [SFcompare].
  pose proof (@magnitude_compare sx sy mx my ex ey Vx Vy) as Hc.
  replace (match ex ?= ey with
           | Eq => CompOpp (Pos.compare_cont Eq mx my)
           | Lt => Gt
           | Gt => Lt
           end)
    with (CompOpp (match ex ?= ey with
                   | Eq => Pos.compare_cont Eq mx my
                   | Lt => Lt
                   | Gt => Gt
                   end)) by (now destruct (ex ?= ey)).
  rewrite Hc. clear Hc.
  set (a := Zpos mx * 2 ^ (ex - Z.min ex ey)).
  set (b := Zpos my * 2 ^ (ey - Z.min ex ey)).
  assert (0 < a) by (apply Z.mul_pos_pos; [lia|apply Z.pow_pos_nonneg; lia]).
  assert (0 < b) by (apply Z.mul_pos_pos; [lia|apply Z.pow_pos_nonneg; lia]).
  destruct sx, sy; cbn [cond_Zopp]; destruct (a ?= b) eqn:E; cbn [CompOpp];
    try (apply Z.compare_eq in E); try (rewrite Z.compare_lt_iff in E);
    try (rewrite Z.compare_gt_iff in E);
    try (apply Z.ltb_lt; lia); try (apply Z.ltb_ge; lia).
Qed.

Lemma not_nan_SF (x : float) : is_nan x = false -> Prim2SF x <> S754_nan.
Proof. rewrite is_nan_SF. destruct (Prim2SF x); congruence. Qed.

Lemma sub_ltb_zero (x y : float) :
  is_nan x = false -> is_nan y = false ->
  (x - y <? 0)%float = (x <? y)%float.
Proof.
  intros Hx Hy. rewrite !ltb_spec, sub_spec, Prim2SF_zero.
  apply SFsub_ltb_zero; auto using Prim2SF_valid, not_nan_SF.
Qed.

Lemma SFcompare_Eq (x y : spec_float) :
  SFcompare x y = Some Eq -> SFcompare y x = Some Eq.
Proof.
  destruct x as [sx|sx| |sx mx ex], y as [sy|sy| |sy my ey]; cbn;
    try discriminate;
    try (repeat match goal with b : bool |- _ => destruct b end;
         cbn; congruence).
  replace (ey ?= ex) with (CompOpp (ex ?= ey))
    by (symmetry; apply Z.compare_antisym).
  replace (Pos.compare_cont Eq my mx) with (CompOpp (Pos.compare_cont Eq mx my))
    by (rewrite Pos.compare_cont_antisym; reflexivity).
  destruct sx, sy; cbn; try congruence;
    destruct (ex ?= ey); cbn; try congruence;
    destruct (Pos.compare_cont Eq mx my); cbn; congruence.
Qed.

(** Between two numbers, if not [x < y] then [y <= x]. *)
Lemma ltb_false_leb (x y : float) :
  is_nan x = false -> is_nan y = false ->
  (x <? y)%float = false -> (y <=? x)%float = true.
Proof.
  intros Hx Hy. apply not_nan_SF in Hx, Hy.
  rewrite leb_spec, ltb_spec. unfold SFleb, SFltb.
  destruct (SFcompare (Prim2SF x) (Prim2SF y)) as [[| |]|] eqn:E; try discriminate;
    intros _.
  - now rewrite (SFcompare_Eq _ _ E).
  - now rewrite (SFcompare_Gt _ _ E).
  - destruct (Prim2SF x), (Prim2SF y); cbn in E; try discriminate; congruence.
Qed.

Lemma ltb_leb (x y : float) : (x <? y)%float = true -> (x <=? y)%float = true.
Proof.
  rewrite leb_spec, ltb_spec. unfold SFleb, SFltb.
  now destruct (SFcompare (Prim2SF x) (Prim2SF y)) as [[| |]|].
Qed.

(** ** The noise state *)

(** [seed] overwrites the whole table: the state it leaves depends on the
    seed only. *)
Lemma seed_overwrites (s : Z) (st1 st2 : Noise.State) :
  Noise.wf st1 -> Noise.wf st2 -> Noise.seed s st1 = Noise.seed s st2.
Proof.
  unfold Noise.wf, Noise.seed; intros H1 H2.
  generalize (Noise.shuffled s); intros p.
  pose proof (overwrite_all
    (fun i => Noise.get p (Z.land (Z.of_nat i) 255))) as H.
  pose proof (H (Noise.perm st1)) as E1. pose proof (H (Noise.perm st2)) as E2.
  rewrite H1 in E1. rewrite H2 in E2.
  cbv zeta. f_equal. exact (eq_trans E1 (eq_sym E2)).
Qed.

Lemma fold_set_length (g : nat -> Z) (l : list nat) (p : list Z) :
  length (fold_left (fun perm i => Noise.set perm i (g i)) l p) = length p.
Proof.
  revert p; induction l as [|i l IH]; intros p; cbn [fold_left]; [reflexivity|].
  now rewrite IH, set_length.
Qed.

Lemma seed_wf (s : Z) (st : Noise.State) : Noise.wf st -> Noise.wf (Noise.seed s st).
Proof.
  unfold Noise.wf, Noise.seed; intros H. cbv zeta. cbn [Noise.perm].
  now rewrite fold_set_length.
Qed.

Lemma seed_seeded (s : Z) (st : Noise.State) : Noise.seeded (Noise.seed s st) = true.
Proof. reflexivity. Qed.

(** The lazy seeding is idempotent: after it, the table is the one every
    later read sees. *)
Lemma ensureSeeded_idem (st : Noise.State) :
  Noise.ensureSeeded (Noise.ensureSeeded st) = Noise.ensureSeeded st.
Proof.
  unfold Noise.ensureSeeded. destruct (Noise.seeded st) eqn:E.
  - now rewrite E.
  - now rewrite seed_seeded.
Qed.

Lemma simplex3_ensureSeeded (st : Noise.State) (x y z : float) :
  Noise.simplex3 (Noise.ensureSeeded st) x y z = Noise.simplex3 st x y z.
Proof. unfold Noise.simplex3. now rewrite ensureSeeded_idem. Qed.

(** ** The curl field *)

(** C7.  [curl3] is the discrete curl, with epsilon 0.001, of the vector
    potential [fbm3vec] under the same options: its components are
    dNz/dy - dNy/dz, dNx/dz - dNz/dx and dNy/dx - dNx/dy, every partial
    derivative the central difference of a channel of [fbm3vec], and the
    channels are [fbm3] at the offsets [fbm3vec] uses. *)
Theorem curl3_is_discrete_curl (st : Noise.State) (x y z : float) (opts : Noise.Opts) :
  let N := fun x y z => Noise.fbm3vec st x y z opts in
  let Nx := fun x y z => px (N x y z) in
  let Ny := fun x y z => py (N x y z) in
  let Nz := fun x y z => pz (N x y z) in
  Noise.curl3 st x y z opts = Spec.discreteCurl 0.001 N x y z
  /\ px (Noise.curl3 st x y z opts)
     = (Spec.ddy 0.001 Nz x y z - Spec.ddz 0.001 Ny x y z)%float
  /\ py (Noise.curl3 st x y z opts)
     = (Spec.ddz 0.001 Nx x y z - Spec.ddx 0.001 Nz x y z)%float
  /\ pz (Noise.curl3 st x y z opts)
     = (Spec.ddx 0.001 Ny x y z - Spec.ddy 0.001 Nx x y z)%float
  /\ (forall x y z,
        Nx x y z = Noise.fbm3 st x y z opts
        /\ Ny x y z = Noise.fbm3 st (x + 31.416) (y + 47.853) (z + 12.679) opts
        /\ Nz x y z = Noise.fbm3 st (x + 74.205) (y + 13.842) (z + 56.917) opts).
Proof.
  cbv zeta. split; [reflexivity|].
  unfold Noise.curl3, Spec.ddx, Spec.ddy, Spec.ddz, Noise.fbm3vec.
  cbn [px py pz]. repeat split; reflexivity.
Qed.

(** ** Examples of the generator and the noise table *)

(** The first two draws of the generator seeded with 42. *)
Example mulberry32_draws :
  let '(d1, a1) := Prng.next (Prng.mulberry32 42) in
  let '(d2, _) := Prng.next a1 in
  (d1, d2) = (0.6011037519201636, 0.44829055899754167)%float.
Proof. vm_compute. reflexivity. Qed.

(** The head of the permutation table after [seed(42)]. *)
Example seed_42_table :
  firstn 8 (Noise.perm (Noise.seed 42 Noise.initial)) = [79; 208; 113; 244; 223; 165; 38; 9].
Proof. vm_compute. reflexivity. Qed.

(** Simplex noise vanishes at the origin, whatever the table. *)
Example simplex3_origin : Noise.simplex3 Examples.used 0 0 0 = 0%float.
Proof. vm_compute. reflexivity. Qed.

(** ** Marsaglia's loop terminates *)

Lemma u32_add_l (a b : Z) : Prng.u32 (Prng.u32 a + b) = Prng.u32 (a + b).
Proof. unfold Prng.u32. apply Zplus_mod_idemp_l. Qed.

Lemma next_state (a : Prng.state) : snd (Prng.next a) = Prng.u32 (a + Prng.increment).
Proof. reflexivity. Qed.

Lemma next_u32 (a : Prng.state) : Prng.next (Prng.u32 a) = Prng.next a.
Proof. unfold Prng.next. now rewrite u32_add_l. Qed.

Lemma marsagliaStep_u32 (a : Prng.state) :
  Generate.marsagliaStep (Prng.u32 a) = Generate.marsagliaStep a.
Proof. unfold Generate.marsagliaStep. now rewrite next_u32. Qed.

(** A rejected round leaves the generator two increments further. *)
Lemma marsagliaStep_rejected (a a' : Prng.state) :
  Generate.marsagliaStep a = inl a' -> a' = Prng.u32 (a + 2 * Prng.increment).
Proof.
  unfold Generate.marsagliaStep.
  destruct (Prng.next a) as [r1 a1] eqn:E1.
  destruct (Prng.next a1) as [r2 a2] eqn:E2.
  pose proof (next_state a) as S1. rewrite E1 in S1. cbn [snd] in S1.
  pose proof (next_state a1) as S2. rewrite E2 in S2. cbn [snd] in S2.
  match goal with |- context [if ?c then _ else _] => destruct c end;
    intros H; inversion H; subst.
  rewrite u32_add_l. f_equal. lia.
Qed.

(** If some round within the bound accepts, the loop answers. *)
Lemma rounds_answer (n : nat) :
  forall a : Prng.state,
    (exists k r, (k < n)%nat
       /\ Generate.marsagliaStep (Prng.u32 (a + 2 * Z.of_nat k * Prng.increment)) = inr r) ->
    exists r, repeatUntilN n Generate.marsagliaStep a = inr r.
Proof.
  induction n as [|n IH]; intros a (k & r & Hk & Hr); [lia|].
  cbn [repeatUntilN].
  destruct (Generate.marsagliaStep a) as [a'|r'] eqn:E; [|now exists r'].
  apply marsagliaStep_rejected in E as Ha'.
  destruct k as [|k].
  - replace (a + 2 * Z.of_nat 0 * Prng.increment) with a in Hr by lia.
    rewrite marsagliaStep_u32 in Hr. congruence.
  - apply IH. exists k, r. split; [lia|].
    subst a'. rewrite u32_add_l.
    replace (a + 2 * Prng.increment + 2 * Z.of_nat k * Prng.increment)
      with (a + 2 * Z.of_nat (S k) * Prng.increment) by lia.
    exact Hr.
Qed.

(** Two accepting states, one of each parity. *)
Lemma accepts_even : exists r, Generate.marsagliaStep 2 = inr r.
Proof. eexists. vm_compute. reflexivity. Qed.

Lemma accepts_odd : exists r, Generate.marsagliaStep 5 = inr r.
Proof. eexists. vm_compute. reflexivity. Qed.

(** The increment is odd, so stepping by twice the increment visits every
    state of the parity of the start within 2^31 rounds. *)
Lemma reach (a b m : Z) :
  b - a = 2 * m -> 0 <= b < 2 ^ 32 ->
  exists k, 0 <= k < 2 ^ 31 /\ Prng.u32 (a + 2 * k * Prng.increment) = b.
Proof.
  intros Hm Hb.
  set (inv := 3696798301).
  exists ((inv * m) mod 2 ^ 31). split; [apply Z.mod_pos_bound; lia|].
  pose proof (Z.div_mod (inv * m) (2 ^ 31) ltac:(lia)) as Hq.
  set (q := (inv * m) / 2 ^ 31) in *.
  set (k := (inv * m) mod 2 ^ 31) in *.
  replace (a + 2 * k * Prng.increment)
    with (b + (2 * m * 1576479847 - Prng.increment * q) * 2 ^ 32).
  - unfold Prng.u32. rewrite Z_mod_plus_full. apply Z.mod_small. exact Hb.
  - assert (Hk : k = inv * m - 2 ^ 31 * q) by lia.
    rewrite Hk. unfold inv, Prng.increment.
    replace b with (a + 2 * m) by lia. ring.
Qed.

Lemma some_round_accepts (a : Prng.state) :
  exists k r, (k < Pos.to_nat 2147483648)%nat
    /\ Generate.marsagliaStep (Prng.u32 (a + 2 * Z.of_nat k * Prng.increment)) = inr r.
Proof.
  assert (H : exists b m r, b - a = 2 * m /\ 0 <= b < 2 ^ 32
                            /\ Generate.marsagliaStep b = inr r).
  { destruct (Z.even a) eqn:E.
    - apply Z.even_spec in E. destruct E as [h Hh].
      destruct accepts_even as [r Hr].
      exists 2, (1 - h), r. split; [lia|split; [lia|exact Hr]].
    - assert (O : Z.odd a = true) by (rewrite <- Z.negb_even, E; reflexivity).
      apply Z.odd_spec in O. destruct O as [h Hh].
      destruct accepts_odd as [r Hr].
      exists 5, (2 - h), r. split; [lia|split; [lia|exact Hr]]. }
  destruct H as (b & m & r & Hm & Hb & Hr).
  destruct (@reach a b m Hm Hb) as (k & Hk & E).
  exists (Z.to_nat k), r. split; [lia|].
  rewrite Z2Nat.id by lia. now rewrite E.
Qed.

(** The do-while loop of Marsaglia's method always answers: the bound of
    its model is never the reason it stops. *)
Lemma marsagliaLoop_total (a : Prng.state) :
  exists r, Generate.marsagliaLoop a = inr r.
Proof.
  unfold Generate.marsagliaLoop. rewrite repeatUntil_unary.
  apply rounds_answer, some_round_accepts.
Qed.

(** ** The samplers stay within their budget *)

Lemma push_oneTrial (l : Generate.Loop) (ok : bool) (p : Point) (r : Prng.state) :
  Generate.attempts (Generate.push l ok p (Generate.attempts l + 1) r)
  = Generate.attempts l + 1
  /\ (length (Generate.points l)
      <= length (Generate.points (Generate.push l ok p (Generate.attempts l + 1) r))
      <= S (length (Generate.points l)))%nat.
Proof.
  unfold Generate.push; cbn [Generate.attempts Generate.points].
  split; [reflexivity|]. destruct ok; [rewrite length_app; cbn [length]|]; lia.
Qed.

Ltac break_pairs :=
  repeat (match goal with
          | |- context [match ?e with pair _ _ => _ end] => destruct e
          end; cbv beta iota).

Lemma ellipsoidBody_oneTrial (M : MathLib) (st : Noise.State) (rx ry rz : float)
    (fill : FillMode) (dp : Params) :
  Spec.oneTrial (Generate.ellipsoidBody M st rx ry rz fill dp).
Proof.
  intros l. unfold Generate.ellipsoidBody. cbv zeta.
  destruct (Generate.marsaglia (Generate.rng l)) as [[[u v] s] r].
  destruct fill; break_pairs; apply push_oneTrial.
Qed.

Lemma torusBody_oneTrial (M : MathLib) (st : Noise.State) (majorR minorR : float)
    (fill : FillMode) (dp : Params) :
  Spec.oneTrial (Generate.torusBody M st majorR minorR fill dp).
Proof.
  intros l. unfold Generate.torusBody. cbv zeta.
  destruct (Prng.next (Generate.rng l)) as [d1 r1].
  destruct (Prng.next r1) as [d2 r2].
  destruct fill; break_pairs; apply push_oneTrial.
Qed.

Lemma sweptBody_oneTrial (M : MathLib) (st : Noise.State) (cs : float) (dp : Params) :
  Spec.oneTrial (Generate.sweptBody M st cs dp).
Proof.
  intros l. unfold Generate.sweptBody. cbv zeta.
  break_pairs; apply push_oneTrial.
Qed.

(** The loop invariant, and the fuel: what is left of the trials. *)
Lemma while_budget (n : Z) (body : Generate.Loop -> Generate.Loop) :
  Spec.oneTrial body ->
  forall (fuel : nat) (l : Generate.Loop),
    0 <= Generate.attempts l <= n * 20 ->
    Z.of_nat (length (Generate.points l)) <= n ->
    n * 20 - Generate.attempts l <= Z.of_nat fuel ->
    let l' := while fuel (Generate.running n (n * 20)) body l in
    0 <= Generate.attempts l' <= n * 20
    /\ Z.of_nat (length (Generate.points l')) <= n
    /\ Generate.running n (n * 20) l' = false.
Proof.
  intros Hbody. induction fuel as [|fuel IH]; intros l Ha Hp Hf; cbn [while].
  - repeat split; try lia. unfold Generate.running.
    replace (Generate.attempts l <? n * 20) with false
      by (symmetry; apply Z.ltb_ge; lia).
    apply andb_false_r.
  - destruct (Generate.running n (n * 20) l) eqn:E.
    + unfold Generate.running in E. apply andb_true_iff in E.
      destruct E as [E1 E2]. apply Z.ltb_lt in E1, E2.
      destruct (Hbody l) as [Hb1 Hb2].
      apply IH; lia.
    + repeat split; try lia. exact E.
Qed.

Lemma running_false (n m : Z) (l : Generate.Loop) :
  Generate.running n m l = false ->
  n <= Z.of_nat (length (Generate.points l)) \/ m <= Generate.attempts l.
Proof.
  unfold Generate.running. intros H. apply andb_false_iff in H.
  destruct H as [H|H]; apply Z.ltb_ge in H; lia.
Qed.

Lemma sampleLoop_budget (n seed : Z) (body : Generate.Loop -> Generate.Loop) :
  0 <= n -> Spec.oneTrial body ->
  Spec.withinBudget n (Generate.sampleLoop n seed body).
Proof.
  intros Hn Hbody. unfold Generate.sampleLoop. cbv zeta.
  assert (H := @while_budget n body Hbody (Z.to_nat (n * 20))
                 (Generate.mkLoop [] 0 (Prng.mulberry32 seed))).
  cbn [Generate.attempts Generate.points length] in H.
  specialize (H ltac:(lia) ltac:(lia) ltac:(lia)). cbv zeta in H.
  destruct H as (Ha & Hp & Hr).
  unfold Spec.withinBudget. split; [lia|]. split; [lia|]. split; [exact Hr|].
  apply running_false in Hr. lia.
Qed.

(** C2 as the specification states it fails in one respect: reaching the
    attempt cap does not imply a short cloud.  The volume torus asked for
    one point with seed 5346, [densityFalloff = 1] and no density noise
    rejects nineteen candidates and accepts the twentieth: the cap of 20
    trials is reached and the cloud has the one point asked for.  (The
    decisions only compare draws with 1 - sqrt(draw).) *)
Lemma cap_reached_counterexample :
  ~ (forall (M : MathLib) (st : Noise.State) (n : Z) (majorR minorR : float)
            (fill : FillMode) (seed : Z) (dp : Params),
        0 <= n ->
        Generate.attempts (Generate.torusRun M st n majorR minorR fill seed dp)
        = 20 * n ->
        Z.of_nat (length (Generate.points
                            (Generate.torusRun M st n majorR minorR fill seed dp)))
        < n).
Proof.
  intros H.
  assert (A : Generate.attempts
                (Generate.torusRun approxMath Examples.used 1 60 20 Volume 5346
                   Examples.falloffOne) = 20 * 1) by (vm_compute; reflexivity).
  assert (B : Z.of_nat (length (Generate.points
                (Generate.torusRun approxMath Examples.used 1 60 20 Volume 5346
                   Examples.falloffOne))) = 1) by (vm_compute; reflexivity).
  specialize (H approxMath Examples.used 1 60%float 20%float Volume 5346
                Examples.falloffOne ltac:(lia) A).
  lia.
Qed.

(** C2 (as the program has it).  For every requested count [n >= 0], every
    sampler (ellipsoid, sphere, torus, swept tube) returns: its outer loop
    leaves its test after at most [20 n] acceptance trials with at most [n]
    points, either with the count met or, the trials exhausted, with the
    fewer points gathered; and the inner rejection loop of the unit-sphere
    draw answers from every generator state. *)
Theorem samplers_within_budget (M : MathLib) (st : Noise.State) (n : Z)
    (rx ry rz radius majorR minorR crossSectionR : float) (fill : FillMode)
    (seed : Z) (dp : Params) :
  0 <= n ->
  (forall a, exists r, Generate.marsagliaLoop a = inr r)
  /\ Spec.withinBudget n (Generate.ellipsoidRun M st n rx ry rz fill seed dp)
  /\ Spec.withinBudget n (Generate.sphereRun M st n radius fill seed dp)
  /\ Spec.withinBudget n (Generate.torusRun M st n majorR minorR fill seed dp)
  /\ Spec.withinBudget n (Generate.sweptRun M st n crossSectionR seed dp)
  /\ Z.of_nat (length (Generate.generateEllipsoid M st n rx ry rz fill seed dp)) <= n
  /\ Z.of_nat (length (Generate.generateSphere M st n radius fill seed dp)) <= n
  /\ Z.of_nat (length (Generate.generateTorus M st n majorR minorR fill seed dp)) <= n
  /\ Z.of_nat (length (Generate.generateSweptCurve M st n crossSectionR seed dp)) <= n.
Proof.
  intros Hn.
  assert (He : forall rx ry rz,
             Spec.withinBudget n (Generate.ellipsoidRun M st n rx ry rz fill seed dp)).
  { intros. apply sampleLoop_budget; [exact Hn|apply ellipsoidBody_oneTrial]. }
  assert (Ht : Spec.withinBudget n (Generate.torusRun M st n majorR minorR fill seed dp)).
  { apply sampleLoop_budget; [exact Hn|apply torusBody_oneTrial]. }
  assert (Hs : Spec.withinBudget n (Generate.sweptRun M st n crossSectionR seed dp)).
  { apply sampleLoop_budget; [exact Hn|apply sweptBody_oneTrial]. }
  split; [exact marsagliaLoop_total|].
  split; [apply He|]. split; [apply He|]. split; [exact Ht|]. split; [exact Hs|].
  split; [apply (He rx ry rz)|]. split; [apply (He radius radius radius)|].
  split; [apply Ht|apply Hs].
Qed.

Lemma samplers_within_budget_witness :
  0 <= 12
  /\ Spec.withinBudget 12
       (Generate.ellipsoidRun approxMath Examples.used 12 40 30 100 Volume 42
          Examples.params).
Proof.
  assert (H : 0 <= 12) by lia.
  split; [exact H|].
  exact (proj1 (proj2 (samplers_within_budget approxMath Examples.used 12
                         40 30 100 40 60 20 15 Volume 42 Examples.params H))).
Defined.

(** ** Density acceptance *)


(** ** The deformer stack *)

Lemma noiseDisplace_length (st : Noise.State) (pts : list Point)
    (o : Deformers.DisplaceOpts) :
  length (Deformers.noiseDisplace st pts o) = length pts.
Proof. unfold Deformers.noiseDisplace. apply length_map. Qed.

Lemma twist_length (M : MathLib) (pts : list Point) (amount : float) (axis : Axis) :
  length (Deformers.twist M pts amount axis) = length pts.
Proof. unfold Deformers.twist. apply length_map. Qed.

Lemma taper_length (pts : list Point) (s e : float) (axis : Axis) :
  length (Deformers.taper pts s e axis) = length pts.
Proof. unfold Deformers.taper. apply length_map. Qed.

Lemma bend_length (M : MathLib) (pts : list Point) (angle : float) (axis : Axis) :
  length (Deformers.bend M pts angle axis) = length pts.
Proof.
  unfold Deformers.bend. destruct (abs angle <? 0.001)%float; [reflexivity|].
  apply length_map.
Qed.

Lemma wave_length (M : MathLib) (pts : list Point) (freq amp : float) (axis : Axis)
    (phase : float) :
  length (Deformers.wave M pts freq amp axis phase) = length pts.
Proof. unfold Deformers.wave. apply length_map. Qed.

Lemma pointwise_refl (pts : list Point) : Spec.pointwise pts pts.
Proof. exists (fun p => p). now rewrite map_id. Qed.

Lemma pointwise_trans (a b c : list Point) :
  Spec.pointwise a b -> Spec.pointwise b c -> Spec.pointwise a c.
Proof.
  intros [g ->] [h ->]. exists (fun p => h (g p)). now rewrite map_map.
Qed.

Lemma pointwise_length (pts out : list Point) :
  Spec.pointwise pts out -> length out = length pts.
Proof. intros [g ->]. apply length_map. Qed.

Lemma stages_pointwise (M : MathLib) (st : Noise.State) (params : Params)
    (pts : list Point) :
  Spec.pointwise pts (Deformers.smoothStage st params pts)
  /\ Spec.pointwise pts (Deformers.noiseStage st params pts)
  /\ Spec.pointwise pts (Deformers.twistStage M params pts)
  /\ Spec.pointwise pts (Deformers.taperStage params pts)
  /\ Spec.pointwise pts (Deformers.bendStage M params pts)
  /\ Spec.pointwise pts (Deformers.waveStage M params pts).
Proof.
  repeat split.
  - unfold Deformers.smoothStage.
    destruct (smoothEnabled params && (0 <? smoothAmp params)%float);
      [eexists; reflexivity|apply pointwise_refl].
  - unfold Deformers.noiseStage.
    destruct (0 <? noiseAmp params)%float;
      [eexists; reflexivity|apply pointwise_refl].
  - unfold Deformers.twistStage.
    destruct (twistEnabled params); [eexists; reflexivity|apply pointwise_refl].
  - unfold Deformers.taperStage.
    destruct (taperEnabled params); [eexists; reflexivity|apply pointwise_refl].
  - unfold Deformers.bendStage, Deformers.bend.
    destruct (bendEnabled params); [|apply pointwise_refl].
    cbv zeta. destruct (abs (bendAngle params) <? 0.001)%float;
      [apply pointwise_refl|eexists; reflexivity].
  - unfold Deformers.waveStage.
    destruct (waveEnabled params); [eexists; reflexivity|apply pointwise_refl].
Qed.

(** C10.  Every deformer stage (pre-smoothing displacement, primary noise
    displacement, twist, taper, bend, wave), whether or not its guard lets
    it run, returns as many points as it was given, and so does the whole
    stack [applyDeformers]; each output is the input mapped point by point,
    in order: deformation neither drops, adds nor reorders points. *)
Theorem deformers_preserve_length (M : MathLib) (st : Noise.State)
    (params : Params) (pts : list Point) :
  length (Deformers.smoothStage st params pts) = length pts
  /\ length (Deformers.noiseStage st params pts) = length pts
  /\ length (Deformers.twistStage M params pts) = length pts
  /\ length (Deformers.taperStage params pts) = length pts
  /\ length (Deformers.bendStage M params pts) = length pts
  /\ length (Deformers.waveStage M params pts) = length pts
  /\ length (fst (Deformers.applyDeformers M st pts params)) = length pts
  /\ exists g : Point -> Point,
       fst (Deformers.applyDeformers M st pts params) = map g pts.
Proof.
  assert (P : forall st pts,
             Spec.pointwise pts (fst (Deformers.applyDeformers M st pts params))).
  { intros st' l. unfold Deformers.applyDeformers. cbv zeta. cbn [fst].
    set (s0 := Noise.seed (seed params) st').
    pose proof (stages_pointwise M s0 params l) as (H1 & _).
    pose proof (stages_pointwise M s0 params (Deformers.smoothStage s0 params l))
      as (_ & H2 & _).
    set (l2 := Deformers.noiseStage s0 params (Deformers.smoothStage s0 params l)) in *.
    pose proof (stages_pointwise M s0 params l2) as (_ & _ & H3 & _).
    set (l3 := Deformers.twistStage M params l2) in *.
    pose proof (stages_pointwise M s0 params l3) as (_ & _ & _ & H4 & _).
    set (l4 := Deformers.taperStage params l3) in *.
    pose proof (stages_pointwise M s0 params l4) as (_ & _ & _ & _ & H5 & _).
    set (l5 := Deformers.bendStage M params l4) in *.
    pose proof (stages_pointwise M s0 params l5) as (_ & _ & _ & _ & _ & H6).
    apply pointwise_trans with l5; [|exact H6].
    apply pointwise_trans with l4; [|exact H5].
    apply pointwise_trans with l3; [|exact H4].
    apply pointwise_trans with l2; [|exact H3].
    apply pointwise_trans with (Deformers.smoothStage s0 params l); assumption. }
  pose proof (stages_pointwise M st params pts) as (H1 & H2 & H3 & H4 & H5 & H6).
  repeat split; try (now apply pointwise_length).
  apply P.
Qed.

(** C6.  For every cloud, axis and bend angle of absolute value below
    0.001, [bend] returns the input points unchanged; the radius
    [len / angle] is only computed past that guard. *)
Theorem bend_identity (M : MathLib) (pts : list Point) (angle : float) (axis : Axis) :
  (abs angle <? 0.001)%float = true ->
  Deformers.bend M pts angle axis = pts.
Proof. intros H. unfold Deformers.bend. now rewrite H. Qed.

Lemma bend_identity_witness :
  (abs 0.0005 <? 0.001)%float = true
  /\ Deformers.bend approxMath [mkPoint 1 2 3; mkPoint (-4) 5 6] 0.0005 AxisX
     = [mkPoint 1 2 3; mkPoint (-4) 5 6].
Proof.
  split; [reflexivity|]. apply bend_identity. reflexivity.
Defined.

(** ** The projection *)

Lemma insertBy_In {A : Type} (cmp : A -> A -> float) (a x : A) (l : list A) :
  In x (Projection.insertBy cmp a l) <-> x = a \/ In x l.
Proof.
  induction l as [|b r IH]; cbn.
  - intuition.
  - destruct (cmp b a <? 0)%float; cbn; rewrite ?IH; intuition.
Qed.

Lemma sortBy_In {A : Type} (cmp : A -> A -> float) (x : A) (l : list A) :
  In x (Projection.sortBy cmp l) <-> In x l.
Proof.
  unfold Projection.sortBy. induction l as [|a l IH]; cbn; [tauto|].
  rewrite insertBy_In, IH. intuition.
Qed.

Lemma darkBand_In (params : Params) (birds : list Projection.Bird)
    (b : Projection.Bird) :
  In b (Projection.darkBand params birds) <->
  exists b1 d, In b1 birds /\ b = Projection.setDensity b1 d
    /\ In (Projection.setDensity b1 d) (Projection.darkBand params birds).
Proof.
  split.
  - intros H. pose proof H as H0. unfold Projection.darkBand in H.
    destruct (darkBandEnabled params).
    + cbv zeta in H. apply in_map_iff in H. destruct H as (b1 & E & Hin).
      destruct (Projection.cellOf _ b1) as [col row].
      destruct (Projection.inGrid _ _ col row);
        subst b; eexists b1, _; repeat split; eauto.
    + apply in_map_iff in H. destruct H as (b1 & E & Hin).
      subst b; eexists b1, _; repeat split; eauto.
  - intros (b1 & d & _ & E & H). now subst.
Qed.

(** Every primitive of the output is a primitive of the first loop, shaded
    against the depth range of the batch and given its density. *)
Lemma projectScene_In (M : MathLib) (st : Noise.State) (pts : list Point)
    (params : Params) (b : Projection.Bird) :
  In b (Projection.projectScene M st pts params) ->
  exists b0 d,
    In b0 (Projection.collect M st params 0 pts)
    /\ b = Projection.setDensity
             (Projection.shade M params
                (fst (Projection.depthRange (Projection.collect M st params 0 pts)))
                (JS.orElse
                   (snd (Projection.depthRange (Projection.collect M st params 0 pts))
                    - fst (Projection.depthRange (Projection.collect M st params 0 pts)))
                   1)
                b0) d.
Proof.
  unfold Projection.projectScene. cbv zeta.
  destruct (Projection.collect M st params 0 pts) as [|c cs] eqn:E; [intros []|].
  destruct (Projection.depthRange (c :: cs)) as [minZ maxZ]. cbn [fst snd].
  intros H. apply sortBy_In in H. apply darkBand_In in H.
  destruct H as (b1 & d & H1 & Hb & _).
  apply in_map_iff in H1. destruct H1 as (b0 & Hs & Hin).
  exists b0, d. split; [exact Hin|]. now subst.
Qed.

(** Every primitive of the first loop comes from a point of the cloud. *)
Lemma collect_In (M : MathLib) (st : Noise.State) (params : Params)
    (pts : list Point) :
  forall (i : Z) (b0 : Projection.Bird),
    In b0 (Projection.collect M st params i pts) ->
    exists (k : nat) (p : Point),
      nth_error pts k = Some p
      /\ Projection.projectPoint M st params (i + Z.of_nat k) p = Some b0.
Proof.
  induction pts as [|p rest IH]; intros i b0 H; cbn [Projection.collect] in H.
  - destruct H.
  - destruct (Projection.projectPoint M st params i p) as [b|] eqn:E.
    + destruct H as [H|H].
      * subst. exists 0%nat, p. split; [reflexivity|].
        now replace (i + Z.of_nat 0) with i by lia.
      * destruct (IH _ _ H) as (k & q & Hk & Hq).
        exists (S k), q. split; [exact Hk|].
        now replace (i + Z.of_nat (S k)) with (i + 1 + Z.of_nat k) by lia.
    + destruct (IH _ _ H) as (k & q & Hk & Hq).
      exists (S k), q. split; [exact Hk|].
      now replace (i + Z.of_nat (S k)) with (i + 1 + Z.of_nat k) by lia.
Qed.

(** What the first loop records for a point it keeps. *)
Lemma projectPoint_Some (M : MathLib) (st : Noise.State) (params : Params)
    (i : Z) (p : Point) (b : Projection.Bird) :
  Projection.projectPoint M st params i p = Some b ->
  Projection.depth b = pz (Projection.rotateCam M params p)
  /\ Projection.poseIndex b = Projection.poseIndexAt st params p
  /\ match projType params with
     | Perspective =>
         (pz (Projection.rotateCam M params p) + Projection.camDist <=? 0.1)%float = false
         /\ Projection.perspScale b
            = (camFOV params
               / (pz (Projection.rotateCam M params p) + Projection.camDist))%float
     | Ortho => Projection.perspScale b = 1%float
     end.
Proof.
  unfold Projection.projectPoint. cbv zeta.
  destruct (projType params).
  - destruct (pz (Projection.rotateCam M params p) + Projection.camDist <=? 0.1)%float
      eqn:E; [discriminate|].
    intros H; inversion H; subst; cbn. auto.
  - intros H; inversion H; subst; cbn. auto.
Qed.

Lemma shade_keeps (M : MathLib) (params : Params) (minZ zRange d : float)
    (b0 : Projection.Bird) :
  let b := Projection.setDensity (Projection.shade M params minZ zRange b0) d in
  Projection.depth b = Projection.depth b0
  /\ Projection.perspScale b = Projection.perspScale b0
  /\ Projection.poseIndex b = Projection.poseIndex b0
  /\ Projection.opacity b
     = (depthOpacity params
        + (1 - depthOpacity params)
          * pow M ((Projection.depth b0 - minZ) / zRange)
                  (JS.orElse (depthOpacityCurve params) 1.0))%float.
Proof. cbn. auto. Qed.

(** C4.  In perspective mode a point whose rotated z plus the camera
    distance 300 is at most 0.1 produces no primitive.  A point that
    produces one has not passed that test, has the screen scale
    [camFOV / depth], and, its depth being a number, has depth above 0.1;
    the same holds of every primitive [projectScene] returns. *)
Theorem perspective_culling (M : MathLib) (st : Noise.State) (params : Params)
    (pts : list Point) (i : Z) (p : Point) :
  projType params = Perspective ->
  let d := (pz (Projection.rotateCam M params p) + Projection.camDist)%float in
  ((d <=? 0.1)%float = true -> Projection.projectPoint M st params i p = None)
  /\ (forall b, Projection.projectPoint M st params i p = Some b ->
        (d <=? 0.1)%float = false
        /\ Projection.perspScale b = (camFOV params / d)%float
        /\ (is_nan d = false -> (0.1 <? d)%float = true))
  /\ (forall b, In b (Projection.projectScene M st pts params) ->
        let db := (Projection.depth b + Projection.camDist)%float in
        (db <=? 0.1)%float = false
        /\ Projection.perspScale b = (camFOV params / db)%float
        /\ (is_nan db = false -> (0.1 <? db)%float = true)).
Proof.
  intros Hp d.
  assert (Hpoint : forall i p b,
             Projection.projectPoint M st params i p = Some b ->
             let d := (pz (Projection.rotateCam M params p) + Projection.camDist)%float in
             Projection.depth b = pz (Projection.rotateCam M params p)
             /\ (d <=? 0.1)%float = false
             /\ Projection.perspScale b = (camFOV params / d)%float
             /\ (is_nan d = false -> (0.1 <? d)%float = true)).
  { intros i' p' b H. apply projectPoint_Some in H. rewrite Hp in H.
    destruct H as (Hd & _ & Hle & Hs). cbv zeta.
    repeat split; auto. intros Hn. now apply leb_false_ltb. }
  split; [|split].
  - intros Hle. unfold Projection.projectPoint. cbv zeta. rewrite Hp.
    fold d. now rewrite Hle.
  - intros b H. now apply Hpoint in H.
  - intros b H. apply projectScene_In in H. destruct H as (b0 & dens & Hin & Hb).
    apply collect_In in Hin. destruct Hin as (k & q & _ & Hq).
    apply Hpoint in Hq. cbv zeta in Hq. destruct Hq as (Hd & Hle & Hs & Hn).
    pose proof (shade_keeps M params
      (fst (Projection.depthRange (Projection.collect M st params 0 pts)))
      (JS.orElse
         (snd (Projection.depthRange (Projection.collect M st params 0 pts))
          - fst (Projection.depthRange (Projection.collect M st params 0 pts))) 1)
      dens b0) as K.
    cbv zeta in K. rewrite <- Hb in K. destruct K as (Kd & Ks & _).
    cbv zeta. rewrite Kd, Ks, Hd. auto.
Qed.

Lemma perspective_culling_witness :
  projType Examples.perspective = Perspective
  /\ Projection.projectPoint approxMath Examples.used Examples.perspective 0
       (mkPoint 0 0 (-1000)) = None.
Proof.
  split; [reflexivity|].
  apply (proj1 (@perspective_culling approxMath Examples.used Examples.perspective
                  Examples.cloud 0 (mkPoint 0 0 (-1000)) eq_refl)).
  vm_compute. reflexivity.
Defined.





(** ** Depth ordering *)

Lemma HdRel_insertBy (R : Projection.Bird -> Projection.Bird -> Prop)
    (a b : Projection.Bird) (l : list Projection.Bird) :
  HdRel R b l -> R b a -> HdRel R b (Projection.insertBy Projection.byDepth a l).
Proof.
  intros Hl Hba. destruct l as [|c r]; cbn [Projection.insertBy].
  - now constructor.
  - destruct (Projection.byDepth c a <? 0)%float; constructor; auto.
    now inversion Hl.
Qed.

Lemma insertBy_sorted (a : Projection.Bird) (l : list Projection.Bird) :
  (forall b, In b (a :: l) -> is_nan (Projection.depth b) = false) ->
  Sorted Spec.depthLe l ->
  Sorted Spec.depthLe (Projection.insertBy Projection.byDepth a l).
Proof.
  induction l as [|b r IH]; intros Hn Hs; cbn [Projection.insertBy].
  - repeat constructor.
  - unfold Projection.byDepth at 1.
    rewrite sub_ltb_zero by (apply Hn; cbn; auto).
    inversion Hs as [|? ? Hr Hb]; subst.
    destruct (Projection.depth b <? Projection.depth a)%float eqn:E.
    + constructor.
      * apply IH; [|exact Hr]. intros c [<-|Hc]; apply Hn; cbn; auto.
      * apply HdRel_insertBy; [exact Hb|]. now apply ltb_leb.
    + constructor; [exact Hs|]. constructor.
      apply ltb_false_leb; auto; apply Hn; cbn; auto.
Qed.

Lemma sortBy_sorted (l : list Projection.Bird) :
  (forall b, In b l -> is_nan (Projection.depth b) = false) ->
  Sorted Spec.depthLe (Projection.sortBy Projection.byDepth l).
Proof.
  unfold Projection.sortBy. induction l as [|a l IH]; intros Hn; cbn.
  - constructor.
  - apply insertBy_sorted.
    + intros b [<-|Hb]; [apply Hn; cbn; auto|].
      apply Hn. right. now apply (sortBy_In Projection.byDepth b l).
    + apply IH. intros b Hb. apply Hn. now right.
Qed.



(** ** Determinism of a full run *)

Ltac break_lets :=
  repeat match goal with
         | |- context [let '(_, _) := ?e in _] => destruct e
         end.

Lemma generateCloud_state (M : MathLib) (st : Noise.State) (params : Params) :
  snd (Generate.generateCloud M st params) = Noise.seed (seed params) st.
Proof.
  unfold Generate.generateCloud. cbv zeta.
  destruct ((subFlocks params =? 0) || (subFlocks params <=? 1)); [reflexivity|].
  break_lets. reflexivity.
Qed.

Lemma generateCloud_indep (M : MathLib) (st1 st2 : Noise.State) (params : Params) :
  Noise.wf st1 -> Noise.wf st2 ->
  Generate.generateCloud M st1 params = Generate.generateCloud M st2 params.
Proof.
  intros H1 H2. unfold Generate.generateCloud.
  now rewrite (seed_overwrites (seed params) st1 st2 H1 H2).
Qed.

Lemma applyDeformers_state (M : MathLib) (st : Noise.State) (pts : list Point)
    (params : Params) :
  snd (Deformers.applyDeformers M st pts params) = Noise.seed (seed params) st.
Proof. reflexivity. Qed.

Lemma regenerate_state (M : MathLib) (st : Noise.State) (params : Params) :
  snd (Main.regenerate M st params)
  = Noise.seed (seed params) (Noise.seed (seed params) st).
Proof.
  unfold Main.regenerate.
  pose proof (generateCloud_state M st params) as Hg.
  destruct (Generate.generateCloud M st params) as [base st']. cbn [snd] in Hg.
  subst st'.
  pose proof (applyDeformers_state M (Noise.seed (seed params) st) base params) as Hd.
  destruct (Deformers.applyDeformers M (Noise.seed (seed params) st) base params)
    as [deformed st'']. cbn [snd] in Hd. now subst st''.
Qed.

Lemma regenerate_indep (M : MathLib) (st1 st2 : Noise.State) (params : Params) :
  Noise.wf st1 -> Noise.wf st2 ->
  Main.regenerate M st1 params = Main.regenerate M st2 params.
Proof.
  intros H1 H2. unfold Main.regenerate.
  now rewrite (generateCloud_indep M st1 st2 params H1 H2).
Qed.

(** C1.  For a fixed seed and configuration, two runs of the full pipeline
    (generate, deform, project) give the same output sequence and leave the
    same noise state, whatever (well-formed) permutation table each run
    starts from: the first run of a fresh page, a run after any other seed,
    or a second run right after the first.  The reseed at the head of
    [generateCloud] and [applyDeformers] overwrites the whole table, the
    cluster generators are created from the seed, and the jitter hash is a
    function of seed and index. *)
Theorem pipeline_deterministic (M : MathLib) (params : Params)
    (st1 st2 : Noise.State) :
  Noise.wf st1 -> Noise.wf st2 ->
  Main.regenerate M st1 params = Main.regenerate M st2 params
  /\ fst (Main.regenerate M (snd (Main.regenerate M st1 params)) params)
     = fst (Main.regenerate M st1 params).
Proof.
  intros H1 H2. split.
  - now apply regenerate_indep.
  - f_equal. apply regenerate_indep; [|exact H1].
    rewrite regenerate_state. now apply seed_wf, seed_wf.
Qed.

Lemma pipeline_deterministic_witness :
  Noise.wf Examples.fresh /\ Noise.wf Examples.used
  /\ Main.regenerate approxMath Examples.fresh Examples.params
     = Main.regenerate approxMath Examples.used Examples.params.
Proof.
  assert (H1 : Noise.wf Examples.fresh) by reflexivity.
  assert (H2 : Noise.wf Examples.used) by (vm_compute; reflexivity).
  split; [exact H1|]. split; [exact H2|].
  exact (proj1 (pipeline_deterministic approxMath Examples.params Examples.fresh
                  Examples.used H1 H2)).
Defined.

(** A full run on the default parameters with 40 birds keeps them all. *)
Example regenerate_40 :
  length (fst (Main.regenerate approxMath Examples.fresh
                 (withCluster Examples.params 40 40 30 100 60 20 15 42))) = 40%nat.
Proof. vm_compute. reflexivity. Qed.

(* ================================================================== *)
(** * Further properties of the program *)

(** ** The generator's period *)

Lemma stateAfter_S (n : nat) (a : Prng.state) :
  Laws.stateAfter (S n) a = Prng.u32 (a + Z.of_nat (S n) * Prng.increment).
Proof.
  induction n as [|n IH].
  - change (Laws.stateAfter 1 a) with (snd (Prng.next a)).
    rewrite next_state. f_equal; lia.
  - change (Laws.stateAfter (S (S n)) a)
      with (snd (Prng.next (Laws.stateAfter (S n) a))).
    rewrite next_state, IH, u32_add_l. f_equal; lia.
Qed.

Lemma u32_eq_divide (x y : Z) : Prng.u32 x = Prng.u32 y -> (2 ^ 32 | x - y).
Proof.
  unfold Prng.u32. intros H.
  exists (x / 2 ^ 32 - y / 2 ^ 32).
  pose proof (Z.div_mod x (2 ^ 32)) as Hx.
  pose proof (Z.div_mod y (2 ^ 32)) as Hy.
  change (2 ^ 32) with 4294967296 in *. lia.
Qed.

Lemma increment_invertible (d : Z) : (2 ^ 32 | d * Prng.increment) -> (2 ^ 32 | d).
Proof.
  intros [q Hq].
  exists (q * 3696798301 - d * 1576479847).
  assert (E : Prng.increment * 3696798301 = 1 + 2 ^ 32 * 1576479847) by reflexivity.
  change (2 ^ 32) with 4294967296 in *. nia.
Qed.

(** X1.  Mulberry32 steps its state by the odd constant 0x6D2B79F5 modulo
    2^32.  After [n + 1] draws from the seed [a] the state is
    [a + (n + 1) * 0x6D2B79F5 mod 2^32]; two states less than 2^32 draws
    apart differ; and the state, hence the stream of draws, comes back after
    exactly 2^32 draws. *)
Theorem mulberry32_period (a : Z) (n : nat) :
  Laws.stateAfter (S n) (Prng.mulberry32 a)
  = Prng.u32 (a + (Z.of_nat n + 1) * Prng.increment)
  /\ (forall m : nat,
        (n < m)%nat -> Z.of_nat m < Z.of_nat n + 2 ^ 32 ->
        Laws.stateAfter (S m) (Prng.mulberry32 a)
        <> Laws.stateAfter (S n) (Prng.mulberry32 a))
  /\ Laws.stateAfter (S n + Z.to_nat (2 ^ 32)) (Prng.mulberry32 a)
     = Laws.stateAfter (S n) (Prng.mulberry32 a)
  /\ Laws.draw (n + Z.to_nat (2 ^ 32)) (Prng.mulberry32 a)
     = Laws.draw n (Prng.mulberry32 a).
Proof.
  unfold Prng.mulberry32.
  assert (P : forall k : nat,
             Laws.stateAfter (S k + Z.to_nat (2 ^ 32)) a = Laws.stateAfter (S k) a).
  { intros k.
    change (S k + Z.to_nat (2 ^ 32))%nat with (S (k + Z.to_nat (2 ^ 32))).
    rewrite !stateAfter_S. unfold Prng.u32.
    replace (a + Z.of_nat (S (k + Z.to_nat (2 ^ 32))) * Prng.increment)
      with (a + Z.of_nat (S k) * Prng.increment + Prng.increment * 2 ^ 32).
    - apply Z.mod_add. discriminate.
    - rewrite !Nat2Z.inj_succ, Nat2Z.inj_add, Z2Nat.id by (apply Z.pow_nonneg; lia).
      ring. }
  repeat split.
  - rewrite stateAfter_S. f_equal; lia.
  - intros m Hnm Hm E. rewrite !stateAfter_S in E.
    apply u32_eq_divide in E.
    replace (a + Z.of_nat (S m) * Prng.increment - (a + Z.of_nat (S n) * Prng.increment))
      with ((Z.of_nat m - Z.of_nat n) * Prng.increment) in E by lia.
    apply increment_invertible in E. destruct E as [q Hq].
    change (2 ^ 32) with 4294967296 in *. lia.
  - apply P.
  - unfold Laws.draw. destruct n as [|n].
    + change (0 + Z.to_nat (2 ^ 32))%nat with (Z.to_nat (2 ^ 32)).
      assert (E : Laws.stateAfter (Z.to_nat (2 ^ 32)) a = Prng.u32 a).
      { replace (Z.to_nat (2 ^ 32)) with (S (Z.to_nat (2 ^ 32 - 1))) by lia.
        rewrite stateAfter_S. unfold Prng.u32.
        replace (a + Z.of_nat (S (Z.to_nat (2 ^ 32 - 1))) * Prng.increment)
          with (a + Prng.increment * 2 ^ 32) by lia.
        apply Z.mod_add. discriminate. }
      rewrite E. change (Laws.stateAfter 0 a) with a. now rewrite next_u32.
    + now rewrite P.
Qed.

(** ** The flock composer *)

Lemma weightsLoop_spec (k : nat) (sizeVar : float) :
  forall (rng : Prng.state) (weights : list float),
    length (fst (Generate.weightsLoop k sizeVar rng weights)) = (length weights + k)%nat
    /\ snd (Generate.weightsLoop k sizeVar rng weights) = Laws.stateAfter k rng.
Proof.
  induction k as [|k IH]; intros rng weights.
  - cbn [Generate.weightsLoop fst snd]. split; [lia | reflexivity].
  - cbn [Generate.weightsLoop].
    destruct (Prng.next rng) as [d rng'] eqn:E.
    destruct (IH rng' (weights ++ [0.3 + (1 - sizeVar) * 0.4 + d * sizeVar * 0.3]%float))
      as [IH1 IH2].
    rewrite IH1, IH2, length_app. cbn [length]. split; [lia|].
    assert (R : rng' = snd (Prng.next rng)) by now rewrite E.
    rewrite R. unfold Laws.stateAfter. now rewrite Nat.iter_succ_r.
Qed.

(** X2.  [distributeCount(total, n, sizeVar, rng)] returns one count per
    sub-flock: [n] counts for [n >= 1] (a single one for [n <= 0], since
    [weights[0]] is always set), and takes [n - 1] draws from the
    generator.  So [counts[f]] is defined for every cluster [f] of
    [generateCloud]'s loop. *)
Theorem distributeCount_length (total : float) (n : Z) (sizeVar : float)
    (rng : Prng.state) :
  length (fst (Generate.distributeCount total n sizeVar rng)) = Z.to_nat (Z.max 1 n)
  /\ snd (Generate.distributeCount total n sizeVar rng)
     = Laws.stateAfter (Z.to_nat (n - 1)) rng
  /\ (forall f : Z, 0 <= f < n ->
        nth_error (fst (Generate.distributeCount total n sizeVar rng)) (Z.to_nat f)
        <> None).
Proof.
  unfold Generate.distributeCount.
  destruct (weightsLoop_spec (Z.to_nat (n - 1)) sizeVar rng [1.0%float]) as [L S].
  destruct (Generate.weightsLoop (Z.to_nat (n - 1)) sizeVar rng [1.0%float])
    as [weights rng'].
  cbn [fst snd] in *. rewrite length_map, L. cbn [length].
  repeat split; [lia | exact S |].
  intros f Hf. apply nth_error_Some. rewrite length_map, L. cbn [length]. lia.
Qed.

Lemma bridgePathLoop_length (M : MathLib) (k : nat) (a b : Point) (tubeR : float) :
  forall (rng : Prng.state) (points : list Point),
    length (fst (Generate.bridgePathLoop M k a b tubeR rng points))
    = (length points + k)%nat.
Proof.
  induction k as [|k IH]; intros rng points.
  - cbn [Generate.bridgePathLoop fst]. lia.
  - cbn [Generate.bridgePathLoop]. break_pairs. rewrite IH, length_app.
    cbn [length]. lia.
Qed.

Lemma bridgeLoop_length (M : MathLib) (perPath : nat) (tubeR : float)
    (paths : list (Point * Point)) :
  forall (rng : Prng.state) (points : list Point),
    length (Generate.bridgeLoop M paths perPath tubeR rng points)
    = (length points + length paths * perPath)%nat.
Proof.
  induction paths as [|[a b] rest IH]; intros rng points.
  - cbn [Generate.bridgeLoop length]. lia.
  - cbn [Generate.bridgeLoop].
    pose proof (bridgePathLoop_length M perPath a b tubeR rng points) as L.
    destruct (Generate.bridgePathLoop M perPath a b tubeR rng points) as [pts rng'].
    cbn [fst] in L. rewrite IH, L. cbn [length]. lia.
Qed.

Lemma consecutive_length (centers : list Point) :
  length (Generate.consecutive centers) = (length centers - 1)%nat.
Proof.
  induction centers as [|a [|b rest] IH]; [reflexivity | reflexivity |].
  change (Generate.consecutive (a :: b :: rest))
    with ((a, b) :: Generate.consecutive (b :: rest)).
  cbn [length] in *. lia.
Qed.

(** X3.  [generateBridgePoints] lays the same number [perPath] of points,
    [floor(count / paths)], along every path, so it returns
    [paths * perPath] points; the paths are the [n - 1] links between
    consecutive centres, closed into a ring of [n] links for three centres
    or more.  With fewer than two centres there is no path and no point
    (the division by zero is never used). *)
Theorem generateBridgePoints_length (M : MathLib) (centers : list Point)
    (count tubeR : float) (seed : Z) :
  let paths := Generate.bridgePaths centers in
  let perPath := Z.to_nat (JS.F2Z (JS.floor (count / JS.Z2F (Z.of_nat (length paths))))) in
  length (Generate.generateBridgePoints M centers count tubeR seed)
  = (length paths * perPath)%nat
  /\ length paths
     = (if (3 <=? length centers)%nat then length centers else length centers - 1)%nat
  /\ ((length centers < 2)%nat ->
      Generate.generateBridgePoints M centers count tubeR seed = []).
Proof.
  cbv zeta. unfold Generate.generateBridgePoints.
  rewrite bridgeLoop_length. cbn [length].
  assert (L : length (Generate.bridgePaths centers)
              = (if (3 <=? length centers)%nat then length centers
                 else length centers - 1)%nat).
  { unfold Generate.bridgePaths. rewrite length_app, consecutive_length.
    destruct (Nat.leb_spec 3 (length centers)) as [H|H].
    - replace (3 <=? Z.of_nat (length centers)) with true
        by (symmetry; apply Z.leb_le; lia).
      cbn [length]. lia.
    - replace (3 <=? Z.of_nat (length centers)) with false
        by (symmetry; apply Z.leb_gt; lia).
      cbn [length]. lia. }
  repeat split; [exact L|].
  intros H.
  assert (E : Generate.bridgePaths centers = []).
  { apply length_zero_iff_nil. rewrite L.
    destruct (Nat.leb_spec 3 (length centers)); lia. }
  rewrite E. reflexivity.
Qed.

(** ** Sampling without rejection *)

Lemma densityAcceptance_off (M : MathLib) (st : Noise.State) (p : Point)
    (dist : float) (fill : FillMode) (dp : Params) (rng : Prng.state) :
  (0 <? densityFalloff dp)%float = false ->
  (0 <? densityNoise dp)%float = false ->
  Generate.densityAcceptance M st p dist fill dp rng = (true, rng).
Proof.
  intros H1 H2. unfold Generate.densityAcceptance.
  rewrite !orElse0_leb, H1, H2. reflexivity.
Qed.

Lemma push_accepting (l : Generate.Loop) (p : Point) (r : Prng.state) :
  Generate.attempts (Generate.push l true p (Generate.attempts l + 1) r)
  = Generate.attempts l + 1
  /\ length (Generate.points (Generate.push l true p (Generate.attempts l + 1) r))
     = S (length (Generate.points l)).
Proof.
  unfold Generate.push. cbn [Generate.attempts Generate.points].
  rewrite length_app. cbn [length]. split; [reflexivity | lia].
Qed.

Lemma ellipsoidBody_accepting (M : MathLib) (st : Noise.State) (rx ry rz : float)
    (fill : FillMode) (dp : Params) :
  (0 <? densityFalloff dp)%float = false ->
  (0 <? densityNoise dp)%float = false ->
  Laws.accepting (Generate.ellipsoidBody M st rx ry rz fill dp).
Proof.
  intros H1 H2 l. unfold Generate.ellipsoidBody.
  destruct (Generate.marsaglia (Generate.rng l)) as [[[u v] s] rng1].
  destruct fill.
  - rewrite densityAcceptance_off by assumption. apply push_accepting.
  - destruct (Prng.next rng1) as [d rng2].
    rewrite densityAcceptance_off by assumption. apply push_accepting.
Qed.

Lemma torusBody_accepting (M : MathLib) (st : Noise.State) (majorR minorR : float)
    (fill : FillMode) (dp : Params) :
  (0 <? densityFalloff dp)%float = false ->
  (0 <? densityNoise dp)%float = false ->
  Laws.accepting (Generate.torusBody M st majorR minorR fill dp).
Proof.
  intros H1 H2 l. unfold Generate.torusBody.
  destruct (Prng.next (Generate.rng l)) as [d1 rng1].
  destruct (Prng.next rng1) as [d2 rng2].
  destruct fill.
  - rewrite densityAcceptance_off by assumption. apply push_accepting.
  - destruct (Prng.next rng2) as [d3 rng3].
    rewrite densityAcceptance_off by assumption. apply push_accepting.
Qed.

Lemma sweptBody_accepting (M : MathLib) (st : Noise.State) (cs : float) (dp : Params) :
  (0 <? densityFalloff dp)%float = false ->
  (0 <? densityNoise dp)%float = false ->
  Laws.accepting (Generate.sweptBody M st cs dp).
Proof.
  intros H1 H2 l. unfold Generate.sweptBody.
  destruct (Prng.next (Generate.rng l)) as [d1 rng1].
  destruct (Generate.frame _) as [right_ realUp].
  destruct (Prng.next rng1) as [d2 rng2].
  destruct (Prng.next rng2) as [d3 rng3].
  rewrite densityAcceptance_off by assumption. apply push_accepting.
Qed.

Lemma while_accepting (n : Z) (body : Generate.Loop -> Generate.Loop) :
  Laws.accepting body ->
  forall (fuel : nat) (l : Generate.Loop),
    Generate.attempts l = Z.of_nat (length (Generate.points l)) ->
    Z.of_nat (length (Generate.points l)) <= n ->
    n - Z.of_nat (length (Generate.points l)) <= Z.of_nat fuel ->
    let l' := while fuel (Generate.running n (n * 20)) body l in
    Z.of_nat (length (Generate.points l')) = n /\ Generate.attempts l' = n.
Proof.
  intros Hb. induction fuel as [|fuel IH]; intros l Ha Hn Hf; cbv zeta.
  - cbn [while]. split; lia.
  - cbn [while].
    destruct (Z.ltb_spec (Z.of_nat (length (Generate.points l))) n) as [Hlt|Hge].
    + assert (R : Generate.running n (n * 20) l = true).
      { unfold Generate.running. apply andb_true_intro. split; apply Z.ltb_lt; lia. }
      rewrite R. destruct (Hb l) as [B1 B2].
      apply IH; rewrite ?B1, ?B2; lia.
    + assert (R : Generate.running n (n * 20) l = false).
      { unfold Generate.running. apply andb_false_intro1. apply Z.ltb_ge. lia. }
      rewrite R. split; lia.
Qed.

Lemma sampleLoop_accepting (n seed : Z) (body : Generate.Loop -> Generate.Loop) :
  0 <= n -> Laws.accepting body ->
  Z.of_nat (length (Generate.points (Generate.sampleLoop n seed body))) = n
  /\ Generate.attempts (Generate.sampleLoop n seed body) = n.
Proof.
  intros Hn Hb. unfold Generate.sampleLoop.
  apply (while_accepting n body Hb); cbn [Generate.attempts Generate.points length]; lia.
Qed.

(** X4.  With both density controls off ([densityFalloff] and
    [densityNoise] not positive) no candidate is rejected: for a requested
    count [n >= 0] each shape sampler returns exactly [n] points, in exactly
    [n] trials. *)
Theorem samplers_without_rejection (M : MathLib) (st : Noise.State) (n : Z)
    (rx ry rz radius majorR minorR crossSectionR : float) (fill : FillMode)
    (seed : Z) (dp : Params) :
  0 <= n ->
  (0 <? densityFalloff dp)%float = false ->
  (0 <? densityNoise dp)%float = false ->
  (Z.of_nat (length (Generate.generateEllipsoid M st n rx ry rz fill seed dp)) = n
   /\ Generate.attempts (Generate.ellipsoidRun M st n rx ry rz fill seed dp) = n)
  /\ (Z.of_nat (length (Generate.generateSphere M st n radius fill seed dp)) = n
      /\ Generate.attempts (Generate.sphereRun M st n radius fill seed dp) = n)
  /\ (Z.of_nat (length (Generate.generateTorus M st n majorR minorR fill seed dp)) = n
      /\ Generate.attempts (Generate.torusRun M st n majorR minorR fill seed dp) = n)
  /\ (Z.of_nat (length (Generate.generateSweptCurve M st n crossSectionR seed dp)) = n
      /\ Generate.attempts (Generate.sweptRun M st n crossSectionR seed dp) = n).
Proof.
  intros Hn H1 H2.
  repeat apply conj;
    try (apply (sampleLoop_accepting n seed); [exact Hn|]);
    first [ apply ellipsoidBody_accepting | apply torusBody_accepting
          | apply sweptBody_accepting ]; assumption.
Qed.

Lemma samplers_without_rejection_witness :
  Z.of_nat (length (Generate.generateTorus approxMath Examples.used 25 60 20 Volume 7
                      Samples.uniform)) = 25.
Proof.
  refine (proj1 (proj1 (proj2 (proj2
    (samplers_without_rejection approxMath Examples.used 25 40 30 100 50 60 20 15
       Volume 7 Samples.uniform _ _ _))))).
  - lia.
  - reflexivity.
  - reflexivity.
Defined.

(** ** The deformers: what each one leaves alone *)

Lemma getBounds_ext (axis : Axis) (l1 l2 : list Point) :
  map (Deformers.getAxisVal axis) l1 = map (Deformers.getAxisVal axis) l2 ->
  Deformers.getBounds axis l1 = Deformers.getBounds axis l2.
Proof.
  unfold Deformers.getBounds.
  generalize (Deformers.mkBounds infinity neg_infinity).
  revert l2. induction l1 as [|p l1 IH]; intros [|q l2] b E; try discriminate.
  - reflexivity.
  - cbn [map] in E. injection E as E1 E2.
    cbn [fold_left]. rewrite E1. now apply IH.
Qed.

Lemma twist_axis (M : MathLib) (pts : list Point) (amount : float) (axis : Axis) :
  map (Deformers.getAxisVal axis) (Deformers.twist M pts amount axis)
  = map (Deformers.getAxisVal axis) pts.
Proof.
  unfold Deformers.twist. rewrite map_map. apply map_ext.
  intros p. destruct axis; reflexivity.
Qed.

Lemma taper_axis (pts : list Point) (s e : float) (axis : Axis) :
  map (Deformers.getAxisVal axis) (Deformers.taper pts s e axis)
  = map (Deformers.getAxisVal axis) pts.
Proof.
  unfold Deformers.taper. rewrite map_map. apply map_ext.
  intros p. destruct axis; reflexivity.
Qed.

(** X5.  [twist] and [taper] never move a point along their axis: the
    coordinate along the axis, and with it the bounds [getBounds] finds,
    are those of the input.  So a taper that follows a twist about the same
    axis scales each point by the factor its position in the original
    cloud gives. *)
Theorem twist_taper_keep_axis (M : MathLib) (pts : list Point)
    (amount startScale endScale : float) (axis : Axis) :
  map (Deformers.getAxisVal axis) (Deformers.twist M pts amount axis)
  = map (Deformers.getAxisVal axis) pts
  /\ map (Deformers.getAxisVal axis) (Deformers.taper pts startScale endScale axis)
     = map (Deformers.getAxisVal axis) pts
  /\ Deformers.getBounds axis (Deformers.twist M pts amount axis)
     = Deformers.getBounds axis pts
  /\ Deformers.getBounds axis (Deformers.taper pts startScale endScale axis)
     = Deformers.getBounds axis pts
  /\ Deformers.taper (Deformers.twist M pts amount axis) startScale endScale axis
     = map (fun p =>
              let b := Deformers.getBounds axis pts in
              let t := ((Deformers.getAxisVal axis p - Deformers.bmin b)
                        / JS.orElse (Deformers.bmax b - Deformers.bmin b) 1)%float in
              Deformers.scalePerp p (startScale + (endScale - startScale) * t) axis)
           (Deformers.twist M pts amount axis).
Proof.
  pose proof (twist_axis M pts amount axis) as T.
  pose proof (taper_axis pts startScale endScale axis) as P.
  repeat split; try assumption.
  - now apply getBounds_ext.
  - now apply getBounds_ext.
  - unfold Deformers.taper at 1.
    now rewrite (getBounds_ext axis _ _ T).
Qed.

(** X6.  [wave] never changes a point's z coordinate, whatever the axis:
    along ['x'] and along ['z'] it displaces y (and keeps x), along ['y']
    it displaces x (and keeps y).  [bend] keeps y when it bends along
    ['x'], and keeps x when it bends along ['y'] or ['z']. *)
Theorem wave_bend_fixed_coordinates (M : MathLib) (pts : list Point)
    (freq amp phase angle : float) (axis : Axis) :
  map pz (Deformers.wave M pts freq amp axis phase) = map pz pts
  /\ match axis with
     | AxisY => map py (Deformers.wave M pts freq amp axis phase) = map py pts
     | _ => map px (Deformers.wave M pts freq amp axis phase) = map px pts
     end
  /\ Deformers.wave M pts freq amp AxisZ phase
     = map (fun p => mkPoint (px p) (py p + amp * sin M (pz p * freq + phase)) (pz p)) pts
  /\ match axis with
     | AxisX => map py (Deformers.bend M pts angle axis) = map py pts
     | _ => map px (Deformers.bend M pts angle axis) = map px pts
     end.
Proof.
  repeat split.
  - unfold Deformers.wave. rewrite map_map. apply map_ext.
    intros p. destruct axis; reflexivity.
  - unfold Deformers.wave. destruct axis; rewrite map_map; apply map_ext;
      intros p; reflexivity.
  - unfold Deformers.bend.
    destruct (abs angle <? 0.001)%float; [destruct axis; reflexivity|].
    destruct axis; rewrite map_map; apply map_ext; intros p; reflexivity.
Qed.


(** ** The projection: what is kept, and what the camera's roll changes *)

Lemma projectPoint_visible (M : MathLib) (st : Noise.State) (params : Params)
    (i : Z) (p : Point) :
  isSome (Projection.projectPoint M st params i p) = Laws.visible M params p.
Proof.
  unfold Projection.projectPoint, Laws.visible. cbv zeta.
  destruct (projType params); [|reflexivity].
  now destruct (pz (Projection.rotateCam M params p) + Projection.camDist <=? 0.1)%float.
Qed.

Lemma collect_length (M : MathLib) (st : Noise.State) (params : Params)
    (pts : list Point) :
  forall i : Z,
    length (Projection.collect M st params i pts)
    = length (filter (Laws.visible M params) pts).
Proof.
  induction pts as [|p rest IH]; intros i; [reflexivity|].
  cbn [Projection.collect filter].
  rewrite <- (projectPoint_visible M st params i p).
  destruct (Projection.projectPoint M st params i p); cbn [isSome length];
    now rewrite IH.
Qed.

Lemma insertBy_perm {A : Type} (cmp : A -> A -> float) (a : A) (l : list A) :
  Permutation (Projection.insertBy cmp a l) (a :: l).
Proof.
  induction l as [|b r IH]; cbn [Projection.insertBy]; [apply Permutation_refl|].
  destruct (cmp b a <? 0)%float; [|apply Permutation_refl].
  apply perm_trans with (b :: a :: r); [now apply perm_skip | apply perm_swap].
Qed.

Lemma sortBy_perm {A : Type} (cmp : A -> A -> float) (l : list A) :
  Permutation (Projection.sortBy cmp l) l.
Proof.
  unfold Projection.sortBy. induction l as [|a l IH]; cbn [fold_right].
  - apply Permutation_refl.
  - apply perm_trans with (a :: fold_right (Projection.insertBy cmp) [] l).
    + apply insertBy_perm.
    + now apply perm_skip.
Qed.

Lemma darkBand_length (params : Params) (birds : list Projection.Bird) :
  length (Projection.darkBand params birds) = length birds.
Proof.
  unfold Projection.darkBand. destruct (darkBandEnabled params); cbv zeta;
    apply length_map.
Qed.

(** X7.  [projectScene] returns one primitive for every point the first
    loop keeps, and sorting only reorders them: the orthographic camera
    keeps every point, the perspective camera exactly the points whose
    distance [z + 300] is not [<= 0.1]; an empty cloud gives an empty
    list. *)
Theorem projectScene_keeps (M : MathLib) (st : Noise.State) (pts : list Point)
    (params : Params) :
  length (Projection.projectScene M st pts params)
  = length (filter (Laws.visible M params) pts)
  /\ (length (Projection.projectScene M st pts params) <= length pts)%nat
  /\ (projType params = Ortho ->
      length (Projection.projectScene M st pts params) = length pts)
  /\ (let birds := Projection.collect M st params 0 pts in
      let minZ := fst (Projection.depthRange birds) in
      let maxZ := snd (Projection.depthRange birds) in
      Permutation (Projection.projectScene M st pts params)
        (Projection.darkBand params
           (map (Projection.shade M params minZ (JS.orElse (maxZ - minZ) 1)) birds)))
  /\ Projection.projectScene M st [] params = [].
Proof.
  assert (P : let birds := Projection.collect M st params 0 pts in
              let minZ := fst (Projection.depthRange birds) in
              let maxZ := snd (Projection.depthRange birds) in
              Permutation (Projection.projectScene M st pts params)
                (Projection.darkBand params
                   (map (Projection.shade M params minZ (JS.orElse (maxZ - minZ) 1))
                        birds))).
  { cbv zeta. unfold Projection.projectScene. cbv zeta.
    destruct (Projection.collect M st params 0 pts) as [|c cs] eqn:E.
    - unfold Projection.darkBand. destruct (darkBandEnabled params); cbv zeta;
        apply Permutation_refl.
    - destruct (Projection.depthRange (c :: cs)) as [minZ maxZ]. cbn [fst snd].
      apply sortBy_perm. }
  assert (L : length (Projection.projectScene M st pts params)
              = length (filter (Laws.visible M params) pts)).
  { cbv zeta in P. rewrite (Permutation_length P), darkBand_length, length_map.
    apply collect_length. }
  repeat split.
  - exact L.
  - rewrite L. apply filter_length_le.
  - intros H. rewrite L. f_equal.
    apply forallb_filter_id. apply forallb_forall. intros p _.
    unfold Laws.visible. now rewrite H.
  - exact P.
Qed.

(** *** The camera's roll *)

Lemma projectPoint_fresh (M : MathLib) (st : Noise.State) (params : Params)
    (i : Z) (p : Point) (b : Projection.Bird) :
  Projection.projectPoint M st params i p = Some b ->
  Projection.scale b = nan /\ Projection.opacity b = nan.
Proof.
  unfold Projection.projectPoint. cbv zeta.
  destruct (projType params).
  - destruct (pz (Projection.rotateCam M params p) + Projection.camDist <=? 0.1)%float;
      [discriminate|].
    intros H; inversion H; subst; cbn. auto.
  - intros H; inversion H; subst; cbn. auto.
Qed.

Lemma roll_depth (M : MathLib) (params : Params) (rx ry rz rz' : float) (p : Point) :
  pz (Projection.rotateCam M (Spec.withCamera params rx ry rz) p)
  = pz (Projection.rotateCam M (Spec.withCamera params rx ry rz') p).
Proof. reflexivity. Qed.

Lemma collect_roll (M : MathLib) (st : Noise.State) (params : Params)
    (rx ry rz rz' : float) (pts : list Point) :
  forall i : Z,
    Forall2 Laws.sameButPlace
      (Projection.collect M st (Spec.withCamera params rx ry rz) i pts)
      (Projection.collect M st (Spec.withCamera params rx ry rz') i pts).
Proof.
  induction pts as [|p rest IH]; intros i; [constructor|].
  cbn [Projection.collect].
  pose proof (projectPoint_visible M st (Spec.withCamera params rx ry rz) i p) as V1.
  pose proof (projectPoint_visible M st (Spec.withCamera params rx ry rz') i p) as V2.
  assert (V : Laws.visible M (Spec.withCamera params rx ry rz) p
              = Laws.visible M (Spec.withCamera params rx ry rz') p) by reflexivity.
  destruct (Projection.projectPoint M st (Spec.withCamera params rx ry rz) i p)
    as [b|] eqn:E1;
    destruct (Projection.projectPoint M st (Spec.withCamera params rx ry rz') i p)
      as [b'|] eqn:E2; cbn [isSome] in V1, V2; try congruence; [|apply IH].
  constructor; [|apply IH].
  destruct (projectPoint_Some _ _ _ _ _ _ E1) as (D1 & P1 & S1).
  destruct (projectPoint_Some _ _ _ _ _ _ E2) as (D2 & P2 & S2).
  destruct (projectPoint_fresh _ _ _ _ _ _ E1) as (F1 & O1).
  destruct (projectPoint_fresh _ _ _ _ _ _ E2) as (F2 & O2).
  assert (T : projType (Spec.withCamera params rx ry rz) = projType params)
    by reflexivity.
  assert (T' : projType (Spec.withCamera params rx ry rz') = projType params)
    by reflexivity.
  rewrite T in S1. rewrite T' in S2.
  repeat split.
  - rewrite D1, D2. apply roll_depth.
  - destruct (projType params).
    + destruct S1 as [_ S1], S2 as [_ S2]. rewrite S1, S2.
      now rewrite (roll_depth M params rx ry rz rz' p).
    + congruence.
  - rewrite P1, P2. reflexivity.
  - congruence.
  - congruence.
Qed.

Lemma depthRange_same (l l' : list Projection.Bird) :
  Forall2 Laws.sameButPlace l l' ->
  Projection.depthRange l = Projection.depthRange l'.
Proof.
  unfold Projection.depthRange. generalize (infinity, neg_infinity).
  intros acc H. revert acc.
  induction H as [|b b' l l' R _ IH]; intros acc; [reflexivity|].
  cbn [fold_left]. destruct R as (D & _). rewrite D. apply IH.
Qed.

Lemma Forall2_map_same (f g : Projection.Bird -> Projection.Bird)
    (l l' : list Projection.Bird) :
  (forall b b', Laws.sameButPlace b b' -> Laws.sameButPlace (f b) (g b')) ->
  Forall2 Laws.sameButPlace l l' ->
  Forall2 Laws.sameButPlace (map f l) (map g l').
Proof.
  intros Hfg H. induction H; cbn [map]; constructor; auto.
Qed.

Lemma setDensity_same (b b' : Projection.Bird) (d d' : float) :
  Laws.sameButPlace b b' ->
  Laws.sameButPlace (Projection.setDensity b d) (Projection.setDensity b' d').
Proof. intros H. exact H. Qed.

Lemma darkBand_same (params params' : Params) (l l' : list Projection.Bird) :
  Forall2 Laws.sameButPlace l l' ->
  Forall2 Laws.sameButPlace (Projection.darkBand params l)
                            (Projection.darkBand params' l').
Proof.
  intros H. unfold Projection.darkBand.
  destruct (darkBandEnabled params), (darkBandEnabled params'); cbv zeta;
    apply Forall2_map_same; try exact H; intros b b' R;
    repeat match goal with
           | |- context [let '(_, _) := ?e in _] => destruct e
           | |- context [if ?c then _ else _] => destruct c
           end; now apply setDensity_same.
Qed.

Lemma insertBy_same (a a' : Projection.Bird) (l l' : list Projection.Bird) :
  Laws.sameButPlace a a' ->
  Forall2 Laws.sameButPlace l l' ->
  Forall2 Laws.sameButPlace (Projection.insertBy Projection.byDepth a l)
                            (Projection.insertBy Projection.byDepth a' l').
Proof.
  intros Ra H. induction H as [|b b' l l' R H IH]; cbn [Projection.insertBy].
  - constructor; [exact Ra | constructor].
  - unfold Projection.byDepth at 1 3.
    destruct R as (D & R'). destruct Ra as (Da & Ra').
    rewrite D, Da.
    destruct (Projection.depth b' - Projection.depth a' <? 0)%float.
    + constructor; [now split | exact IH].
    + constructor; [now split|]. constructor; [now split | exact H].
Qed.

Lemma sortBy_same (l l' : list Projection.Bird) :
  Forall2 Laws.sameButPlace l l' ->
  Forall2 Laws.sameButPlace (Projection.sortBy Projection.byDepth l)
                            (Projection.sortBy Projection.byDepth l').
Proof.
  unfold Projection.sortBy. intros H.
  induction H; cbn [fold_right]; [constructor | now apply insertBy_same].
Qed.

(** X8.  Rolling the camera (changing [camRotZ] alone) changes no
    primitive's depth, perspective scale, scale, opacity or pose, nor its
    place in the back-to-front order: the two outputs agree, position by
    position, on all of these.  Only the screen position, the heading and
    the local density can differ. *)
Theorem camera_roll_keeps_depths (M : MathLib) (st : Noise.State) (pts : list Point)
    (params : Params) (rx ry rz rz' : float) :
  let out := Projection.projectScene M st pts (Spec.withCamera params rx ry rz) in
  let out' := Projection.projectScene M st pts (Spec.withCamera params rx ry rz') in
  Forall2 Laws.sameButPlace out out'
  /\ map Projection.depth out = map Projection.depth out'
  /\ map Projection.scale out = map Projection.scale out'
  /\ map Projection.opacity out = map Projection.opacity out'
  /\ map Projection.poseIndex out = map Projection.poseIndex out'.
Proof.
  cbv zeta.
  assert (F : Forall2 Laws.sameButPlace
                (Projection.projectScene M st pts (Spec.withCamera params rx ry rz))
                (Projection.projectScene M st pts (Spec.withCamera params rx ry rz'))).
  { unfold Projection.projectScene. cbv zeta.
    pose proof (collect_roll M st params rx ry rz rz' pts 0) as C.
    pose proof (depthRange_same _ _ C) as DR.
    destruct C as [|b b' l l' R C]; [constructor|].
    rewrite DR.
    destruct (Projection.depthRange (b' :: l')) as [minZ maxZ].
    apply sortBy_same. apply darkBand_same.
    apply Forall2_map_same; [|now constructor].
    clear. intros b b' (D & P & I & _).
    unfold Laws.sameButPlace, Projection.shade. cbn.
    rewrite D, P, I. repeat split. }
  split; [exact F|].
  induction F as [|b b' l l' (D & P & I & S & O) F IH]; [repeat split|].
  destruct IH as (I1 & I2 & I3 & I4).
  cbn [map]. now rewrite D, I, S, O, I1, I2, I3, I4.
Qed.

(** ** shapes.js: pose keys and the path cache *)

Lemma lookup_mapSet {A : Type} (k k' : String.string) (v : A)
    (l : list (String.string * A)) :
  Shapes.lookup k (Shapes.mapSet k' v l)
  = if String.eqb k k' then Some v else Shapes.lookup k l.
Proof.
  induction l as [|[k2 v2] r IH]; cbn [Shapes.mapSet Shapes.lookup]; [reflexivity|].
  destruct (String.eqb_spec k' k2) as [E|N]; cbn [Shapes.lookup].
  - subst k2. now destruct (String.eqb k k').
  - rewrite IH. destruct (String.eqb_spec k k2) as [E2|N2]; [|reflexivity].
    subst k2. destruct (String.eqb_spec k k'); [congruence | reflexivity].
Qed.

Lemma poseOf_range (v : float) : 0 <= Projection.poseOf v <= 3.
Proof.
  unfold Projection.poseOf.
  destruct (v <? 0.35)%float; [lia|].
  destruct (v <? 0.55)%float; [lia|].
  destruct (v <? 0.75)%float; lia.
Qed.

Lemma poseIndexAt_range (st : Noise.State) (params : Params) (p : Point) :
  0 <= Projection.poseIndexAt st params p <= 3.
Proof.
  unfold Projection.poseIndexAt.
  destruct (poseVariation params && (0 <? poseNoiseFreq params)%float);
    [apply poseOf_range | lia].
Qed.

Lemma pose_key_cases (i : Z) :
  In (Shapes.getPoseShapeKey i) Shapes.POSE_KEYS.
Proof.
  unfold Shapes.getPoseShapeKey.
  destruct (i <? 0); [now left|].
  destruct (Z.to_nat i) as [|[|[|[|n]]]]; cbn; auto.
  destruct n; cbn; auto.
Qed.

Lemma pose_key_in_range (i : Z) :
  0 <= i <= 3 ->
  nth_error Shapes.POSE_KEYS (Z.to_nat i) = Some (Shapes.getPoseShapeKey i).
Proof.
  intros H. unfold Shapes.getPoseShapeKey.
  replace (i <? 0) with false by (symmetry; apply Z.ltb_ge; lia).
  assert (C : i = 0 \/ i = 1 \/ i = 2 \/ i = 3) by lia.
  destruct C as [C|[C|[C|C]]]; subst i; reflexivity.
Qed.

Lemma getPath2D_defined (k : String.string) (s : Shapes.State)
    (shape : Shapes.Shape) (d : String.string) :
  Shapes.lookup k (Shapes.SHAPES s) = Some shape ->
  Shapes.truthy (Shapes.path shape) = Some d ->
  isSome (fst (Shapes.getPath2D k s)) = true.
Proof.
  intros H1 H2. unfold Shapes.getPath2D. rewrite H1, H2.
  destruct (Shapes.lookup k (Shapes.pathCache s)) as [c|] eqn:E; cbn [isSome negb orb].
  - destruct (String.eqb k "custom"); cbn [fst Shapes.pathCache].
    + now rewrite lookup_mapSet, String.eqb_refl.
    + now rewrite E.
  - cbn [fst Shapes.pathCache]. now rewrite lookup_mapSet, String.eqb_refl.
Qed.

(** X9.  Every primitive [projectScene] returns carries a pose index
    from 0 to 3, so [getPoseShapeKey] finds its key in [POSE_KEYS] without
    the ['starling'] fallback.  And whatever index it is given,
    [getPoseShapeKey] names an entry of [SHAPES] that has a path: the
    renderer's [getPosePath2D] is never [null], and the exporter's
    [SHAPES[getPoseShapeKey(i)].path] is always there. *)
Theorem pose_path_defined (M : MathLib) (st : Noise.State) (pts : list Point)
    (params : Params) :
  (forall b, In b (Projection.projectScene M st pts params) ->
     0 <= Projection.poseIndex b <= 3
     /\ nth_error Shapes.POSE_KEYS (Z.to_nat (Projection.poseIndex b))
        = Some (Shapes.getPoseShapeKey (Projection.poseIndex b)))
  /\ (forall (i : Z) (s : Shapes.State),
        exists shape d,
          Shapes.lookup (Shapes.getPoseShapeKey i) (Shapes.SHAPES s) = Some shape
          /\ Shapes.truthy (Shapes.path shape) = Some d
          /\ isSome (fst (Shapes.getPosePath2D i s)) = true).
Proof.
  split.
  - intros b H.
    destruct (projectScene_In _ _ _ _ _ H) as (b0 & d & H0 & Hb).
    destruct (collect_In _ _ _ _ _ _ H0) as (k & q & _ & Hq).
    destruct (projectPoint_Some _ _ _ _ _ _ Hq) as (_ & P & _).
    assert (R : 0 <= Projection.poseIndex b <= 3).
    { subst b. cbn [Projection.poseIndex Projection.setDensity Projection.shade].
      rewrite P. apply poseIndexAt_range. }
    split; [exact R | now apply pose_key_in_range].
  - intros i s.
    assert (E : exists shape d,
               Shapes.lookup (Shapes.getPoseShapeKey i) (Shapes.SHAPES s) = Some shape
               /\ Shapes.truthy (Shapes.path shape) = Some d).
    { pose proof (pose_key_cases i) as C. cbn [Shapes.POSE_KEYS In] in C.
      destruct C as [C|[C|[C|[C|[]]]]]; rewrite <- C; eexists _, _; split;
        reflexivity. }
    destruct E as (shape & d & E1 & E2). exists shape, d.
    repeat split; try assumption.
    unfold Shapes.getPosePath2D. now apply (getPath2D_defined _ _ shape d).
Qed.

Lemma SHAPES_builtin (k : String.string) (s s' : Shapes.State) :
  String.eqb k "custom" = false ->
  Shapes.lookup k (Shapes.SHAPES s) = Shapes.lookup k (Shapes.SHAPES s').
Proof.
  intros H. unfold Shapes.SHAPES. cbn [Shapes.lookup].
  repeat match goal with
         | |- context [String.eqb k ?c] =>
             lazymatch c with
             | "custom"%string => fail
             | _ => destruct (String.eqb k c); [reflexivity|]
             end
         end.
  now rewrite H.
Qed.

Lemma getPath2D_inv (k0 : String.string) (s : Shapes.State) :
  Laws.cacheInv s -> Laws.cacheInv (snd (Shapes.getPath2D k0 s)).
Proof.
  intros I. unfold Shapes.getPath2D.
  destruct (Shapes.lookup k0 (Shapes.SHAPES s)) as [shape0|] eqn:E0; [|exact I].
  destruct (Shapes.truthy (Shapes.path shape0)) as [d0|] eqn:T0; [|exact I].
  destruct (negb (isSome (Shapes.lookup k0 (Shapes.pathCache s)))
            || String.eqb k0 "custom"); [|exact I].
  cbn [snd]. intros k d Hk Hl. cbn [Shapes.pathCache] in Hl.
  rewrite lookup_mapSet in Hl.
  rewrite (SHAPES_builtin k _ s Hk).
  destruct (String.eqb_spec k k0) as [E|N].
  - subst k0. injection Hl as <-. now exists shape0.
  - now apply I.
Qed.

Lemma setCustomShape_inv (d0 : String.string) (f : bool) (s : Shapes.State) :
  Laws.cacheInv s -> Laws.cacheInv (Shapes.setCustomShape d0 f s).
Proof.
  intros I k d Hk Hl. unfold Shapes.setCustomShape in Hl. cbn [Shapes.pathCache] in Hl.
  rewrite lookup_mapSet, Hk in Hl.
  rewrite (SHAPES_builtin k _ s Hk). now apply I.
Qed.

Lemma after_inv (calls : list Shapes.Call) : Laws.cacheInv (Shapes.after calls).
Proof.
  unfold Shapes.after.
  assert (G : forall s, Laws.cacheInv s ->
                Laws.cacheInv (fold_left (fun s c => Shapes.call c s) calls s)).
  { induction calls as [|c calls IH]; intros s I; [exact I|].
    cbn [fold_left]. apply IH. destruct c; cbn [Shapes.call].
    - now apply getPath2D_inv.
    - now apply getPath2D_inv.
    - now apply setCustomShape_inv. }
  apply G. intros k d _ H. discriminate.
Qed.

Lemma getPath2D_current (k : String.string) (s : Shapes.State) :
  Laws.cacheInv s ->
  fst (Shapes.getPath2D k s)
  = match Shapes.lookup k (Shapes.SHAPES s) with
    | Some shape => Shapes.truthy (Shapes.path shape)
    | None => None
    end.
Proof.
  intros I. unfold Shapes.getPath2D.
  destruct (Shapes.lookup k (Shapes.SHAPES s)) as [shape|] eqn:E; [|reflexivity].
  destruct (Shapes.truthy (Shapes.path shape)) as [d|] eqn:T; [|reflexivity].
  destruct (Shapes.lookup k (Shapes.pathCache s)) as [c|] eqn:C; cbn [isSome negb orb].
  - destruct (String.eqb k "custom") eqn:K; cbn [fst Shapes.pathCache].
    + now rewrite lookup_mapSet, String.eqb_refl.
    + rewrite C. destruct (I k c K C) as (shape' & E' & T'). congruence.
  - cbn [fst Shapes.pathCache]. now rewrite lookup_mapSet, String.eqb_refl.
Qed.

(** X10.  The path cache is never stale.  After any sequence of calls to
    [getPath2D], [getPosePath2D] and [setCustomShape] from the state at
    module load, [getPath2D(key)] returns the path object of the shape's
    current path, and [null] exactly when the key has no shape or the shape
    no path; every key that [getAvailableShapeKeys] lists has a path
    object; and once [setCustomShape] has been given a path that is not
    empty, ['custom'] is listed and [getPath2D('custom')] is that path. *)
Theorem path_cache_current (calls : list Shapes.Call) (k : String.string) :
  let s := Shapes.after calls in
  fst (Shapes.getPath2D k s)
  = match Shapes.lookup k (Shapes.SHAPES s) with
    | Some shape => Shapes.truthy (Shapes.path shape)
    | None => None
    end
  /\ (In k (Shapes.getAvailableShapeKeys s) ->
      isSome (fst (Shapes.getPath2D k s)) = true)
  /\ (forall (d : String.string) (f : bool),
        String.eqb d "" = false ->
        let s' := Shapes.after (calls ++ [Shapes.CallSetCustomShape d f]) in
        In "custom"%string (Shapes.getAvailableShapeKeys s')
        /\ fst (Shapes.getPath2D "custom" s') = Some d)
  /\ ~ In "custom"%string (Shapes.getAvailableShapeKeys Shapes.initial).
Proof.
  cbv zeta. pose proof (after_inv calls) as I.
  split; [now apply getPath2D_current|].
  split.
  - intros H. rewrite (getPath2D_current _ _ I).
    unfold Shapes.getAvailableShapeKeys in H. apply filter_In in H.
    destruct H as [H1 H2]. cbn [map fst Shapes.SHAPES In] in H1.
    destruct H1 as [E|[E|[E|[E|[E|[E|[E|[E|[]]]]]]]]]; subst k; try reflexivity.
    cbn in H2. cbn.
    destruct (Shapes.truthy (Shapes.path (Shapes.custom (Shapes.after calls))));
      [reflexivity | discriminate].
  - split.
    + intros d f Hd.
      pose proof (after_inv (calls ++ [Shapes.CallSetCustomShape d f])) as I'.
      rewrite (getPath2D_current _ _ I').
      unfold Shapes.after in *. rewrite fold_left_app. cbn [fold_left Shapes.call].
      set (s := fold_left (fun s c => Shapes.call c s) calls Shapes.initial).
      split.
      * unfold Shapes.getAvailableShapeKeys. apply filter_In. split.
        -- cbn [map fst Shapes.SHAPES In]. do 7 right. now left.
        -- cbn. now rewrite Hd.
      * cbn. now rewrite Hd.
    + cbn. intros H.
      repeat (destruct H as [H|H]; [discriminate|]). exact H.
Qed.

(** ** presets.js: applying a preset *)

Lemma lookup_app {A : Type} (k : String.string) (l1 l2 : list (String.string * A)) :
  Shapes.lookup k (l1 ++ l2)
  = match Shapes.lookup k l1 with
    | Some v => Some v
    | None => Shapes.lookup k l2
    end.
Proof.
  induction l1 as [|[k1 v1] r IH]; cbn [app Shapes.lookup]; [reflexivity|].
  now destruct (String.eqb k k1).
Qed.

Lemma lookup_None {A : Type} (k : String.string) (l : list (String.string * A)) :
  ~ In k (map fst l) -> Shapes.lookup k l = None.
Proof.
  induction l as [|[k1 v1] r IH]; cbn [map fst In Shapes.lookup]; [reflexivity|].
  intros H. destruct (String.eqb_spec k k1) as [E|N]; [subst; tauto|].
  apply IH. tauto.
Qed.

Lemma lookup_In {A : Type} (k : String.string) (v : A) (l : list (String.string * A)) :
  Shapes.lookup k l = Some v -> In (k, v) l.
Proof.
  induction l as [|[k1 v1] r IH]; cbn [Shapes.lookup In]; [discriminate|].
  destruct (String.eqb_spec k k1) as [E|N].
  - intros H. injection H as <-. subst. now left.
  - intros H. right. now apply IH.
Qed.

Lemma lookup_rev {A : Type} (k : String.string) (l : list (String.string * A)) :
  NoDup (map fst l) -> Shapes.lookup k (rev l) = Shapes.lookup k l.
Proof.
  induction l as [|[k1 v1] r IH]; [reflexivity|].
  cbn [map fst rev Shapes.lookup]. intros H. inversion H as [|? ? H1 H2]; subst.
  rewrite lookup_app, IH by assumption. cbn [Shapes.lookup].
  destruct (String.eqb_spec k k1) as [E|N].
  - subst. now rewrite (lookup_None k1 r H1).
  - now destruct (Shapes.lookup k r).
Qed.

Lemma lookup_assign_rev (k : String.string) (source : Presets.Obj) :
  forall target : Presets.Obj,
    Shapes.lookup k (Presets.assign target source)
    = match Shapes.lookup k (rev source) with
      | Some v => Some v
      | None => Shapes.lookup k target
      end.
Proof.
  unfold Presets.assign.
  induction source as [|[k1 v1] r IH]; intros target; [reflexivity|].
  cbn [fold_left rev]. rewrite IH, lookup_app.
  destruct (Shapes.lookup k (rev r)); [reflexivity|].
  unfold Presets.put. cbn [fst snd Shapes.lookup]. rewrite lookup_mapSet.
  now destruct (String.eqb k k1).
Qed.

Lemma lookup_assign (k : String.string) (target source : Presets.Obj) :
  NoDup (map fst source) ->
  Shapes.lookup k (Presets.assign target source)
  = match Shapes.lookup k source with
    | Some v => Some v
    | None => Shapes.lookup k target
    end.
Proof. intros H. now rewrite lookup_assign_rev, lookup_rev. Qed.

Lemma mapSet_same {A : Type} (k : String.string) (v : A) (l : list (String.string * A)) :
  Shapes.lookup k l = Some v -> Shapes.mapSet k v l = l.
Proof.
  induction l as [|[k1 v1] r IH]; cbn [Shapes.lookup Shapes.mapSet]; [discriminate|].
  destruct (String.eqb_spec k k1) as [E|N].
  - intros H. injection H as <-. now subst.
  - intros H. now rewrite IH.
Qed.

Lemma assign_present (source target : Presets.Obj) :
  (forall k v, In (k, v) source -> Shapes.lookup k target = Some v) ->
  Presets.assign target source = target.
Proof.
  unfold Presets.assign.
  induction source as [|[k1 v1] r IH]; intros H; [reflexivity|].
  cbn [fold_left]. unfold Presets.put at 2. cbn [fst snd].
  rewrite mapSet_same by (apply H; now left).
  apply IH. intros k v Hin. apply H. now right.
Qed.

Lemma assign_idempotent (target source : Presets.Obj) :
  NoDup (map fst source) ->
  Presets.assign (Presets.assign target source) source
  = Presets.assign target source.
Proof.
  intros H. apply assign_present. intros k v Hin.
  rewrite lookup_assign by assumption.
  assert (E : Shapes.lookup k source = Some v).
  { clear target. induction source as [|[k1 v1] r IH]; [destruct Hin|].
    cbn [map fst] in H. inversion H as [|? ? H1 H2]; subst.
    cbn [Shapes.lookup]. destruct Hin as [Hin|Hin].
    - injection Hin as -> ->. now rewrite String.eqb_refl.
    - destruct (String.eqb_spec k k1) as [E|N]; [|now apply IH].
      subst. exfalso. apply H1. now apply (in_map fst) in Hin. }
  now rewrite E.
Qed.

Ltac nodup_keys :=
  repeat (apply NoDup_cons;
          [ cbn [In]; intros H;
            repeat (destruct H as [H|H]; [discriminate H|]); exact H |]);
  apply NoDup_nil.

Lemma builtin_keys_unique (name : String.string) (preset : Presets.Obj) :
  Shapes.lookup name Presets.BUILT_IN_PRESETS = Some preset ->
  NoDup (map fst preset).
Proof.
  intros H. apply lookup_In in H. unfold Presets.BUILT_IN_PRESETS in H.
  cbn [In] in H.
  destruct H as [H|[H|[H|[H|[H|[]]]]]]; injection H as _ <-; cbn [map fst];
    nodup_keys.
Qed.

(** X11.  [applyPreset] merges: for the name of a built-in preset it
    returns [true], gives every key the preset lists the preset's value and
    leaves every other key of [params] as it was, so applying the same
    preset twice is the same as applying it once.  For any other name
    [params] is unchanged; the result is [false], except for the names
    every object inherits (such as ['constructor']), for which it is
    [true]. *)
Theorem applyPreset_merges (presetName : String.string) (params : Presets.Obj) :
  match Shapes.lookup presetName Presets.BUILT_IN_PRESETS with
  | Some preset =>
      fst (Presets.applyPreset presetName params) = true
      /\ (forall k,
            Shapes.lookup k (snd (Presets.applyPreset presetName params))
            = match Shapes.lookup k preset with
              | Some v => Some v
              | None => Shapes.lookup k params
              end)
      /\ Presets.applyPreset presetName (snd (Presets.applyPreset presetName params))
         = Presets.applyPreset presetName params
  | None =>
      snd (Presets.applyPreset presetName params) = params
      /\ fst (Presets.applyPreset presetName params)
         = existsb (String.eqb presetName) Presets.inherited
  end.
Proof.
  unfold Presets.applyPreset.
  destruct (Shapes.lookup presetName Presets.BUILT_IN_PRESETS) as [preset|] eqn:E.
  - pose proof (builtin_keys_unique _ _ E) as U. cbn [fst snd].
    repeat split.
    + intros k. now apply lookup_assign.
    + now rewrite assign_idempotent.
  - destruct (existsb (String.eqb presetName) Presets.inherited); now split.
Qed.

Lemma applyPreset_lookup (name k : String.string) (params : Presets.Obj) :
  Shapes.lookup k (snd (Presets.applyPreset name params))
  = match Shapes.lookup name Presets.BUILT_IN_PRESETS with
    | Some preset =>
        match Shapes.lookup k preset with
        | Some v => Some v
        | None => Shapes.lookup k params
        end
    | None => Shapes.lookup k params
    end.
Proof.
  unfold Presets.applyPreset.
  destruct (Shapes.lookup name Presets.BUILT_IN_PRESETS) as [preset|] eqn:E.
  - cbn [snd]. apply lookup_assign. now apply (builtin_keys_unique name).
  - now destruct (existsb (String.eqb name) Presets.inherited).
Qed.

Lemma sticky_true (key name : String.string) (params : Presets.Obj) :
  (forall n preset,
      Shapes.lookup n Presets.BUILT_IN_PRESETS = Some preset ->
      Shapes.lookup key preset = None
      \/ Shapes.lookup key preset = Some (Presets.Bool true)) ->
  Shapes.lookup key params = Some (Presets.Bool true) ->
  Shapes.lookup key (snd (Presets.applyPreset name params)) = Some (Presets.Bool true).
Proof.
  intros Hk Hp. rewrite applyPreset_lookup.
  destruct (Shapes.lookup name Presets.BUILT_IN_PRESETS) as [preset|] eqn:E;
    [|exact Hp].
  destruct (Hk _ _ E) as [H|H]; now rewrite H.
Qed.

Lemma never_cleared (key : String.string) :
  (forall preset, In preset (map snd Presets.BUILT_IN_PRESETS) ->
     Shapes.lookup key preset = None
     \/ Shapes.lookup key preset = Some (Presets.Bool true)) ->
  forall (names : list String.string) (params : Presets.Obj),
    Shapes.lookup key params = Some (Presets.Bool true) ->
    Shapes.lookup key (Laws.loadPresets names params) = Some (Presets.Bool true).
Proof.
  intros Hk. unfold Laws.loadPresets.
  induction names as [|n names IH]; intros params Hp; [exact Hp|].
  cbn [fold_left]. apply IH. apply sticky_true; [|exact Hp].
  intros n' preset E. apply Hk. apply lookup_In in E.
  now apply (in_map snd) in E.
Qed.

Lemma untouched (key : String.string) :
  (forall preset, In preset (map snd Presets.BUILT_IN_PRESETS) ->
     Shapes.lookup key preset = None) ->
  forall (names : list String.string) (params : Presets.Obj),
    Shapes.lookup key (Laws.loadPresets names params) = Shapes.lookup key params.
Proof.
  intros Hk. unfold Laws.loadPresets.
  induction names as [|n names IH]; intros params; [reflexivity|].
  cbn [fold_left]. rewrite IH, applyPreset_lookup.
  destruct (Shapes.lookup n Presets.BUILT_IN_PRESETS) as [preset|] eqn:E;
    [|reflexivity].
  rewrite Hk; [reflexivity|]. apply lookup_In in E. now apply (in_map snd) in E.
Qed.

Ltac each_preset :=
  intros preset H; cbn [map snd Presets.BUILT_IN_PRESETS In] in H;
  repeat (destruct H as [H|H]; [subst preset; cbn; auto|]); destruct H.

(** X12.  Presets are partial, and what they set they never unset.  Only
    ['Tornado'] mentions [twistEnabled] and [taperEnabled], and it turns
    them on: once it has been loaded, no later sequence of presets turns
    the twist or the taper off again, so ['River'] loaded after ['Tornado']
    is twisted while ['River'] loaded on parameters with the twist off is
    not.  No preset changes the seed or the camera. *)
Theorem presets_never_unset (names : list String.string) (params : Presets.Obj) :
  Shapes.lookup "twistEnabled" (Laws.loadPresets ("Tornado"%string :: names) params)
  = Some (Presets.Bool true)
  /\ Shapes.lookup "taperEnabled" (Laws.loadPresets ("Tornado"%string :: names) params)
     = Some (Presets.Bool true)
  /\ (Shapes.lookup "twistEnabled" params = Some (Presets.Bool false) ->
      Shapes.lookup "twistEnabled" (Laws.loadPresets ["River"%string] params)
      = Some (Presets.Bool false))
  /\ (forall key,
        In key [ "seed"; "camRotX"; "camRotY"; "camRotZ"; "camZoom"; "projType";
                 "camFOV" ]%string ->
        Shapes.lookup key (Laws.loadPresets names params) = Shapes.lookup key params).
Proof.
  repeat split.
  - change (Laws.loadPresets ("Tornado"%string :: names) params)
      with (Laws.loadPresets names (snd (Presets.applyPreset "Tornado" params))).
    apply never_cleared; [each_preset|].
    now rewrite applyPreset_lookup.
  - change (Laws.loadPresets ("Tornado"%string :: names) params)
      with (Laws.loadPresets names (snd (Presets.applyPreset "Tornado" params))).
    apply never_cleared; [each_preset|].
    now rewrite applyPreset_lookup.
  - intros H. unfold Laws.loadPresets. cbn [fold_left].
    now rewrite applyPreset_lookup.
  - intros key H. cbn [In] in H.
    repeat (destruct H as [H|H]; [subst key; apply untouched; each_preset|]).
    destruct H.
Qed.

(** ** main.js: which parameters each stage reads, and the caches *)

Lemma while_ext {St : Type} (cond : St -> bool) (body body' : St -> St) :
  (forall s, body s = body' s) ->
  forall (fuel : nat) (s : St), while fuel cond body s = while fuel cond body' s.
Proof.
  intros H. induction fuel as [|fuel IH]; intros s; [reflexivity|].
  cbn [while]. destruct (cond s); [|reflexivity]. now rewrite H, IH.
Qed.

Lemma densityAcceptance_ext (M : MathLib) (st : Noise.State) (p : Point)
    (dist : float) (fill : FillMode) (dp dq : Params) (rng : Prng.state) :
  densityFalloff dp = densityFalloff dq ->
  densityNoise dp = densityNoise dq ->
  densityNoiseFreq dp = densityNoiseFreq dq ->
  Generate.densityAcceptance M st p dist fill dp rng
  = Generate.densityAcceptance M st p dist fill dq rng.
Proof.
  intros H1 H2 H3. unfold Generate.densityAcceptance. now rewrite H1, H2, H3.
Qed.

Lemma sampleLoop_ext (n seed : Z) (body body' : Generate.Loop -> Generate.Loop) :
  (forall l, body l = body' l) ->
  Generate.sampleLoop n seed body = Generate.sampleLoop n seed body'.
Proof. intros H. unfold Generate.sampleLoop. now apply while_ext. Qed.

Lemma ellipsoidBody_ext (M : MathLib) (st : Noise.State) (rx ry rz : float)
    (fill : FillMode) (dp dq : Params) (l : Generate.Loop) :
  densityFalloff dp = densityFalloff dq ->
  densityNoise dp = densityNoise dq ->
  densityNoiseFreq dp = densityNoiseFreq dq ->
  Generate.ellipsoidBody M st rx ry rz fill dp l
  = Generate.ellipsoidBody M st rx ry rz fill dq l.
Proof.
  intros H1 H2 H3. unfold Generate.ellipsoidBody.
  destruct (Generate.marsaglia (Generate.rng l)) as [[[u v] s] rng1].
  destruct fill.
  - now rewrite (densityAcceptance_ext M st _ _ _ dp dq) by assumption.
  - destruct (Prng.next rng1) as [d rng2].
    now rewrite (densityAcceptance_ext M st _ _ _ dp dq) by assumption.
Qed.

Lemma torusBody_ext (M : MathLib) (st : Noise.State) (majorR minorR : float)
    (fill : FillMode) (dp dq : Params) (l : Generate.Loop) :
  densityFalloff dp = densityFalloff dq ->
  densityNoise dp = densityNoise dq ->
  densityNoiseFreq dp = densityNoiseFreq dq ->
  Generate.torusBody M st majorR minorR fill dp l
  = Generate.torusBody M st majorR minorR fill dq l.
Proof.
  intros H1 H2 H3. unfold Generate.torusBody.
  destruct (Prng.next (Generate.rng l)) as [d1 rng1].
  destruct (Prng.next rng1) as [d2 rng2].
  destruct fill.
  - now rewrite (densityAcceptance_ext M st _ _ _ dp dq) by assumption.
  - destruct (Prng.next rng2) as [d3 rng3].
    now rewrite (densityAcceptance_ext M st _ _ _ dp dq) by assumption.
Qed.

Lemma sweptBody_ext (M : MathLib) (st : Noise.State) (cs : float)
    (dp dq : Params) (l : Generate.Loop) :
  densityFalloff dp = densityFalloff dq ->
  densityNoise dp = densityNoise dq ->
  densityNoiseFreq dp = densityNoiseFreq dq ->
  Generate.sweptBody M st cs dp l = Generate.sweptBody M st cs dq l.
Proof.
  intros H1 H2 H3. unfold Generate.sweptBody.
  destruct (Prng.next (Generate.rng l)) as [d1 rng1].
  destruct (Generate.frame _) as [right_ realUp].
  destruct (Prng.next rng1) as [d2 rng2].
  destruct (Prng.next rng2) as [d3 rng3].
  now rewrite (densityAcceptance_ext M st _ _ _ dp dq) by assumption.
Qed.

Lemma generateSingleCloud_ext (M : MathLib) (st : Noise.State) (p q : Params) :
  shapeType p = shapeType q -> count p = count q ->
  radiusX p = radiusX q -> radiusY p = radiusY q -> radiusZ p = radiusZ q ->
  torusMajor p = torusMajor q -> torusMinor p = torusMinor q ->
  sweptRadius p = sweptRadius q -> fillMode p = fillMode q -> seed p = seed q ->
  densityFalloff p = densityFalloff q -> densityNoise p = densityNoise q ->
  densityNoiseFreq p = densityNoiseFreq q ->
  Generate.generateSingleCloud M st p = Generate.generateSingleCloud M st q.
Proof.
  intros H1 H2 H3 H4 H5 H6 H7 H8 H9 H10 H11 H12 H13.
  unfold Generate.generateSingleCloud, Generate.generateEllipsoid,
    Generate.generateSphere, Generate.generateEllipsoid, Generate.generateTorus,
    Generate.generateSweptCurve, Generate.ellipsoidRun, Generate.torusRun,
    Generate.sweptRun.
  rewrite H1, H2, H3, H4, H5, H6, H7, H8, H9, H10.
  destruct (shapeType q); f_equal; apply sampleLoop_ext; intros l.
  - now apply ellipsoidBody_ext.
  - now apply ellipsoidBody_ext.
  - now apply torusBody_ext.
  - now apply sweptBody_ext.
  - now apply ellipsoidBody_ext.
Qed.

Lemma clustersLoop_ext (M : MathLib) (st : Noise.State) (p q : Params)
    (centers : list Point) (counts : list float) :
  Laws.sameShape p q ->
  forall (k : nat) (f : Z) (rng : Prng.state) (allPoints : list Point),
    Generate.clustersLoop M st p centers counts k f rng allPoints
    = Generate.clustersLoop M st q centers counts k f rng allPoints.
Proof.
  intros (H1 & H2 & H3 & H4 & H5 & H6 & H7 & H8 & H9 & H10 & H11 & H12 & H13
          & H14 & H15 & H16 & H17).
  induction k as [|k IH]; intros f rng allPoints; [reflexivity|].
  cbn [Generate.clustersLoop].
  destruct (Prng.next rng) as [d rng'].
  rewrite H3, H4, H5, H6, H7, H8, H10, H16.
  rewrite IH. do 2 f_equal. f_equal.
  apply generateSingleCloud_ext; cbn; assumption || reflexivity.
Qed.

Lemma generateCloud_ext (M : MathLib) (st : Noise.State) (p q : Params) :
  Laws.sameShape p q ->
  Generate.generateCloud M st p = Generate.generateCloud M st q.
Proof.
  intros S. pose proof S as S'.
  destruct S' as (H1 & H2 & H3 & H4 & H5 & H6 & H7 & H8 & H9 & H10 & H11 & H12
                  & H13 & H14 & H15 & H16 & H17).
  unfold Generate.generateCloud.
  rewrite (generateSingleCloud_ext M _ p q) by assumption.
  rewrite H2, H3, H4, H5, H10, H14, H15, H16, H17.
  destruct ((subFlocks q =? 0) || (subFlocks q <=? 1)); [reflexivity|].
  destruct (Generate.centersLoop _ _ _ _ _) as [centers rng1].
  destruct (Generate.distributeCount _ _ _ _) as [counts rng2].
  now rewrite (clustersLoop_ext M _ p q _ _ S).
Qed.

Lemma applyDeformers_ext (M : MathLib) (st : Noise.State) (pts : list Point)
    (p q : Params) :
  Laws.sameDeform p q ->
  Deformers.applyDeformers M st pts p = Deformers.applyDeformers M st pts q.
Proof.
  intros (H1 & H2 & H3 & H4 & H5 & H6 & H7 & H8 & H9 & H10 & H11 & H12 & H13
          & H14 & H15 & H16 & H17 & H18 & H19 & H20 & H21 & H22 & H23 & H24
          & H25 & H26 & H27).
  unfold Deformers.applyDeformers, Deformers.smoothStage, Deformers.noiseStage,
    Deformers.twistStage, Deformers.taperStage, Deformers.bendStage,
    Deformers.waveStage.
  now rewrite H1, H2, H3, H4, H5, H6, H7, H8, H9, H10, H11, H12, H13, H14, H15,
    H16, H17, H18, H19, H20, H21, H22, H23, H24, H25, H26, H27.
Qed.

(** X13.  Each stage reads its own parameters only.  [generateCloud]
    gives the same cloud for two parameter objects that agree on the
    seventeen shape parameters, and [applyDeformers] for two that agree on
    the seed and the deformer parameters; in particular neither depends on
    the camera angles, the zoom or the viewport, which [projectScene] alone
    reads. *)
Theorem stages_read_their_parameters (M : MathLib) (st : Noise.State)
    (pts : list Point) (p : Params) :
  (forall q, Laws.sameShape p q ->
     Generate.generateCloud M st p = Generate.generateCloud M st q)
  /\ (forall q, Laws.sameDeform p q ->
        Deformers.applyDeformers M st pts p = Deformers.applyDeformers M st pts q)
  /\ (forall rx ry rz zoom w h,
        let q := App.withViewport (App.withZoom (Spec.withCamera p rx ry rz) zoom) w h in
        Generate.generateCloud M st q = Generate.generateCloud M st p
        /\ Deformers.applyDeformers M st pts q = Deformers.applyDeformers M st pts p).
Proof.
  split; [|split].
  - intros q. apply generateCloud_ext.
  - intros q. apply applyDeformers_ext.
  - intros rx ry rz zoom w h. cbv zeta. split.
    + symmetry. apply generateCloud_ext. repeat split.
    + symmetry. apply applyDeformers_ext. repeat split.
Qed.

(** *** The cached pipeline *)

Lemma seed_initial (s : Z) (st : Noise.State) :
  Noise.wf st -> Noise.seed s st = Noise.seed s Noise.initial.
Proof. intros H. apply seed_overwrites; [exact H | reflexivity]. Qed.

Lemma wf_seed_initial (s : Z) : Noise.wf (Noise.seed s Noise.initial).
Proof. apply seed_wf. reflexivity. Qed.

Lemma regenerate_from (M : MathLib) (st : Noise.State) (p : Params) :
  Noise.wf st ->
  Main.regenerate M st p
  = (Projection.projectScene M (Noise.seed (seed p) Noise.initial)
       (fst (Deformers.applyDeformers M Noise.initial
               (fst (Generate.generateCloud M Noise.initial p)) p)) p,
     Noise.seed (seed p) Noise.initial).
Proof.
  intros W. rewrite (regenerate_indep M st Noise.initial p W eq_refl).
  unfold Main.regenerate.
  pose proof (generateCloud_state M Noise.initial p) as G.
  destruct (Generate.generateCloud M Noise.initial p) as [base st1].
  cbn [fst snd] in *. subst st1.
  pose proof (applyDeformers_state M (Noise.seed (seed p) Noise.initial) base p) as D.
  pose proof (applyDeformers_state M Noise.initial base p) as D0.
  assert (E : fst (Deformers.applyDeformers M (Noise.seed (seed p) Noise.initial) base p)
              = fst (Deformers.applyDeformers M Noise.initial base p)).
  { unfold Deformers.applyDeformers. cbv zeta. cbn [fst].
    now rewrite (seed_initial (seed p) (Noise.seed (seed p) Noise.initial))
      by apply wf_seed_initial. }
  destruct (Deformers.applyDeformers M (Noise.seed (seed p) Noise.initial) base p)
    as [deformed st2].
  cbn [fst snd] in *. subst st2. rewrite E.
  now rewrite (seed_initial (seed p) (Noise.seed (seed p) Noise.initial))
    by apply wf_seed_initial.
Qed.

Lemma regenerate_shape (M : MathLib) (s : App.State) :
  Noise.wf (App.noise s) ->
  Laws.upToDate M (App.regenerate M (App.markDirty App.LevelShape s)).
Proof.
  intros W. unfold App.regenerate, App.markDirty.
  cbn [App.dirtyShape App.dirtyDeform App.dirtyCamera App.params App.noise
       App.baseCloud App.deformedCloud App.projectedBirds].
  rewrite (generateCloud_indep M (App.noise s) Noise.initial (App.params s) W eq_refl).
  pose proof (generateCloud_state M Noise.initial (App.params s)) as G.
  destruct (Generate.generateCloud M Noise.initial (App.params s)) as [base st1] eqn:EG.
  cbn [fst snd] in *. subst st1.
  pose proof (applyDeformers_state M (Noise.seed (seed (App.params s)) Noise.initial)
                base (App.params s)) as D.
  assert (E : fst (Deformers.applyDeformers M
                     (Noise.seed (seed (App.params s)) Noise.initial) base (App.params s))
              = fst (Deformers.applyDeformers M Noise.initial base (App.params s))).
  { unfold Deformers.applyDeformers. cbv zeta. cbn [fst].
    now rewrite (seed_initial _ (Noise.seed (seed (App.params s)) Noise.initial))
      by apply wf_seed_initial. }
  destruct (Deformers.applyDeformers M (Noise.seed (seed (App.params s)) Noise.initial)
              base (App.params s)) as [deformed st2].
  cbn [fst snd] in *. subst st2.
  rewrite (seed_initial _ (Noise.seed (seed (App.params s)) Noise.initial))
    by apply wf_seed_initial.
  unfold Laws.upToDate.
  cbn [App.dirtyShape App.dirtyDeform App.dirtyCamera App.params App.noise
       App.baseCloud App.deformedCloud App.projectedBirds].
  rewrite (regenerate_from M Noise.initial (App.params s) eq_refl), EG.
  cbn [fst]. rewrite <- E. repeat split.
Qed.

Lemma upToDate_wf (M : MathLib) (s : App.State) :
  Laws.upToDate M s -> Noise.wf (App.noise s).
Proof.
  intros (_ & _ & _ & _ & _ & _ & N). rewrite N. apply wf_seed_initial.
Qed.

Lemma regenerate_deform (M : MathLib) (s : App.State) (q : Params) :
  Laws.upToDate M s ->
  Generate.generateCloud M Noise.initial q
  = Generate.generateCloud M Noise.initial (App.params s) ->
  Laws.upToDate M (App.regenerate M (App.markDirty App.LevelDeform (App.setParams s q))).
Proof.
  intros U G. pose proof (upToDate_wf M s U) as W.
  destruct U as (F1 & F2 & F3 & B & D & P & N).
  unfold App.regenerate, App.markDirty, App.setParams.
  cbn [App.dirtyShape App.dirtyDeform App.dirtyCamera App.params App.noise
       App.baseCloud App.deformedCloud App.projectedBirds].
  rewrite F1.
  assert (Sd : Noise.seed (seed q) Noise.initial
               = Noise.seed (seed (App.params s)) Noise.initial).
  { rewrite <- (generateCloud_state M Noise.initial q),
            <- (generateCloud_state M Noise.initial (App.params s)).
    now rewrite G. }
  pose proof (applyDeformers_state M (App.noise s) (App.baseCloud s) q) as D2.
  assert (E : fst (Deformers.applyDeformers M (App.noise s) (App.baseCloud s) q)
              = fst (Deformers.applyDeformers M Noise.initial (App.baseCloud s) q)).
  { unfold Deformers.applyDeformers. cbv zeta. cbn [fst].
    now rewrite (seed_initial _ (App.noise s)) by exact W. }
  destruct (Deformers.applyDeformers M (App.noise s) (App.baseCloud s) q)
    as [deformed st2].
  cbn [fst snd] in *. subst st2.
  rewrite (seed_initial _ (App.noise s)) by exact W.
  unfold Laws.upToDate.
  cbn [App.dirtyShape App.dirtyDeform App.dirtyCamera App.params App.noise
       App.baseCloud App.deformedCloud App.projectedBirds].
  rewrite (regenerate_from M Noise.initial q eq_refl), G, <- B, <- E.
  cbn [fst]. repeat split.
Qed.

Lemma regenerate_camera (M : MathLib) (s : App.State) (q : Params) :
  Laws.upToDate M s ->
  Generate.generateCloud M Noise.initial q
  = Generate.generateCloud M Noise.initial (App.params s) ->
  Deformers.applyDeformers M Noise.initial (App.baseCloud s) q
  = Deformers.applyDeformers M Noise.initial (App.baseCloud s) (App.params s) ->
  Laws.upToDate M (App.regenerate M (App.markDirty App.LevelCamera (App.setParams s q))).
Proof.
  intros U G A.
  destruct U as (F1 & F2 & F3 & B & D & P & N).
  unfold App.regenerate, App.markDirty, App.setParams.
  cbn [App.dirtyShape App.dirtyDeform App.dirtyCamera App.params App.noise
       App.baseCloud App.deformedCloud App.projectedBirds].
  rewrite F1, F2.
  assert (Sd : Noise.seed (seed q) Noise.initial
               = Noise.seed (seed (App.params s)) Noise.initial).
  { rewrite <- (generateCloud_state M Noise.initial q),
            <- (generateCloud_state M Noise.initial (App.params s)).
    now rewrite G. }
  unfold Laws.upToDate.
  cbn [App.dirtyShape App.dirtyDeform App.dirtyCamera App.params App.noise
       App.baseCloud App.deformedCloud App.projectedBirds].
  rewrite (regenerate_from M Noise.initial q eq_refl), G, <- B, A, <- D, N, Sd.
  cbn [fst]. repeat split; assumption.
Qed.

(** X14.  The cached pipeline is sound.  From any state, marking the
    shape dirty and regenerating leaves the caches equal to what a full run
    on the current parameters gives.  From such a state, a change of
    parameters that leaves the base cloud the same may be followed by
    [markDirty('deform')], and one that also leaves the deformed cloud the
    same by [markDirty('camera')]: regenerating then reuses the cached
    stages and still ends with what a full run on the new parameters
    gives.  Regenerating a state with no stage dirty changes nothing. *)
Theorem cached_pipeline_sound (M : MathLib) (s : App.State) :
  Noise.wf (App.noise s) ->
  Laws.upToDate M (App.regenerate M (App.markDirty App.LevelShape s))
  /\ (Laws.upToDate M s ->
      App.regenerate M s = s
      /\ (forall q,
            Generate.generateCloud M Noise.initial q
            = Generate.generateCloud M Noise.initial (App.params s) ->
            Laws.upToDate M
              (App.regenerate M (App.markDirty App.LevelDeform (App.setParams s q))))
      /\ (forall q,
            Generate.generateCloud M Noise.initial q
            = Generate.generateCloud M Noise.initial (App.params s) ->
            Deformers.applyDeformers M Noise.initial (App.baseCloud s) q
            = Deformers.applyDeformers M Noise.initial (App.baseCloud s) (App.params s) ->
            Laws.upToDate M
              (App.regenerate M (App.markDirty App.LevelCamera (App.setParams s q))))).
Proof.
  intros W. split; [now apply regenerate_shape|].
  intros U. split; [|split].
  - destruct U as (F1 & F2 & F3 & _). destruct s. cbn in *. subst.
    reflexivity.
  - intros q G. now apply regenerate_deform.
  - intros q G A. now apply regenerate_camera.
Qed.

Lemma cached_pipeline_sound_witness :
  Laws.upToDate approxMath
    (App.regenerate approxMath (App.markDirty App.LevelShape (App.initial 800 600))).
Proof.
  refine (proj1 (cached_pipeline_sound approxMath (App.initial 800 600) _)).
  reflexivity.
Defined.

(** X15.  The camera handlers keep the caches sound.  From a state whose
    caches are up to date, dragging the pointer, turning the wheel or
    resizing the window only marks the camera dirty, and the next
    [regenerate] (which reuses the cached base and deformed clouds) gives
    what a full run on the new parameters would. *)
Theorem camera_handlers_sound (M : MathLib) (s : App.State)
    (dx dy deltaY w h : float) :
  Laws.upToDate M s ->
  Laws.upToDate M (App.regenerate M (App.onPointerMove dx dy s))
  /\ Laws.upToDate M (App.regenerate M (App.onWheel deltaY s))
  /\ Laws.upToDate M (App.regenerate M (App.resizeCanvas w h s)).
Proof.
  intros U.
  assert (K : forall q,
             Laws.sameShape q (App.params s) -> Laws.sameDeform q (App.params s) ->
             Laws.upToDate M (App.regenerate M (App.setDirtyCamera (App.setParams s q)))).
  { intros q S D.
    change (App.setDirtyCamera (App.setParams s q))
      with (App.markDirty App.LevelCamera (App.setParams s q)).
    apply regenerate_camera; [exact U | |].
    - now apply generateCloud_ext.
    - now apply applyDeformers_ext. }
  split; [|split]; apply K; repeat split.
Qed.

Lemma camera_handlers_sound_witness :
  Laws.upToDate approxMath
    (App.regenerate approxMath
       (App.onWheel 120
          (App.regenerate approxMath
             (App.markDirty App.LevelShape (App.initial 800 600))))).
Proof.
  refine (proj1 (proj2 (camera_handlers_sound approxMath _ 0 0 120 800 600 _))).
  apply regenerate_shape. reflexivity.
Defined.

(** ** The order of numbers

    The comparisons of binary64 agree with the order of the integers
    [Laws.key]; order arguments on numbers that are not NaN are then
    arithmetic on integers. *)

Lemma top_pos : 0 < Laws.top.
Proof. unfold Laws.top. apply Z.pow_pos_nonneg; lia. Qed.

Lemma valid_finite_top (s : bool) (m : positive) (e : Z) :
  valid_binary (S754_finite s m e) = true ->
  0 < Zpos m * 2 ^ (e + 1074) < Laws.top.
Proof.
  intros V. pose proof (valid_finite s m e V) as (H1 & H2 & _).
  assert (H3 : e <= 971).
  { cbn [SpecFloat.valid_binary] in V. unfold bounded in V.
    apply andb_true_iff in V. destruct V as [_ V]. apply Z.leb_le in V.
    exact V. }
  pose proof (digits2_pos_bounds m) as B.
  assert (Bm : Zpos m < 2 ^ 53).
  { apply Z.lt_le_trans with (2 ^ Zpos (digits2_pos m)); [lia|].
    apply Z.pow_le_mono_r; lia. }
  assert (Bp : 0 < 2 ^ (e + 1074)) by (apply Z.pow_pos_nonneg; lia).
  assert (Be : 2 ^ (e + 1074) <= 2 ^ 2045) by (apply Z.pow_le_mono_r; lia).
  assert (Bq : 0 < 2 ^ 2045) by (apply Z.pow_pos_nonneg; lia).
  split; [apply Z.mul_pos_pos; lia|].
  unfold Laws.top.
  apply Z.le_lt_trans with (Zpos m * 2 ^ 2045).
  - apply Z.mul_le_mono_nonneg_l; lia.
  - apply Z.lt_le_trans with (2 ^ 53 * 2 ^ 2045).
    + apply Z.mul_lt_mono_pos_r; assumption.
    + rewrite <- Z.pow_add_r by lia. apply Z.pow_le_mono_r; lia.
Qed.

Lemma compare_scaled (a b p : Z) : 0 < p -> (a * p ?= b * p) = (a ?= b).
Proof. intros H. symmetry. apply Zmult_compare_compat_r. lia. Qed.

Lemma SFcompare_key (x y : spec_float) :
  valid_binary x = true -> valid_binary y = true ->
  x <> S754_nan -> y <> S754_nan ->
  SFcompare x y = Some (Laws.SFkey x ?= Laws.SFkey y).
Proof.
  intros Vx Vy Nx Ny. pose proof top_pos as T.
  destruct x as [sx|sx| |sx mx ex], y as [sy|sy| |sy my ey]; try congruence;
    cbn [SFcompare Laws.SFkey];
    try pose proof (valid_finite_top sx mx ex Vx) as Bx;
    try pose proof (valid_finite_top sy my ey Vy) as By;
    cbv zeta;
    try (destruct sx; destruct sy; f_equal; symmetry;
         first [ apply Z.compare_eq_iff; lia
               | apply Z.compare_lt_iff; lia
               | apply Z.compare_gt_iff; lia ]);
    try (destruct sx; f_equal; symmetry;
         first [ apply Z.compare_eq_iff; lia
               | apply Z.compare_lt_iff; lia
               | apply Z.compare_gt_iff; lia ]);
    try (destruct sy; f_equal; symmetry;
         first [ apply Z.compare_eq_iff; lia
               | apply Z.compare_lt_iff; lia
               | apply Z.compare_gt_iff; lia ]).
  pose proof (magnitude_compare sx sy mx my ex ey Vx Vy) as Hc.
  pose proof (valid_finite sx mx ex Vx) as (Hx & _).
  pose proof (valid_finite sy my ey Vy) as (Hy & _).
  assert (Sx : Zpos mx * 2 ^ (ex + 1074)
               = Zpos mx * 2 ^ (ex - Z.min ex ey) * 2 ^ (Z.min ex ey + 1074)).
  { rewrite <- Z.mul_assoc, <- Z.pow_add_r by lia. do 2 f_equal. lia. }
  assert (Sy : Zpos my * 2 ^ (ey + 1074)
               = Zpos my * 2 ^ (ey - Z.min ex ey) * 2 ^ (Z.min ex ey + 1074)).
  { rewrite <- Z.mul_assoc, <- Z.pow_add_r by lia. do 2 f_equal. lia. }
  assert (P : 0 < 2 ^ (Z.min ex ey + 1074)) by (apply Z.pow_pos_nonneg; lia).
  f_equal.
  destruct sx, sy.
  - assert (R : (- (Zpos mx * 2 ^ (ex + 1074)) ?= - (Zpos my * 2 ^ (ey + 1074)))
               = CompOpp (Zpos mx * 2 ^ (ex + 1074) ?= Zpos my * 2 ^ (ey + 1074))).
    { rewrite Z.compare_opp. apply Z.compare_antisym. }
    rewrite R, Sx, Sy, compare_scaled, <- Hc by exact P.
    now destruct (ex ?= ey).
  - symmetry. apply Z.compare_lt_iff. lia.
  - symmetry. apply Z.compare_gt_iff. lia.
  - now rewrite Sx, Sy, compare_scaled, <- Hc by exact P.
Qed.

Lemma ltb_key (x y : float) :
  is_nan x = false -> is_nan y = false ->
  (x <? y)%float = (Laws.key x <? Laws.key y).
Proof.
  intros Hx Hy. rewrite ltb_spec. unfold SFltb, Laws.key.
  rewrite SFcompare_key by auto using Prim2SF_valid, not_nan_SF.
  unfold Z.ltb. now destruct (Laws.SFkey (Prim2SF x) ?= Laws.SFkey (Prim2SF y)).
Qed.

Lemma leb_key (x y : float) :
  is_nan x = false -> is_nan y = false ->
  (x <=? y)%float = (Laws.key x <=? Laws.key y).
Proof.
  intros Hx Hy. rewrite leb_spec. unfold SFleb, Laws.key.
  rewrite SFcompare_key by auto using Prim2SF_valid, not_nan_SF.
  unfold Z.leb. now destruct (Laws.SFkey (Prim2SF x) ?= Laws.SFkey (Prim2SF y)).
Qed.

Lemma eqb_key (x y : float) :
  is_nan x = false -> is_nan y = false ->
  (x =? y)%float = (Laws.key x =? Laws.key y).
Proof.
  intros Hx Hy. rewrite eqb_spec. unfold SFeqb, Laws.key.
  rewrite SFcompare_key by auto using Prim2SF_valid, not_nan_SF.
  destruct (Laws.SFkey (Prim2SF x) ?= Laws.SFkey (Prim2SF y)) eqn:E; symmetry.
  - apply Z.eqb_eq. now apply Z.compare_eq.
  - apply Z.eqb_neq. rewrite Z.compare_lt_iff in E. lia.
  - apply Z.eqb_neq. rewrite Z.compare_gt_iff in E. lia.
Qed.

Lemma ltb_nan (x y : float) :
  is_nan x = true \/ is_nan y = true -> (x <? y)%float = false.
Proof.
  rewrite ltb_spec, !is_nan_SF. unfold SFltb.
  intros [H|H]; destruct (Prim2SF x), (Prim2SF y); try discriminate; reflexivity.
Qed.

Lemma leb_nan (x y : float) :
  is_nan x = true \/ is_nan y = true -> (x <=? y)%float = false.
Proof.
  rewrite leb_spec, !is_nan_SF. unfold SFleb.
  intros [H|H]; destruct (Prim2SF x), (Prim2SF y); try discriminate; reflexivity.
Qed.

(** A true comparison is between numbers. *)
Lemma ltb_true (x y : float) :
  (x <? y)%float = true ->
  is_nan x = false /\ is_nan y = false /\ Laws.key x < Laws.key y.
Proof.
  intros H.
  destruct (is_nan x) eqn:Nx; [rewrite ltb_nan in H by auto; discriminate|].
  destruct (is_nan y) eqn:Ny; [rewrite ltb_nan in H by auto; discriminate|].
  rewrite ltb_key in H by assumption. apply Z.ltb_lt in H. auto.
Qed.

Lemma leb_true (x y : float) :
  (x <=? y)%float = true ->
  is_nan x = false /\ is_nan y = false /\ Laws.key x <= Laws.key y.
Proof.
  intros H.
  destruct (is_nan x) eqn:Nx; [rewrite leb_nan in H by auto; discriminate|].
  destruct (is_nan y) eqn:Ny; [rewrite leb_nan in H by auto; discriminate|].
  rewrite leb_key in H by assumption. apply Z.leb_le in H. auto.
Qed.

Lemma max_key (x y : float) :
  is_nan x = false -> is_nan y = false ->
  is_nan (JS.max x y) = false
  /\ Laws.key (JS.max x y) = Z.max (Laws.key x) (Laws.key y).
Proof.
  intros Hx Hy. unfold JS.max. rewrite Hx, Hy. cbn [orb].
  rewrite !ltb_key by assumption.
  destruct (Z.ltb_spec (Laws.key x) (Laws.key y)); [split; [assumption | lia]|].
  destruct (Z.ltb_spec (Laws.key y) (Laws.key x)); [split; [assumption | lia]|].
  destruct (get_sign x); split; assumption || lia.
Qed.

Lemma min_key (x y : float) :
  is_nan x = false -> is_nan y = false ->
  is_nan (JS.min x y) = false
  /\ Laws.key (JS.min x y) = Z.min (Laws.key x) (Laws.key y).
Proof.
  intros Hx Hy. unfold JS.min. rewrite Hx, Hy. cbn [orb].
  rewrite !ltb_key by assumption.
  destruct (Z.ltb_spec (Laws.key x) (Laws.key y)); [split; [assumption | lia]|].
  destruct (Z.ltb_spec (Laws.key y) (Laws.key x)); [split; [assumption | lia]|].
  destruct (get_sign x); split; assumption || lia.
Qed.

(** ** The bounds of a cloud along an axis *)

Lemma bounds_fold (axis : Axis) (pts : list Point) :
  forall b0 : Deformers.Bounds,
    is_nan (Deformers.bmin b0) = false -> is_nan (Deformers.bmax b0) = false ->
    let b := fold_left (Laws.boundsStep axis) pts b0 in
    is_nan (Deformers.bmin b) = false /\ is_nan (Deformers.bmax b) = false
    /\ Laws.key (Deformers.bmin b) <= Laws.key (Deformers.bmin b0)
    /\ Laws.key (Deformers.bmax b0) <= Laws.key (Deformers.bmax b)
    /\ (forall p, In p pts -> is_nan (Deformers.getAxisVal axis p) = false ->
          Laws.key (Deformers.bmin b) <= Laws.key (Deformers.getAxisVal axis p)
          <= Laws.key (Deformers.bmax b))
    /\ (Deformers.bmin b = Deformers.bmin b0
        \/ exists p, In p pts /\ Deformers.bmin b = Deformers.getAxisVal axis p)
    /\ (Deformers.bmax b = Deformers.bmax b0
        \/ exists p, In p pts /\ Deformers.bmax b = Deformers.getAxisVal axis p)
    /\ ((forall p, In p pts -> is_nan (Deformers.getAxisVal axis p) = true) -> b = b0).
Proof.
  induction pts as [|q pts IH]; intros b0 N1 N2; cbv zeta.
  - cbn [fold_left In]. repeat split; try assumption; try lia; try tauto.
  - cbn [fold_left].
    set (v := Deformers.getAxisVal axis q).
    assert (S1 : is_nan (Deformers.bmin (Laws.boundsStep axis b0 q)) = false
                 /\ Laws.key (Deformers.bmin (Laws.boundsStep axis b0 q))
                    <= Laws.key (Deformers.bmin b0)
                 /\ (is_nan v = false ->
                     Laws.key (Deformers.bmin (Laws.boundsStep axis b0 q)) <= Laws.key v)
                 /\ (Deformers.bmin (Laws.boundsStep axis b0 q) = Deformers.bmin b0
                     \/ Deformers.bmin (Laws.boundsStep axis b0 q) = v)).
    { unfold Laws.boundsStep. fold v. cbn [Deformers.bmin].
      destruct (v <? Deformers.bmin b0)%float eqn:E.
      - apply ltb_true in E. destruct E as (Nv & _ & K).
        repeat split; try assumption; try lia. now right.
      - repeat split; try assumption; try lia; [|now left].
        intros Nv. rewrite ltb_key in E by assumption. apply Z.ltb_ge in E. exact E. }
    assert (S2 : is_nan (Deformers.bmax (Laws.boundsStep axis b0 q)) = false
                 /\ Laws.key (Deformers.bmax b0)
                    <= Laws.key (Deformers.bmax (Laws.boundsStep axis b0 q))
                 /\ (is_nan v = false ->
                     Laws.key v <= Laws.key (Deformers.bmax (Laws.boundsStep axis b0 q)))
                 /\ (Deformers.bmax (Laws.boundsStep axis b0 q) = Deformers.bmax b0
                     \/ Deformers.bmax (Laws.boundsStep axis b0 q) = v)).
    { unfold Laws.boundsStep. fold v. cbn [Deformers.bmax].
      destruct (Deformers.bmax b0 <? v)%float eqn:E.
      - apply ltb_true in E. destruct E as (_ & Nv & K).
        repeat split; try assumption; try lia. now right.
      - repeat split; try assumption; try lia; [|now left].
        intros Nv. rewrite ltb_key in E by assumption. apply Z.ltb_ge in E. exact E. }
    destruct S1 as (A1 & A2 & A3 & A4), S2 as (B1 & B2 & B3 & B4).
    destruct (IH (Laws.boundsStep axis b0 q) A1 B1) as (I1 & I2 & I3 & I4 & I5 & I6 & I7 & I8).
    split; [exact I1|]. split; [exact I2|]. split; [lia|]. split; [lia|].
    split; [|split; [|split]].
    + intros p [Hp|Hp] Np.
      * subst p. fold v in Np |- *. specialize (A3 Np). specialize (B3 Np). lia.
      * now apply I5.
    + destruct I6 as [I6|(p & Hp & I6)].
      * rewrite I6. destruct A4 as [A4|A4]; [now left|].
        right. exists q. split; [now left | exact A4].
      * right. exists p. split; [now right | exact I6].
    + destruct I7 as [I7|(p & Hp & I7)].
      * rewrite I7. destruct B4 as [B4|B4]; [now left|].
        right. exists q. split; [now left | exact B4].
      * right. exists p. split; [now right | exact I7].
    + intros H. rewrite I8 by (intros p Hp; apply H; now right).
      assert (Nv : is_nan v = true) by (apply H; now left).
      unfold Laws.boundsStep. fold v.
      rewrite (ltb_nan v) by auto. rewrite (ltb_nan _ v) by auto.
      now destruct b0.
Qed.

(** X16.  [getBounds] really bounds the cloud: neither bound is ever
    NaN, every coordinate along the axis that is a number lies between
    them, and each bound is the initial one ([Infinity], [-Infinity]) or
    the coordinate of a point of the cloud.  For an empty cloud, or one
    whose coordinates along the axis are all NaN, the bounds stay
    [Infinity] and [-Infinity]. *)
Theorem getBounds_bounds (axis : Axis) (pts : list Point) :
  let b := Deformers.getBounds axis pts in
  is_nan (Deformers.bmin b) = false /\ is_nan (Deformers.bmax b) = false
  /\ (forall p, In p pts -> is_nan (Deformers.getAxisVal axis p) = false ->
        (Deformers.bmin b <=? Deformers.getAxisVal axis p)%float = true
        /\ (Deformers.getAxisVal axis p <=? Deformers.bmax b)%float = true)
  /\ (Deformers.bmin b = infinity
      \/ exists p, In p pts /\ Deformers.bmin b = Deformers.getAxisVal axis p)
  /\ (Deformers.bmax b = neg_infinity
      \/ exists p, In p pts /\ Deformers.bmax b = Deformers.getAxisVal axis p)
  /\ ((forall p, In p pts -> is_nan (Deformers.getAxisVal axis p) = true) ->
      b = Deformers.mkBounds infinity neg_infinity).
Proof.
  cbv zeta.
  destruct (bounds_fold axis pts (Deformers.mkBounds infinity neg_infinity)
              eq_refl eq_refl) as (I1 & I2 & _ & _ & I5 & I6 & I7 & I8).
  change (fold_left (Laws.boundsStep axis) pts (Deformers.mkBounds infinity neg_infinity))
    with (Deformers.getBounds axis pts) in *.
  split; [exact I1|]. split; [exact I2|]. split; [|split; [|split]];
    try assumption.
  intros p Hp Np. destruct (I5 p Hp Np) as [L U].
  rewrite !leb_key by assumption. split; apply Z.leb_le; assumption.
Qed.

(** ** The zoom *)

(** X17.  The wheel handler clamps the zoom: whatever the wheel delta
    and the zoom before, the zoom afterwards is NaN (exactly when the
    unclamped value [camZoom + zoomDelta * camZoom] is) or lies in
    [0.5, 10]; the handler marks the camera dirty and changes no other
    parameter of the base cloud or of the deformers. *)
Theorem wheel_zoom_clamped (deltaY : float) (s : App.State) :
  let z := camZoom (App.params (App.onWheel deltaY s)) in
  let unclamped := (camZoom (App.params s)
                    + deltaY * -0.001 * camZoom (App.params s))%float in
  is_nan z = is_nan unclamped
  /\ (is_nan z = false -> (0.5 <=? z)%float = true /\ (z <=? 10)%float = true)
  /\ App.dirtyCamera (App.onWheel deltaY s) = true
  /\ Laws.sameShape (App.params (App.onWheel deltaY s)) (App.params s)
  /\ Laws.sameDeform (App.params (App.onWheel deltaY s)) (App.params s).
Proof.
  cbv zeta. unfold App.onWheel.
  cbn [App.params App.setDirtyCamera App.setParams App.dirtyCamera App.withZoom camZoom].
  set (u := (camZoom (App.params s) + deltaY * -0.001 * camZoom (App.params s))%float).
  assert (C : is_nan (JS.max 0.5 (JS.min 10 u)) = is_nan u
              /\ (is_nan (JS.max 0.5 (JS.min 10 u)) = false ->
                  (0.5 <=? JS.max 0.5 (JS.min 10 u))%float = true
                  /\ (JS.max 0.5 (JS.min 10 u) <=? 10)%float = true)).
  { destruct (is_nan u) eqn:Nu.
    - unfold JS.min. rewrite Nu. cbn [is_nan orb]. split; [reflexivity | discriminate].
    - destruct (min_key 10 u eq_refl Nu) as [N1 K1].
      destruct (max_key 0.5 (JS.min 10 u) eq_refl N1) as [N2 K2].
      split; [exact N2|]. intros _.
      rewrite !leb_key by (assumption || reflexivity).
      rewrite K2, K1.
      assert (K05 : Laws.key 0.5 < Laws.key 10) by (apply Z.ltb_lt; reflexivity).
      split; apply Z.leb_le; lia. }
  destruct C as [C1 C2].
  split; [exact C1|]. split; [exact C2|]. split; [reflexivity|].
  split; repeat split.
Qed.

(** ** freehand.js: simplifying a stroke *)

Lemma subseq_nil_l {A : Type} (l : list A) : Laws.subseq [] l.
Proof. induction l; [apply Laws.subseq_nil | now apply Laws.subseq_skip]. Qed.

Lemma subseq_refl {A : Type} (l : list A) : Laws.subseq l l.
Proof. induction l; [apply Laws.subseq_nil | now apply Laws.subseq_take]. Qed.

Lemma subseq_app {A : Type} (a b c d : list A) :
  Laws.subseq a b -> Laws.subseq c d -> Laws.subseq (a ++ c) (b ++ d).
Proof.
  intros H1 H2. induction H1; cbn [app].
  - exact H2.
  - now apply Laws.subseq_skip.
  - now apply Laws.subseq_take.
Qed.

Lemma subseq_In {A : Type} (x : A) (l : list A) : In x l -> Laws.subseq [x] l.
Proof.
  induction l as [|a l IH]; intros H; [destruct H|].
  destruct H as [H|H].
  - subst. apply Laws.subseq_take. apply subseq_nil_l.
  - apply Laws.subseq_skip. now apply IH.
Qed.

Lemma subseq_removelast {A : Type} (x : A) (a : list A) :
  forall l : list A, Laws.subseq l (a ++ [x]) -> Laws.subseq (removelast l) a.
Proof.
  induction a as [|y a IH]; intros l H; cbn [app] in H.
  - inversion H as [| ? ? ? H1 | ? ? ? H1]; subst.
    + inversion H1; subst. apply Laws.subseq_nil.
    + inversion H1; subst. apply Laws.subseq_nil.
  - inversion H as [| ? ? ? H1 | ? l1 ? H1]; subst.
    + apply Laws.subseq_skip. now apply IH.
    + destruct l1 as [|z l1]; [apply subseq_nil_l|].
      change (removelast (y :: z :: l1)) with (y :: removelast (z :: l1)).
      apply Laws.subseq_take. now apply IH.
Qed.

Lemma nth_last_eq {A : Type} (d : A) (l : list A) :
  l <> [] -> nth (length l - 1) l d = last l d.
Proof.
  induction l as [|a l IH]; intros H; [congruence|].
  destruct l as [|b l]; [reflexivity|].
  change (last (a :: b :: l) d) with (last (b :: l) d).
  rewrite <- IH by discriminate. cbn [length].
  replace (S (S (length l)) - 1)%nat with (S (S (length l) - 1)) by lia.
  reflexivity.
Qed.

Lemma last_app_r {A : Type} (d : A) (a b : list A) :
  b <> [] -> last (a ++ b) d = last b d.
Proof.
  intros H. induction a as [|x a IH]; [reflexivity|].
  cbn [app]. destruct (a ++ b) eqn:E.
  - destruct a; [cbn in E; congruence | discriminate].
  - exact IH.
Qed.

Lemma last_skipn {A : Type} (d : A) (m : nat) (l : list A) :
  (m < length l)%nat -> last (skipn m l) d = last l d.
Proof.
  intros H. rewrite <- (firstn_skipn m l) at 2. symmetry. apply last_app_r.
  intros E. apply (f_equal (@length A)) in E. rewrite length_skipn in E.
  cbn in E. lia.
Qed.

Lemma firstn_snoc {A : Type} (d : A) (m : nat) (l : list A) :
  (m < length l)%nat -> firstn (S m) l = firstn m l ++ [nth m l d].
Proof.
  revert l. induction m as [|m IH]; intros [|a l] H; cbn [length] in H; try lia.
  - reflexivity.
  - change (firstn (S (S m)) (a :: l)) with (a :: firstn (S m) l).
    rewrite IH by lia. reflexivity.
Qed.

Lemma hd_removelast_app {A : Type} (l r : list A) :
  (2 <= length l)%nat -> hd_error (removelast l ++ r) = hd_error l.
Proof.
  destruct l as [|a [|b l]]; cbn [length]; try lia. reflexivity.
Qed.

Lemma farthest_fold (points : list Freehand.Point2) (l : list nat) :
  forall acc : float * nat,
    let step := fun (acc : float * nat) (i : nat) =>
      let d := Freehand.perpendicularDistance (nth i points Freehand.origin)
                 (nth 0 points Freehand.origin)
                 (nth (length points - 1) points Freehand.origin) in
      if (fst acc <? d)%float then (d, i) else acc in
    fold_left step l acc = acc \/ In (snd (fold_left step l acc)) l.
Proof.
  cbv zeta. induction l as [|i l IH]; intros acc; [now left|].
  cbn [fold_left].
  match goal with |- context [fold_left ?f l ?a] => destruct (IH a) as [E|E] end.
  - rewrite E. destruct (fst acc <? _)%float; [right; now left | now left].
  - right. now right.
Qed.

Lemma farthest_range (points : list Freehand.Point2) :
  Freehand.farthest points = (0%float, 0%nat)
  \/ (1 <= snd (Freehand.farthest points) < length points - 1)%nat.
Proof.
  unfold Freehand.farthest.
  destruct (farthest_fold points (seq 1 (length points - 1 - 1)) (0%float, 0%nat))
    as [E|E]; [now left|].
  right. apply in_seq in E. cbv zeta in E |- *. lia.
Qed.

Lemma leb_not_ltb (x y : float) : (x <=? y)%float = true -> (y <? x)%float = false.
Proof.
  intros H. apply leb_true in H. destruct H as (Nx & Ny & K).
  rewrite ltb_key by assumption. apply Z.ltb_ge. exact K.
Qed.

Lemma simplifyRDP_spec (epsilon : float) :
  (0 <=? epsilon)%float = true ->
  forall (fuel : nat) (points : list Freehand.Point2),
    (length points <= fuel)%nat ->
    exists out,
      Freehand.simplifyRDP fuel points epsilon = Some out
      /\ Laws.subseq out points
      /\ ((length points <= 2)%nat -> out = points)
      /\ ((2 <= length points)%nat ->
          (2 <= length out)%nat
          /\ hd_error out = hd_error points
          /\ last out Freehand.origin = last points Freehand.origin).
Proof.
  intros He. induction fuel as [|fuel IH]; intros points Hf.
  - destruct points; [|cbn in Hf; lia]. exists []. cbn.
    repeat split; try apply Laws.subseq_nil; intros; lia.
  - cbn [Freehand.simplifyRDP].
    destruct (Nat.leb_spec (length points) 2) as [H2|H2].
    + exists points. repeat split; try apply subseq_refl; intros; lia.
    + destruct (Freehand.farthest points) as [maxDist maxIdx] eqn:EF.
      pose proof (farthest_range points) as R. rewrite EF in R. cbn [snd] in R.
      destruct (epsilon <? maxDist)%float eqn:Em.
      * destruct R as [R|R].
        { injection R as -> ->. rewrite (leb_not_ltb _ _ He) in Em. discriminate. }
        assert (L1 : length (firstn (maxIdx + 1) points) = (maxIdx + 1)%nat)
          by (rewrite length_firstn; lia).
        assert (L2 : length (skipn maxIdx points) = (length points - maxIdx)%nat)
          by apply length_skipn.
        destruct (IH (firstn (maxIdx + 1) points)) as (left_ & E1 & S1 & _ & K1);
          [lia|].
        destruct (IH (skipn maxIdx points)) as (right_ & E2 & S2 & _ & K2); [lia|].
        rewrite E1, E2.
        destruct K1 as (N1 & Hd1 & La1); [lia|].
        destruct K2 as (N2 & Hd2 & La2); [lia|].
        exists (removelast left_ ++ right_).
        split; [reflexivity|]. split; [|split; [intros; lia|]].
        -- rewrite <- (firstn_skipn maxIdx points) at 1.
           apply subseq_app; [|exact S2].
           apply (subseq_removelast (nth maxIdx points Freehand.origin)).
           replace (maxIdx + 1)%nat with (S maxIdx) in S1 by lia.
           now rewrite (firstn_snoc Freehand.origin) in S1 by lia.
        -- intros _. split; [|split].
           ++ rewrite length_app. lia.
           ++ rewrite hd_removelast_app by exact N1. rewrite Hd1.
              destruct points; [cbn in H2; lia|].
              now replace (maxIdx + 1)%nat with (S maxIdx) by lia.
           ++ rewrite last_app_r.
              ** rewrite La2. apply last_skipn. lia.
              ** intros E. rewrite E in N2. cbn in N2. lia.
      * exists [nth 0 points Freehand.origin;
                nth (length points - 1) points Freehand.origin].
        split; [reflexivity|]. split; [|split; [intros; lia|]].
        -- destruct points as [|a rest]; [cbn in H2; lia|].
           cbn [nth length]. apply Laws.subseq_take.
           replace (S (length rest) - 1)%nat with (S (length rest - 1))
             by (cbn in H2; lia).
           cbn [nth]. apply subseq_In. apply nth_In. cbn in H2. lia.
        -- intros _. split; [cbn; lia|]. split.
           ++ destruct points; [cbn in H2; lia | reflexivity].
           ++ cbn [last]. apply nth_last_eq. intros E. subst. cbn in H2. lia.
Qed.

(** X18.  [simplifyRDP] with a tolerance that is not negative always
    returns (the recursion is at most as deep as the stroke is long),
    and what it returns is the stroke with points left out: a stroke of at
    most two points comes back unchanged, and a longer one keeps at least
    two points, among them its first and its last. *)
Theorem simplifyRDP_keeps_ends (points : list Freehand.Point2) (epsilon : float)
    (fuel : nat) :
  (0 <=? epsilon)%float = true ->
  (length points <= fuel)%nat ->
  exists out,
    Freehand.simplifyRDP fuel points epsilon = Some out
    /\ Laws.subseq out points
    /\ ((length points <= 2)%nat -> out = points)
    /\ ((2 <= length points)%nat ->
        (2 <= length out)%nat
        /\ hd_error out = hd_error points
        /\ last out Freehand.origin = last points Freehand.origin).
Proof. intros He Hf. now apply simplifyRDP_spec. Qed.

Lemma simplifyRDP_keeps_ends_witness :
  exists out,
    Freehand.simplifyRDP 6 Samples.stroke 3 = Some out
    /\ Laws.subseq out Samples.stroke.
Proof.
  destruct (simplifyRDP_keeps_ends Samples.stroke 3 6 eq_refl (le_n 6))
    as (out & E & S & _).
  exists out. split; assumption.
Defined.

Lemma simplifyRDP_short (fuel : nat) (points : list Freehand.Point2) (epsilon : float) :
  (length points <= 2)%nat -> Freehand.simplifyRDP fuel points epsilon = Some points.
Proof.
  intros H. destruct fuel; cbn [Freehand.simplifyRDP];
    destruct (Nat.leb_spec (length points) 2); (reflexivity || lia).
Qed.

(** X19.  A negative tolerance can make [simplifyRDP] recurse for ever.
    For a stroke of three points or more whose interior points are all at
    distance 0 from the chord (or at a distance that is NaN), the scan
    leaves [maxIdx = 0]; the test [maxDist > epsilon] passes, and the
    second recursive call is on the whole stroke again.  No depth of
    recursion returns. *)
Theorem simplifyRDP_negative_tolerance (points : list Freehand.Point2)
    (epsilon : float) :
  (epsilon <? 0)%float = true ->
  (3 <= length points)%nat ->
  Freehand.farthest points = (0%float, 0%nat) ->
  forall fuel : nat, Freehand.simplifyRDP fuel points epsilon = None.
Proof.
  intros He Hl Hf. induction fuel as [|fuel IH]; cbn [Freehand.simplifyRDP];
    destruct (Nat.leb_spec (length points) 2) as [H|H]; try lia; [reflexivity|].
  rewrite Hf, He.
  rewrite simplifyRDP_short by (rewrite length_firstn; lia).
  change (skipn 0 points) with points. now rewrite IH.
Qed.

Lemma simplifyRDP_negative_tolerance_witness :
  Freehand.simplifyRDP 1000 Samples.collinear (-1) = None.
Proof.
  apply (simplifyRDP_negative_tolerance Samples.collinear (-1)).
  - reflexivity.
  - cbn. lia.
  - reflexivity.
Defined.

Lemma append_nonempty (a b : String.string) :
  String.eqb a "" = false -> String.eqb (String.append a b) "" = false.
Proof. destruct a; [discriminate | reflexivity]. Qed.

Lemma fold_append_nonempty {A : Type} (g : A -> String.string) (l : list A) :
  forall d : String.string,
    String.eqb d "" = false ->
    String.eqb (fold_left (fun d x => String.append d (g x)) l d) "" = false.
Proof.
  induction l as [|x l IH]; intros d H; [exact H|].
  cbn [fold_left]. apply IH. now apply append_nonempty.
Qed.

Lemma pointsToSmoothPath_nonempty (toString : float -> String.string)
    (points : list Freehand.Point2) (closed : bool) :
  points <> [] ->
  String.eqb (Freehand.pointsToSmoothPath toString points closed) "" = false.
Proof.
  intros H. destruct points as [|p0 rest]; [congruence|].
  unfold Freehand.pointsToSmoothPath.
  destruct (length (p0 :: rest) <? 3)%nat; cbv zeta.
  - assert (N : String.eqb
                  (fold_left
                     (fun d p => String.append d
                                   (String.append " L" (Freehand.coords toString p)))
                     rest (String.append "M" (Freehand.coords toString p0))) "" = false)
      by (apply fold_append_nonempty; reflexivity).
    destruct closed; [now apply append_nonempty | exact N].
  - match goal with
    | |- context [fold_left ?f ?l ?d0] =>
        assert (N : String.eqb (fold_left f l d0) "" = false)
          by (apply (fold_append_nonempty
                       (fun i => String.append " Q"
                                   (String.append
                                      (Freehand.coords toString (nth i (p0 :: rest) Freehand.origin))
                                      (String.append " "
                                         (Freehand.coords toString
                                            (Freehand.mkPoint2
                                               ((Freehand.x (nth i (p0 :: rest) Freehand.origin)
                                                 + Freehand.x (nth (i + 1) (p0 :: rest) Freehand.origin)) / 2)
                                               ((Freehand.y (nth i (p0 :: rest) Freehand.origin)
                                                 + Freehand.y (nth (i + 1) (p0 :: rest) Freehand.origin)) / 2)))))));
              reflexivity)
    end.
    destruct closed; repeat apply append_nonempty; exact N.
Qed.

(** X20.  A finished drawing always registers a usable custom shape.  For
    a stroke of three points or more, whatever the canvas size and the
    number formatting, the [Done] handler simplifies the stroke (with the
    tolerance 3, so the recursion returns), builds path data that is not
    empty and passes it to [setCustomShape]; afterwards ['custom'] is among
    the available shape keys and [getPath2D('custom')] is that path.  A
    stroke of fewer than three points cancels the drawing. *)
Theorem drawing_registers_custom_shape (toString : float -> String.string)
    (points : list Freehand.Point2) (canvasW canvasH : float)
    (shapes : Shapes.State) :
  ((3 <= length points)%nat ->
   exists pathData,
     Freehand.onDone toString points canvasW canvasH shapes
     = Some (pathData, Shapes.setCustomShape pathData true shapes)
     /\ String.eqb pathData "" = false
     /\ In "custom"%string
          (Shapes.getAvailableShapeKeys (Shapes.setCustomShape pathData true shapes))
     /\ fst (Shapes.getPath2D "custom" (Shapes.setCustomShape pathData true shapes))
        = Some pathData)
  /\ ((length points < 3)%nat ->
      Freehand.onDone toString points canvasW canvasH shapes = None).
Proof.
  split.
  - intros H. unfold Freehand.onDone.
    destruct (Nat.ltb_spec (length points) 3) as [H3|H3]; [lia|].
    destruct (simplifyRDP_spec 3 eq_refl (length points) points (le_n _))
      as (out & E & _ & _ & K).
    rewrite E. destruct K as (K & _); [lia|].
    set (pathData := Freehand.pointsToSmoothPath toString
                       (Freehand.normaliseShape out canvasW canvasH 10) true).
    assert (N : String.eqb pathData "" = false).
    { apply pointsToSmoothPath_nonempty. intros C.
      apply (f_equal (@length _)) in C. unfold Freehand.normaliseShape in C.
      destruct (Freehand.bbox out) as [[[a b] c] d]. rewrite length_map in C.
      cbn in C. lia. }
    exists pathData. split; [reflexivity|]. split; [exact N|]. split.
    + unfold Shapes.getAvailableShapeKeys. apply filter_In. split.
      * cbn [map fst Shapes.SHAPES In]. do 7 right. now left.
      * cbn. now rewrite N.
    + unfold Shapes.getPath2D. cbn. rewrite N. cbn.
      rewrite orb_true_r. cbn. now rewrite lookup_mapSet.
  - intros H. unfold Freehand.onDone.
    destruct (Nat.ltb_spec (length points) 3) as [H3|H3]; [reflexivity | lia].
Qed.

(** ** noise.js: no octaves *)

Lemma Prim2SF_inj (x y : float) : Prim2SF x = Prim2SF y -> x = y.
Proof.
  intros H. rewrite <- (SF2Prim_Prim2SF x), <- (SF2Prim_Prim2SF y). now rewrite H.
Qed.

Lemma mul_nan_l (a : float) : (nan * a)%float = nan.
Proof.
  apply Prim2SF_inj. rewrite mul_spec.
  change (Prim2SF nan) with S754_nan. reflexivity.
Qed.

Lemma add_nan_r (a : float) : (a + nan)%float = nan.
Proof.
  apply Prim2SF_inj. rewrite add_spec.
  change (Prim2SF nan) with S754_nan. unfold SF64add, SFadd.
  now destruct (Prim2SF a).
Qed.

(** X21.  [fbm3] with no octave divides 0 by 0.  For [octaves <= 0] the
    loop does not run, [maxAmp] stays 0 and the result is NaN at every
    point and for every table; so the noise displacement of
    [applyDeformers], which passes [noiseOctaves] on unguarded, turns
    every coordinate of the cloud into NaN when [noiseOctaves <= 0] and
    [noiseAmp > 0]. *)
Theorem fbm3_without_octaves (st : Noise.State) (opts : Noise.Opts) (n : Z) :
  Noise.octaves opts = Some n -> n <= 0 ->
  (forall x y z, Noise.fbm3 st x y z opts = nan)
  /\ (forall x y z, Noise.fbm3vec st x y z opts = mkPoint nan nan nan)
  /\ (forall params pts,
        noiseOctaves params = n -> (0 <? noiseAmp params)%float = true ->
        Deformers.noiseStage st params pts = map (fun _ => mkPoint nan nan nan) pts).
Proof.
  intros Ho Hn.
  assert (F : forall (o : Noise.Opts) x y z,
             Noise.octaves o = Some n -> Noise.fbm3 st x y z o = nan).
  { intros o x y z E. unfold Noise.fbm3. rewrite E. cbn [Noise.dflt].
    replace (Z.to_nat n) with 0%nat by lia. reflexivity. }
  split; [|split].
  - intros x y z. now apply F.
  - intros x y z. unfold Noise.fbm3vec. now rewrite !F.
  - intros params pts E A. unfold Deformers.noiseStage, Deformers.noiseDisplace.
    rewrite A. apply map_ext. intros p.
    unfold Noise.fbm3vec. cbn [px py pz Deformers.octaves].
    rewrite !F by (cbn; now rewrite E).
    now rewrite !mul_nan_l, !add_nan_r.
Qed.

Lemma fbm3_without_octaves_witness :
  Deformers.noiseStage Examples.used Samples.noOctaves Examples.cloud
  = map (fun _ => mkPoint nan nan nan) Examples.cloud.
Proof.
  refine (proj2 (proj2 (fbm3_without_octaves Examples.used
                          (Noise.mkOpts (Some 0) None None None None) 0 eq_refl _))
            Samples.noOctaves Examples.cloud eq_refl eq_refl).
  lia.
Defined.

(** ** Exact arithmetic on small dyadic numbers

    The draws of the generator are integers below 2^32 divided by 2^32.
    On such numbers the operations the program applies (conversion from an
    integer, division by 2^32, multiplication by a small integer, floor)
    round nothing off; this is proved from the format's specification. *)

Lemma digits_unique (p : positive) (k : Z) :
  2 ^ (k - 1) <= Zpos p < 2 ^ k -> Zpos (digits2_pos p) = k.
Proof.
  intros [H1 H2]. pose proof (digits2_pos_bounds p) as [B1 B2].
  set (d := Zpos (digits2_pos p)) in *.
  assert (Hd : 0 < d) by (unfold d; lia).
  destruct (Z.lt_trichotomy d k) as [L|[E|G]]; [|exact E|].
  - exfalso. assert (2 ^ d <= 2 ^ (k - 1)) by (apply Z.pow_le_mono_r; lia). lia.
  - exfalso. destruct (Z.le_gt_cases 0 k) as [K|K].
    + assert (2 ^ k <= 2 ^ (d - 1)) by (apply Z.pow_le_mono_r; lia). lia.
    + rewrite (Z.pow_neg_r 2 k) in H2 by lia. lia.
Qed.

Lemma digits_shift (q : positive) (n : Z) :
  0 <= n -> Zdigits2 (Zpos q * 2 ^ n) = Zpos (digits2_pos q) + n.
Proof.
  intros Hn. pose proof (digits2_pos_bounds q) as [B1 B2].
  assert (P : 0 < 2 ^ n) by (apply Z.pow_pos_nonneg; lia).
  destruct (Zpos q * 2 ^ n) as [|m|m] eqn:E; try lia.
  cbn [Zdigits2]. apply digits_unique. rewrite <- E.
  replace (Zpos (digits2_pos q) + n - 1) with (Zpos (digits2_pos q) - 1 + n) by lia.
  rewrite !Z.pow_add_r by lia. split.
  - apply Z.mul_le_mono_nonneg_r; lia.
  - apply Z.mul_lt_mono_pos_r; lia.
Qed.

Lemma shr_1_even (m : Z) :
  0 <= m -> shr_1 (Build_shr_record (2 * m) false false) = Build_shr_record m false false.
Proof. intros H. destruct m as [|p|p]; try lia; reflexivity. Qed.

Lemma shr_iter_exact (k : positive) :
  forall q : Z, 0 <= q ->
    iter_pos shr_1 k (Build_shr_record (q * 2 ^ Zpos k) false false)
    = Build_shr_record q false false.
Proof.
  induction k as [k IH|k IH|]; intros q Hq; cbn [iter_pos].
  - assert (P : 0 <= 2 ^ Zpos k) by (apply Z.pow_nonneg; lia).
    replace (q * 2 ^ Zpos k~1) with (2 * (q * 2 ^ Zpos k * 2 ^ Zpos k)).
    + rewrite shr_1_even by (apply Z.mul_nonneg_nonneg; [apply Z.mul_nonneg_nonneg|]; lia).
      rewrite IH by (apply Z.mul_nonneg_nonneg; lia). now apply IH.
    + assert (E : Zpos k~1 = 1 + Zpos k + Zpos k) by lia. rewrite E.
      rewrite !Z.pow_add_r by lia. change (2 ^ 1) with 2. ring.
  - assert (P : 0 <= 2 ^ Zpos k) by (apply Z.pow_nonneg; lia).
    replace (q * 2 ^ Zpos k~0) with (q * 2 ^ Zpos k * 2 ^ Zpos k).
    + rewrite IH by (apply Z.mul_nonneg_nonneg; lia). now apply IH.
    + assert (E : Zpos k~0 = Zpos k + Zpos k) by lia. rewrite E.
      rewrite Z.pow_add_r by lia. ring.
  - change (2 ^ 1) with 2. rewrite Z.mul_comm. now apply shr_1_even.
Qed.

(** Rounding a number the format can write returns that number: if
    [(q, e + n)] is a mantissa and exponent of the format, rounding
    [q * 2^n] at the exponent [e] gives it. *)
Lemma round_exact (s : bool) (q : positive) (n e : Z) :
  0 <= n -> bounded prec emax q (e + n) = true ->
  binary_round_aux prec emax s (Zpos q * 2 ^ n) e loc_Exact = S754_finite s q (e + n).
Proof.
  intros Hn B. unfold bounded, canonical_mantissa in B.
  apply andb_true_iff in B. destruct B as [C U].
  apply Z.eqb_eq in C. rewrite fexp64 in C.
  unfold binary_round_aux, shr_fexp.
  rewrite digits_shift by exact Hn. rewrite fexp64.
  replace (Z.max (Zpos (digits2_pos q) + n + e - 53) (-1074) - e) with n by lia.
  cbn [shr_record_of_loc].
  assert (S1 : shr (Build_shr_record (Zpos q * 2 ^ n) false false) e n
               = (Build_shr_record (Zpos q) false false, e + n)).
  { destruct n as [|k|k]; try lia.
    - cbn [shr]. change (2 ^ 0) with 1. rewrite Z.mul_1_r, Z.add_0_r. reflexivity.
    - cbn [shr]. now rewrite shr_iter_exact by lia. }
  rewrite S1. cbn [shr_m loc_of_shr_record round_nearest_even Zdigits2].
  rewrite fexp64.
  replace (Z.max (Zpos (digits2_pos q) + (e + n) - 53) (-1074) - (e + n)) with 0 by lia.
  cbn [shr shr_record_of_loc shr_m]. now rewrite U.
Qed.

Lemma to_pos_shift (p : positive) (k : Z) :
  0 <= k -> Zpos (Z.to_pos (Zpos p * 2 ^ k)) = Zpos p * 2 ^ k.
Proof.
  intros H. apply Z2Pos.id. apply Z.mul_pos_pos; [lia | apply Z.pow_pos_nonneg; lia].
Qed.

Lemma digits_to_pos_shift (p : positive) (k : Z) :
  0 <= k -> Zpos (digits2_pos (Z.to_pos (Zpos p * 2 ^ k))) = Zpos (digits2_pos p) + k.
Proof.
  intros H. pose proof (digits_shift p k H) as D.
  rewrite <- (to_pos_shift p k H) in D. exact D.
Qed.

Lemma digits_le (p : positive) (k : Z) :
  Zpos p < 2 ^ k -> Zpos (digits2_pos p) <= k.
Proof.
  intros H. pose proof (digits2_pos_bounds p) as [B1 _].
  destruct (Z.le_gt_cases (Zpos (digits2_pos p)) k) as [L|G]; [exact L|].
  exfalso. assert (2 ^ k <= 2 ^ (Zpos (digits2_pos p) - 1)).
  { destruct (Z.le_gt_cases 0 k).
    - apply Z.pow_le_mono_r; lia.
    - rewrite (Z.pow_neg_r 2 k) by lia. apply Z.pow_nonneg. lia. }
  lia.
Qed.

(** The dyadic form is a number of the format. *)
Lemma dyadic_bounded (p : positive) (sh : Z) :
  Zpos p < 2 ^ 53 -> -1021 <= - sh -> - sh <= 900 ->
  let d := Zpos (digits2_pos p) in
  bounded prec emax (Z.to_pos (Zpos p * 2 ^ (53 - d))) (d - 53 - sh) = true.
Proof.
  intros Hp H1 H2 d. pose proof (digits_le p 53 Hp) as Hd. fold d in Hd.
  assert (0 < d) by (unfold d; lia).
  unfold bounded, canonical_mantissa.
  rewrite digits_to_pos_shift by lia. fold d. rewrite fexp64.
  apply andb_true_iff. split; [apply Z.eqb_eq | apply Z.leb_le]; unfold emax, prec; lia.
Qed.

(** Conversion of an integer below 2^53. *)
Lemma Z2F_dyadic (v : Z) :
  0 <= v < 2 ^ 53 -> Prim2SF (JS.Z2F v) = Laws.dyadic v 0.
Proof.
  intros Hv. destruct v as [|p|p]; try lia; [reflexivity|].
  unfold JS.Z2F, Laws.dyadic. rewrite of_uint63_spec.
  assert (T : Uint63.to_Z (Uint63.of_Z (Zpos p)) = Zpos p).
  { rewrite Uint63.of_Z_spec. apply Z.mod_small.
    split; [lia|]. apply Z.lt_trans with (2 ^ 53); [lia | reflexivity]. }
  rewrite T. cbn [binary_normalize]. unfold binary_round.
  pose proof (digits_le p 53 (proj2 Hv)) as Hd.
  set (d := Zpos (digits2_pos p)) in *.
  assert (Hd0 : 0 < d) by (unfold d; lia).
  rewrite Z.add_0_r, fexp64.
  replace (Z.max (d - 53) (-1074)) with (d - 53) by lia.
  assert (A : shl_align p 0 (d - 53) = (Z.to_pos (Zpos p * 2 ^ (53 - d)), d - 53)).
  { unfold shl_align. destruct (d - 53 - 0) as [|k|k] eqn:E; try lia.
    - replace (53 - d) with 0 by lia. change (2 ^ 0) with 1.
      rewrite Z.mul_1_r. cbn [Z.to_pos]. f_equal. lia.
    - f_equal. apply Pos2Z.inj. rewrite iter_xO, to_pos_shift by lia.
      f_equal. f_equal. lia. }
  rewrite A.
  pose proof (round_exact false (Z.to_pos (Zpos p * 2 ^ (53 - d))) 0 (d - 53)
                (Z.le_refl 0)) as R.
  change (2 ^ 0) with 1 in R. rewrite Z.mul_1_r, Z.add_0_r in R.
  rewrite R; [f_equal; lia|].
  pose proof (dyadic_bounded p 0 (proj2 Hv)) as B. cbv zeta in B. fold d in B.
  rewrite Z.sub_0_r in B. apply B; lia.
Qed.

Lemma F2Z_Z2F (w : Z) : 0 <= w < 2 ^ 53 -> JS.F2Z (JS.Z2F w) = w.
Proof.
  intros Hw. unfold JS.F2Z. rewrite (Z2F_dyadic w Hw).
  destruct w as [|p|p]; try lia; [reflexivity|].
  unfold Laws.dyadic. pose proof (digits_le p 53 (proj2 Hw)) as Hd.
  set (d := Zpos (digits2_pos p)) in *.
  assert (Hd0 : 0 < d) by (unfold d; lia).
  rewrite Z.sub_0_r, to_pos_shift by lia.
  destruct (d - 53) as [|k|k] eqn:E; try lia.
  - replace (53 - d) with 0 by lia. rewrite Z.shiftl_0_r. change (2 ^ 0) with 1. lia.
  - rewrite Z.shiftr_div_pow2 by lia. replace (53 - d) with (Zpos k) by lia.
    apply Z.div_mul. apply Z.pow_nonzero; lia.
Qed.

(** Division by 2^32 of an integer below 2^32. *)
Lemma div_dyadic (x : float) (v : Z) :
  0 <= v < 2 ^ 32 -> Prim2SF x = Laws.dyadic v 0 ->
  Prim2SF (x / 4294967296) = Laws.dyadic v 32.
Proof.
  intros Hv Hx. rewrite div_spec, Hx.
  change (Prim2SF 4294967296) with (S754_finite false 4503599627370496 (-20)).
  destruct v as [|p|p]; try lia; [reflexivity|].
  unfold Laws.dyadic.
  assert (Hp : Zpos p < 2 ^ 53) by (apply Z.lt_trans with (2 ^ 32); [lia | reflexivity]).
  pose proof (digits_le p 32 (proj2 Hv)) as Hd.
  pose proof (dyadic_bounded p 32 Hp) as B. cbv zeta in B.
  set (d := Zpos (digits2_pos p)) in *.
  assert (Hd0 : 0 < d) by (unfold d; lia).
  set (m := Z.to_pos (Zpos p * 2 ^ (53 - d))) in *.
  assert (Dm : Zpos (digits2_pos m) = 53).
  { unfold m. rewrite digits_to_pos_shift by lia. fold d. lia. }
  unfold SF64div, SFdiv, SFdiv_core_binary. cbn [Zdigits2 xorb].
  rewrite Dm. change (Zpos (digits2_pos 4503599627370496)) with 53.
  rewrite fexp64.
  replace (Z.min (Z.max (53 + (d - 53 - 0) - (53 + -20) - 53) (-1074)) (d - 53 - 0 - -20))
    with (d - 86) by lia.
  replace (d - 53 - 0 - -20 - (d - 86)) with 53 by lia.
  rewrite Z.shiftl_mul_pow2 by lia.
  assert (Q : Z.div_eucl (Zpos m * 2 ^ 53) 4503599627370496 = (Zpos m * 2 ^ 1, 0)).
  { pose proof (Z.div_eucl_eq (Zpos m * 2 ^ 53) 4503599627370496) as E.
    pose proof (Z.mod_pos_bound (Zpos m * 2 ^ 53) 4503599627370496) as Bm.
    unfold Z.modulo in Bm.
    destruct (Z.div_eucl (Zpos m * 2 ^ 53) 4503599627370496) as [q r].
    change (2 ^ 53) with 9007199254740992 in *. change (2 ^ 1) with 2.
    assert (q = Zpos m * 2 /\ r = 0) as [-> ->] by lia. reflexivity. }
  rewrite Q. change (new_location 4503599627370496 0) with loc_Exact.
  rewrite round_exact.
  - f_equal. lia.
  - lia.
  - replace (d - 86 + 1) with (d - 53 - 32) by lia. apply B; lia.
Qed.

Lemma digits_mul_ge (a b c : positive) :
  Zpos c = Zpos a * Zpos b ->
  Zpos (digits2_pos a) + Zpos (digits2_pos b) - 1 <= Zpos (digits2_pos c).
Proof.
  intros E. pose proof (digits2_pos_bounds a) as [A1 _].
  pose proof (digits2_pos_bounds b) as [B1 _].
  pose proof (digits2_pos_bounds c) as [_ C2].
  set (da := Zpos (digits2_pos a)) in *. set (db := Zpos (digits2_pos b)) in *.
  set (dc := Zpos (digits2_pos c)) in *.
  assert (0 < da /\ 0 < db /\ 0 < dc) as (Ha & Hb & Hc) by (unfold da, db, dc; lia).
  assert (L : 2 ^ (da - 1 + (db - 1)) <= Zpos c).
  { rewrite Z.pow_add_r, E by lia.
    apply Z.mul_le_mono_nonneg; try lia; apply Z.pow_nonneg; lia. }
  assert (2 ^ (da - 1 + (db - 1)) < 2 ^ dc) by lia.
  apply Z.pow_lt_mono_r_iff in H; lia.
Qed.

(** The product of two such numbers, when it still fits in 53 bits. *)
Lemma mul_dyadic (x y : float) (a b sa sb : Z) :
  0 <= a -> 0 <= b -> a * b < 2 ^ 53 ->
  -1021 <= - (sa + sb) -> - (sa + sb) <= 900 ->
  Prim2SF x = Laws.dyadic a sa -> Prim2SF y = Laws.dyadic b sb ->
  Prim2SF (x * y) = Laws.dyadic (a * b) (sa + sb).
Proof.
  intros Ha Hb Hab H1 H2 Hx Hy. rewrite mul_spec, Hx, Hy.
  destruct a as [|a|a]; try lia; [destruct b; try lia; reflexivity|].
  destruct b as [|b|b]; try lia; [reflexivity|].
  change (Zpos a * Zpos b) with (Zpos (a * b)) in *.
  unfold Laws.dyadic, SF64mul. cbn [SFmul xorb].
  pose proof (digits_mul_ge a b (a * b) eq_refl) as Hd.
  pose proof (digits_le (a * b) 53 Hab) as Hc.
  pose proof (dyadic_bounded (a * b) (sa + sb) Hab H1 H2) as B. cbv zeta in B.
  assert (Ha53 : Zpos (digits2_pos a) <= 53).
  { apply digits_le. apply Z.le_lt_trans with (Zpos (a * b)); [|exact Hab]. nia. }
  assert (Hb53 : Zpos (digits2_pos b) <= 53).
  { apply digits_le. apply Z.le_lt_trans with (Zpos (a * b)); [|exact Hab]. nia. }
  set (da := Zpos (digits2_pos a)) in *. set (db := Zpos (digits2_pos b)) in *.
  set (dc := Zpos (digits2_pos (a * b))) in *.
  assert (0 < da /\ 0 < db /\ 0 < dc) as (Pa & Pb & Pc) by (unfold da, db, dc; lia).
  set (q := Z.to_pos (Zpos (a * b) * 2 ^ (53 - dc))) in *.
  set (n := 53 - da - db + dc).
  assert (E : Zpos (Z.to_pos (Zpos a * 2 ^ (53 - da)) * Z.to_pos (Zpos b * 2 ^ (53 - db)))
              = Zpos q * 2 ^ n).
  { rewrite Pos2Z.inj_mul. unfold q. rewrite !to_pos_shift by lia.
    rewrite Pos2Z.inj_mul.
    transitivity (Zpos a * Zpos b * (2 ^ (53 - da) * 2 ^ (53 - db))); [ring|].
    rewrite <- Z.pow_add_r by lia.
    transitivity (Zpos a * Zpos b * (2 ^ (53 - dc) * 2 ^ n)); [|ring].
    rewrite <- Z.pow_add_r by (unfold n; lia). do 2 f_equal. unfold n. lia. }
  rewrite E, round_exact.
  - f_equal. unfold n. lia.
  - unfold n. lia.
  - replace (da - 53 - sa + (db - 53 - sb) + n) with (dc - 53 - (sa + sb))
      by (unfold n; lia).
    exact B.
Qed.

(** [Math.floor] followed by the conversion to an index. *)
Lemma floor_dyadic (x : float) (v sh : Z) :
  0 <= v < 2 ^ 53 -> 0 <= sh -> Prim2SF x = Laws.dyadic v sh ->
  JS.F2Z (JS.floor x) = v / 2 ^ sh.
Proof.
  intros Hv Hs Hx.
  destruct v as [|p|p]; try lia.
  { unfold JS.floor, JS.F2Z. rewrite Hx. cbn [Laws.dyadic]. rewrite Hx.
    cbn [Laws.dyadic]. now rewrite Z.div_0_l by (apply Z.pow_nonzero; lia). }
  unfold JS.floor. rewrite Hx. unfold Laws.dyadic.
  pose proof (digits_le p 53 (proj2 Hv)) as Hd.
  set (d := Zpos (digits2_pos p)) in *.
  assert (Hd0 : 0 < d) by (unfold d; lia).
  assert (P : 0 < 2 ^ sh) by (apply Z.pow_pos_nonneg; lia).
  destruct (d - 53 - sh) as [|k|k] eqn:E; try lia.
  - unfold JS.F2Z. rewrite Hx. unfold Laws.dyadic. fold d. rewrite E.
    rewrite Z.shiftl_0_r, to_pos_shift by lia.
    replace (53 - d) with 0 by lia. replace sh with 0 by lia.
    change (2 ^ 0) with 1. rewrite Z.mul_1_r, Z.div_1_r. reflexivity.
  - rewrite Z.shiftr_div_pow2, to_pos_shift by lia.
    assert (Q : Zpos p * 2 ^ (53 - d) / 2 ^ Zpos k = Zpos p / 2 ^ sh).
    { replace (Zpos k) with (53 - d + sh) by lia.
      rewrite Z.pow_add_r by lia.
      rewrite <- Z.div_div by (try lia; apply Z.pow_pos_nonneg; lia).
      rewrite Z.div_mul by (apply Z.pow_nonzero; lia). reflexivity. }
    rewrite Q. apply F2Z_Z2F. split.
    + apply Z.div_pos; lia.
    + apply Z.le_lt_trans with (Zpos p); [|lia].
      apply Z.div_le_upper_bound; [lia|]. nia.
Qed.

Lemma lxor_u32 (a b : Z) :
  0 <= a < 2 ^ 32 -> 0 <= b < 2 ^ 32 -> 0 <= Z.lxor a b < 2 ^ 32.
Proof.
  intros Ha Hb. split; [apply Z.lxor_nonneg; lia|].
  destruct (Z.eq_dec (Z.lxor a b) 0) as [E|N]; [rewrite E; reflexivity|].
  assert (P : 0 < Z.lxor a b) by (assert (0 <= Z.lxor a b) by (apply Z.lxor_nonneg; lia); lia).
  apply Z.log2_lt_pow2; [exact P|].
  apply Z.le_lt_trans with (Z.max (Z.log2 a) (Z.log2 b)).
  - apply Z.log2_lxor; lia.
  - apply Z.max_lub_lt.
    + destruct (Z.eq_dec a 0) as [->|]; [reflexivity | apply Z.log2_lt_pow2; lia].
    + destruct (Z.eq_dec b 0) as [->|]; [reflexivity | apply Z.log2_lt_pow2; lia].
Qed.

Lemma u32_range (z : Z) : 0 <= Prng.u32 z < 2 ^ 32.
Proof. unfold Prng.u32. apply Z.mod_pos_bound. reflexivity. Qed.

Lemma shiftr_u32 (a k : Z) : 0 <= k -> 0 <= a < 2 ^ 32 -> 0 <= Z.shiftr a k < 2 ^ 32.
Proof.
  intros Hk Ha. rewrite Z.shiftr_div_pow2 by exact Hk.
  assert (P : 0 < 2 ^ k) by (apply Z.pow_pos_nonneg; lia). split.
  - apply Z.div_pos; lia.
  - apply Z.le_lt_trans with a; [|lia]. apply Z.div_le_upper_bound; [lia|]. nia.
Qed.

(** Every draw is an integer below 2^32 over 2^32, exactly. *)
Lemma next_dyadic (a : Prng.state) :
  exists u, 0 <= u < 2 ^ 32 /\ Prim2SF (fst (Prng.next a)) = Laws.dyadic u 32.
Proof.
  unfold Prng.next. cbv zeta. cbn [fst].
  set (t := Z.lxor (Prng.u32 _) _).
  assert (Ht : 0 <= t < 2 ^ 32).
  { unfold t. apply lxor_u32; [apply u32_range | unfold Prng.imul; apply u32_range]. }
  exists (Z.lxor t (Z.shiftr t 14)).
  assert (Hu : 0 <= Z.lxor t (Z.shiftr t 14) < 2 ^ 32).
  { apply lxor_u32; [exact Ht | apply shiftr_u32; [lia | exact Ht]]. }
  split; [exact Hu|].
  apply div_dyadic; [exact Hu|]. apply Z2F_dyadic.
  split; [lia|]. apply Z.lt_trans with (2 ^ 32); [lia | reflexivity].
Qed.

Lemma dyadic_unit_interval (x : float) (u : Z) :
  0 <= u < 2 ^ 32 -> Prim2SF x = Laws.dyadic u 32 ->
  (0 <=? x)%float = true /\ (x <? 1)%float = true.
Proof.
  intros Hu Hx. rewrite leb_spec, ltb_spec, Hx, Prim2SF_zero.
  change (Prim2SF 1) with (S754_finite false 4503599627370496 (-52)).
  destruct u as [|p|p]; try lia; [split; reflexivity|].
  unfold Laws.dyadic. pose proof (digits_le p 32 (proj2 Hu)) as Hd.
  split; [reflexivity|].
  unfold SFltb, SFcompare.
  replace (Zpos (digits2_pos p) - 53 - 32 ?= -52) with Lt; [reflexivity|].
  symmetry. apply Z.compare_lt_iff. lia.
Qed.

Lemma draws_range (a : Prng.state) :
  (0 <=? fst (Prng.next a))%float = true /\ (fst (Prng.next a) <? 1)%float = true.
Proof.
  destruct (next_dyadic a) as (u & Hu & E).
  exact (dyadic_unit_interval _ u Hu E).
Qed.

(** ** The range of the draws *)

(** X22.  Every draw of the Mulberry32 closure lies in [0, 1): whatever the
    state (any integer seed), the returned number [d] satisfies [0 <= d] and
    [d < 1]. *)
Theorem draws_in_unit_interval (a : Prng.state) :
  (0 <=? fst (Prng.next a))%float = true /\ (fst (Prng.next a) <? 1)%float = true.
Proof. exact (draws_range a). Qed.

(** ** The permutation table *)

Lemma nth_error_set (p : list Z) (i k : nat) (v : Z) :
  (i < length p)%nat ->
  nth_error (Noise.set p i v) k = if (k =? i)%nat then Some v else nth_error p k.
Proof.
  revert i k. induction p as [|x r IH]; intros i k H; cbn [length] in H; [lia|].
  destruct i as [|i]; destruct k as [|k]; cbn [Noise.set nth_error Nat.eqb];
    try reflexivity.
  apply IH. lia.
Qed.

(** One exchange of the Fisher-Yates loop permutes the array. *)
Lemma swap_perm (p : list Z) (n j : nat) :
  (n < length p)%nat -> (j < length p)%nat ->
  Permutation p
    (Noise.set (Noise.set p n (Noise.get p (Z.of_nat j))) j (Noise.get p (Z.of_nat n))).
Proof.
  intros Hn Hj. apply Permutation_nth_error. split.
  - now rewrite !set_length.
  - exists (fun k => if (k =? j)%nat then n else if (k =? n)%nat then j else k).
    split.
    + intros x y.
      destruct (Nat.eqb_spec x j); destruct (Nat.eqb_spec y j);
        destruct (Nat.eqb_spec x n); destruct (Nat.eqb_spec y n); lia.
    + intros k. unfold Noise.get. rewrite !Nat2Z.id.
      rewrite nth_error_set by (rewrite set_length; exact Hj).
      destruct (Nat.eqb_spec k j) as [->|N].
      * symmetry. now apply nth_error_nth'.
      * rewrite nth_error_set by exact Hn.
        destruct (Nat.eqb_spec k n) as [->|N']; [|reflexivity].
        symmetry. now apply nth_error_nth'.
Qed.

(** The index drawn at step [i] of the shuffle is one of [0 .. i]. *)
Lemma shuffle_index (rng : Prng.state) (i : Z) :
  0 <= i <= 255 ->
  0 <= JS.F2Z (JS.floor (fst (Prng.next rng) * JS.Z2F (i + 1))) <= i.
Proof.
  intros Hi. destruct (next_dyadic rng) as (u & Hu & E).
  assert (B : 2 ^ 32 * 256 < 2 ^ 53) by reflexivity.
  assert (P : Prim2SF (fst (Prng.next rng) * JS.Z2F (i + 1))
              = Laws.dyadic (u * (i + 1)) (32 + 0)).
  { apply mul_dyadic; try lia; [nia | exact E | apply Z2F_dyadic; lia]. }
  rewrite (floor_dyadic _ (u * (i + 1)) (32 + 0)); [| split; nia | lia | exact P].
  change (32 + 0) with 32. split.
  - apply Z.div_pos; [nia | reflexivity].
  - apply Z.lt_succ_r. apply Z.div_lt_upper_bound; [reflexivity | nia].
Qed.

Lemma shuffle_perm (n : nat) :
  forall (p : list Z) (rng : Prng.state),
    (n < length p)%nat -> (n <= 255)%nat ->
    Permutation p (Noise.shuffle n p rng).
Proof.
  induction n as [|m IH]; intros p rng Hn Hm; [reflexivity|].
  cbn [Noise.shuffle].
  pose proof (shuffle_index rng (Z.of_nat (S m))) as J.
  destruct (Prng.next rng) as [r rng']. cbn [fst] in J.
  set (j := JS.F2Z (JS.floor (r * JS.Z2F (Z.of_nat (S m) + 1)))) in *.
  assert (Hj : 0 <= j <= Z.of_nat (S m)) by (apply J; lia).
  apply perm_trans with
    (Noise.set (Noise.set p (S m) (Noise.get p j)) (Z.to_nat j)
               (Noise.get p (Z.of_nat (S m)))).
  - replace (Noise.get p j) with (Noise.get p (Z.of_nat (Z.to_nat j)))
      by (rewrite Z2Nat.id by lia; reflexivity).
    apply swap_perm; lia.
  - apply IH; rewrite ?set_length; lia.
Qed.

Lemma shuffled_length (s : Z) : length (Noise.shuffled s) = 256%nat.
Proof.
  assert (P : Permutation (map Z.of_nat (seq 0 256)) (Noise.shuffled s)).
  { unfold Noise.shuffled. apply shuffle_perm; rewrite ?length_map, ?length_seq; lia. }
  apply Permutation_length in P. rewrite <- P, length_map, length_seq. reflexivity.
Qed.

Lemma land_255 (i : nat) : Z.land (Z.of_nat i) 255 = Z.of_nat i mod 256.
Proof. change 255 with (Z.ones 8). rewrite Z.land_ones by lia. reflexivity. Qed.

Lemma get_byte (t : list Z) (i : Z) :
  Forall (fun v => 0 <= v < 256) t -> 0 <= Noise.get t i < 256.
Proof.
  intros F. unfold Noise.get.
  destruct (Nat.lt_ge_cases (Z.to_nat i) (length t)) as [Lt|Ge].
  - rewrite Forall_forall in F. apply F. now apply nth_In.
  - rewrite nth_overflow by exact Ge. lia.
Qed.

(** X23.  [seed(s)] leaves a well-formed table for every seed.  The first
    256 entries are a permutation of 0..255 (each value exactly once); the
    second half repeats the first; every entry is a byte; and so the nested
    lookups [perm[ii + i1 + perm[jj + j1 + perm[kk + k1]]]] of [simplex3],
    with [ii], [jj], [kk] bytes and offsets 0 or 1, stay inside the 512
    entries.  The index [floor(rng() * (i + 1))] drawn at step [i] of the
    shuffle is one of [0 .. i], never outside the array. *)
Theorem seed_table (s : Z) (st : Noise.State) :
  Noise.wf st ->
  Noise.perm (Noise.seed s st) = Noise.shuffled s ++ Noise.shuffled s
  /\ Permutation (map Z.of_nat (seq 0 256)) (Noise.shuffled s)
  /\ Forall (fun v => 0 <= v < 256) (Noise.perm (Noise.seed s st))
  /\ (forall ii jj kk i1 j1 k1 : Z,
        0 <= ii <= 255 -> 0 <= jj <= 255 -> 0 <= kk <= 255 ->
        0 <= i1 <= 1 -> 0 <= j1 <= 1 -> 0 <= k1 <= 1 ->
        let t := Noise.perm (Noise.seed s st) in
        0 <= kk + k1 < 512
        /\ 0 <= jj + j1 + Noise.get t (kk + k1) < 512
        /\ 0 <= ii + i1 + Noise.get t (jj + j1 + Noise.get t (kk + k1)) < 512)
  /\ (forall (rng : Prng.state) (i : Z),
        0 <= i <= 255 ->
        0 <= JS.F2Z (JS.floor (fst (Prng.next rng) * JS.Z2F (i + 1))) <= i).
Proof.
  intros W. unfold Noise.wf in W.
  assert (P : Permutation (map Z.of_nat (seq 0 256)) (Noise.shuffled s)).
  { unfold Noise.shuffled. apply shuffle_perm; rewrite ?length_map, ?length_seq; lia. }
  pose proof (shuffled_length s) as L.
  assert (E : Noise.perm (Noise.seed s st) = Noise.shuffled s ++ Noise.shuffled s).
  { unfold Noise.seed. cbv zeta. cbn [Noise.perm].
    pose proof (overwrite_all
      (fun i => Noise.get (Noise.shuffled s) (Z.land (Z.of_nat i) 255))
      (Noise.perm st)) as O.
    rewrite W in O. rewrite O.
    apply (nth_ext _ _ 0 0).
    - rewrite length_map, length_seq, length_app, L. reflexivity.
    - intros i Hi. rewrite length_map, length_seq in Hi.
      rewrite (nth_indep _ 0
        (Noise.get (Noise.shuffled s) (Z.land (Z.of_nat 0) 255)))
        by (rewrite length_map, length_seq; exact Hi).
      rewrite (map_nth (fun i => Noise.get (Noise.shuffled s) (Z.land (Z.of_nat i) 255))).
      rewrite seq_nth by exact Hi. cbn [Nat.add].
      unfold Noise.get. rewrite land_255.
      destruct (Nat.lt_ge_cases i 256) as [Lt|Ge].
      + rewrite Z.mod_small by lia. rewrite Nat2Z.id, app_nth1 by lia. reflexivity.
      + rewrite app_nth2 by lia. rewrite L. f_equal.
        replace (Z.of_nat i) with (Z.of_nat (i - 256) + 1 * 256) by lia.
        rewrite Z.mod_add by lia. rewrite Z.mod_small by lia. apply Nat2Z.id. }
  assert (F : Forall (fun v => 0 <= v < 256) (Noise.shuffled s)).
  { apply (Permutation_Forall P). apply Forall_forall. intros v Hv.
    apply in_map_iff in Hv. destruct Hv as (k & <- & Hk). apply in_seq in Hk. lia. }
  assert (F2 : Forall (fun v => 0 <= v < 256) (Noise.perm (Noise.seed s st))).
  { rewrite E. apply Forall_app. split; exact F. }
  split; [exact E|]. split; [exact P|]. split; [exact F2|].
  split; [|intros rng i; apply shuffle_index].
  intros ii jj kk i1 j1 k1 Hi Hj Hk Hi1 Hj1 Hk1 t.
  pose proof (get_byte t (kk + k1) F2) as G1.
  pose proof (get_byte t (jj + j1 + Noise.get t (kk + k1)) F2) as G2.
  lia.
Qed.

Lemma seed_table_witness :
  Permutation (map Z.of_nat (seq 0 256)) (Noise.shuffled 42).
Proof.
  refine (proj1 (proj2 (seed_table 42 Noise.initial _))). reflexivity.
Defined.

(** ** Surface fill *)

Lemma densityAcceptance_surface (M : MathLib) (st : Noise.State) (p : Point)
    (dist : float) (dp : Params) (rng : Prng.state) :
  ((0 <? densityNoise dp) && (0 <? densityNoiseFreq dp))%float = false ->
  fst (Generate.densityAcceptance M st p dist Surface dp rng) = true.
Proof.
  intros H. unfold Generate.densityAcceptance.
  destruct ((JS.orElse (densityFalloff dp) 0 <=? 0)%float
            && (JS.orElse (densityNoise dp) 0 <=? 0)%float); [reflexivity|].
  cbn [andb]. rewrite !orElse0_ltb, H.
  pose proof (draws_range rng) as [_ D].
  destruct (Prng.next rng) as [r rng']. cbn [fst] in *. exact D.
Qed.

Lemma ellipsoidBody_surface (M : MathLib) (st : Noise.State) (rx ry rz : float)
    (dp : Params) :
  ((0 <? densityNoise dp) && (0 <? densityNoiseFreq dp))%float = false ->
  Laws.accepting (Generate.ellipsoidBody M st rx ry rz Surface dp).
Proof.
  intros H l. unfold Generate.ellipsoidBody.
  destruct (Generate.marsaglia (Generate.rng l)) as [[[u v] s] rng1].
  match goal with |- context [Generate.densityAcceptance M st ?p ?d Surface dp ?r] =>
    pose proof (densityAcceptance_surface M st p d dp r H) as A;
    destruct (Generate.densityAcceptance M st p d Surface dp r) as [ok rng2] end.
  cbn [fst] in A. subst ok. apply push_accepting.
Qed.

Lemma torusBody_surface (M : MathLib) (st : Noise.State) (majorR minorR : float)
    (dp : Params) :
  ((0 <? densityNoise dp) && (0 <? densityNoiseFreq dp))%float = false ->
  Laws.accepting (Generate.torusBody M st majorR minorR Surface dp).
Proof.
  intros H l. unfold Generate.torusBody.
  destruct (Prng.next (Generate.rng l)) as [d1 rng1].
  destruct (Prng.next rng1) as [d2 rng2].
  match goal with |- context [Generate.densityAcceptance M st ?p ?d Surface dp ?r] =>
    pose proof (densityAcceptance_surface M st p d dp r H) as A;
    destruct (Generate.densityAcceptance M st p d Surface dp r) as [ok rng3] end.
  cbn [fst] in A. subst ok. apply push_accepting.
Qed.

(** X24.  On surface fill the falloff control has no effect on acceptance:
    when the density noise is off ([densityNoise] or [densityNoiseFreq] not
    positive) the probability stays 1 and, every draw being below 1, no
    candidate is rejected, whatever [densityFalloff] is.  For a requested
    count [n >= 0] the ellipsoid, sphere and torus samplers return exactly
    [n] points in exactly [n] trials. *)
Theorem surface_fill_ignores_falloff (M : MathLib) (st : Noise.State) (n : Z)
    (rx ry rz radius majorR minorR : float) (seed : Z) (dp : Params) :
  0 <= n ->
  ((0 <? densityNoise dp) && (0 <? densityNoiseFreq dp))%float = false ->
  (Z.of_nat (length (Generate.generateEllipsoid M st n rx ry rz Surface seed dp)) = n
   /\ Generate.attempts (Generate.ellipsoidRun M st n rx ry rz Surface seed dp) = n)
  /\ (Z.of_nat (length (Generate.generateSphere M st n radius Surface seed dp)) = n
      /\ Generate.attempts (Generate.sphereRun M st n radius Surface seed dp) = n)
  /\ (Z.of_nat (length (Generate.generateTorus M st n majorR minorR Surface seed dp)) = n
      /\ Generate.attempts (Generate.torusRun M st n majorR minorR Surface seed dp) = n).
Proof.
  intros Hn H.
  split; [|split]; apply (sampleLoop_accepting n seed); try exact Hn.
  - now apply ellipsoidBody_surface.
  - now apply ellipsoidBody_surface.
  - now apply torusBody_surface.
Qed.

Lemma surface_fill_ignores_falloff_witness :
  Z.of_nat (length (Generate.generateTorus approxMath Examples.used 25 60 20 Surface 7
                      Samples.falloffOnly)) = 25.
Proof.
  refine (proj1 (proj2 (proj2
    (surface_fill_ignores_falloff approxMath Examples.used 25 40 30 100 50 60 20 7
       Samples.falloffOnly _ _)))).
  - lia.
  - reflexivity.
Defined.

(** ** Depth ordering of the returned sequence *)

Lemma darkBand_depth (params : Params) (birds : list Projection.Bird) :
  map Projection.depth (Projection.darkBand params birds) = map Projection.depth birds.
Proof.
  unfold Projection.darkBand. destruct (darkBandEnabled params); cbv zeta;
    rewrite map_map; apply map_ext; intros b.
  - destruct (Projection.cellOf _ b) as [col row].
    destruct (Projection.inGrid _ _ col row); reflexivity.
  - reflexivity.
Qed.

Lemma darkBand_nil (params : Params) : Projection.darkBand params [] = [].
Proof. unfold Projection.darkBand. now destruct (darkBandEnabled params). Qed.

(** C3.  The sequence [projectScene] returns, its depths being numbers, is
    non-decreasing in depth.  It is the depth sort of the list the
    per-point loop and the two whole-batch passes (scale and opacity, dark
    band) leave: sorting is the last thing the function does.  The sort
    keeps every primitive of that list (the result is a permutation of it,
    one primitive for each point the loop kept), and the passes before it
    leave the depths the loop computed. *)
Theorem projectScene_sorted (M : MathLib) (st : Noise.State) (pts : list Point)
    (params : Params) :
  Spec.depthsAreNumbers (Projection.projectScene M st pts params) = true ->
  let birds := Projection.collect M st params 0 pts in
  let minZ := fst (Projection.depthRange birds) in
  let maxZ := snd (Projection.depthRange birds) in
  let passed :=
    Projection.darkBand params
      (map (Projection.shade M params minZ (JS.orElse (maxZ - minZ) 1)) birds) in
  Sorted Spec.depthLe (Projection.projectScene M st pts params)
  /\ Projection.projectScene M st pts params
     = Projection.sortBy Projection.byDepth passed
  /\ Permutation passed (Projection.projectScene M st pts params)
  /\ length (Projection.projectScene M st pts params) = length birds
  /\ map Projection.depth passed = map Projection.depth birds.
Proof.
  intros H birds minZ maxZ passed.
  assert (E : Projection.projectScene M st pts params
              = Projection.sortBy Projection.byDepth passed).
  { unfold Projection.projectScene, passed, minZ, maxZ. cbv zeta. fold birds.
    destruct birds as [|c cs]; [now rewrite darkBand_nil|].
    now destruct (Projection.depthRange (c :: cs)). }
  assert (P : Permutation passed (Projection.projectScene M st pts params)).
  { rewrite E. apply Permutation_sym. apply sortBy_perm. }
  split; [|split; [exact E|split; [exact P|split]]].
  - rewrite E. apply sortBy_sorted. intros b Hb.
    unfold Spec.depthsAreNumbers in H. rewrite forallb_forall in H.
    assert (Hin : In b (Projection.projectScene M st pts params)).
    { apply (Permutation_in b P). exact Hb. }
    specialize (H b Hin). unfold Spec.isNumber in H.
    now destruct (is_nan (Projection.depth b)).
  - rewrite <- (Permutation_length P). unfold passed.
    now rewrite darkBand_length, length_map.
  - unfold passed. rewrite darkBand_depth, map_map. apply map_ext. reflexivity.
Qed.

Lemma projectScene_sorted_witness :
  Spec.depthsAreNumbers
    (Projection.projectScene approxMath Examples.used Examples.cloud Examples.params)
  = true
  /\ Sorted Spec.depthLe
       (Projection.projectScene approxMath Examples.used Examples.cloud Examples.params)
  /\ length (Projection.projectScene approxMath Examples.used Examples.cloud
               Examples.params) = 4%nat.
Proof.
  assert (H : Spec.depthsAreNumbers
                (Projection.projectScene approxMath Examples.used Examples.cloud
                   Examples.params) = true) by (vm_compute; reflexivity).
  split; [exact H|].
  destruct (projectScene_sorted approxMath Examples.used Examples.cloud
              Examples.params H) as (S & _ & _ & L & _).
  split; [exact S|]. rewrite L. vm_compute. reflexivity.
Defined.

(** ** The pose classes *)

Lemma poseOf_classes (v : float) :
  ((v <? 0.35)%float = true -> Projection.poseOf v = 0)
  /\ ((0.35 <=? v)%float = true -> (v <? 0.55)%float = true -> Projection.poseOf v = 1)
  /\ ((0.55 <=? v)%float = true -> (v <? 0.75)%float = true -> Projection.poseOf v = 2)
  /\ ((0.75 <=? v)%float = true -> Projection.poseOf v = 3)
  /\ (is_nan v = true -> Projection.poseOf v = 3).
Proof.
  assert (K1 : Laws.key 0.35 < Laws.key 0.55) by (vm_compute; reflexivity).
  assert (K2 : Laws.key 0.55 < Laws.key 0.75) by (vm_compute; reflexivity).
  unfold Projection.poseOf.
  split; [|split; [|split; [|split]]].
  - intros H. now rewrite H.
  - intros L H. now rewrite (leb_not_ltb _ _ L), H.
  - intros L H. apply leb_true in L. destruct L as (N1 & Nv & L).
    rewrite !(ltb_key v) by (assumption || reflexivity).
    rewrite (ltb_key v) in H by (assumption || reflexivity).
    apply Z.ltb_lt in H.
    replace (Laws.key v <? Laws.key 0.35) with false by (symmetry; apply Z.ltb_ge; lia).
    replace (Laws.key v <? Laws.key 0.55) with false by (symmetry; apply Z.ltb_ge; lia).
    replace (Laws.key v <? Laws.key 0.75) with true by (symmetry; apply Z.ltb_lt; lia).
    reflexivity.
  - intros L. apply leb_true in L. destruct L as (N1 & Nv & L).
    rewrite !(ltb_key v) by (assumption || reflexivity).
    replace (Laws.key v <? Laws.key 0.35) with false by (symmetry; apply Z.ltb_ge; lia).
    replace (Laws.key v <? Laws.key 0.55) with false by (symmetry; apply Z.ltb_ge; lia).
    replace (Laws.key v <? Laws.key 0.75) with false by (symmetry; apply Z.ltb_ge; lia).
    reflexivity.
  - intros N. now rewrite !ltb_nan by auto.
Qed.

(** C8.  The pose index of a primitive is a function of the world position
    of its point alone.  With pose variation on and a positive
    [poseNoiseFreq] it is the class of the value
    v = (simplex3(p * poseNoiseFreq) + 1) * 0.5 under the thresholds
    0.35, 0.55 and 0.75: 0 for v < 0.35, 1 for 0.35 <= v < 0.55, 2 for
    0.55 <= v < 0.75 and 3 for 0.75 <= v; otherwise it is 0.  Hence a point
    that survives under two settings of the camera angles gets the same
    pose index under both, and every primitive [projectScene] returns
    carries the pose index of a point of the cloud. *)
Theorem poseIndex_camera_independent (M : MathLib) (st : Noise.State)
    (params : Params) (i : Z) (p : Point) (rx ry rz rx' ry' rz' : float)
    (b b' : Projection.Bird) :
  Projection.projectPoint M st (Spec.withCamera params rx ry rz) i p = Some b ->
  Projection.projectPoint M st (Spec.withCamera params rx' ry' rz') i p = Some b' ->
  Projection.poseIndex b = Projection.poseIndex b'
  /\ Projection.poseIndex b = Projection.poseIndexAt st params p
  /\ (poseVariation params = true -> (0 <? poseNoiseFreq params)%float = true ->
      let v := ((Noise.simplex3 st (px p * poseNoiseFreq params)
                   (py p * poseNoiseFreq params) (pz p * poseNoiseFreq params) + 1)
                * 0.5)%float in
      ((v <? 0.35)%float = true -> Projection.poseIndex b = 0)
      /\ ((0.35 <=? v)%float = true -> (v <? 0.55)%float = true ->
          Projection.poseIndex b = 1)
      /\ ((0.55 <=? v)%float = true -> (v <? 0.75)%float = true ->
          Projection.poseIndex b = 2)
      /\ ((0.75 <=? v)%float = true -> Projection.poseIndex b = 3))
  /\ (poseVariation params = false \/ (0 <? poseNoiseFreq params)%float = false ->
      Projection.poseIndex b = 0)
  /\ (forall pts c,
        In c (Projection.projectScene M st pts (Spec.withCamera params rx ry rz)) ->
        exists k q, nth_error pts k = Some q
                    /\ Projection.poseIndex c = Projection.poseIndexAt st params q).
Proof.
  intros H H'. apply projectPoint_Some in H, H'.
  destruct H as (_ & Hp & _), H' as (_ & Hp' & _).
  change (Projection.poseIndexAt st (Spec.withCamera params rx ry rz) p)
    with (Projection.poseIndexAt st params p) in Hp.
  change (Projection.poseIndexAt st (Spec.withCamera params rx' ry' rz') p)
    with (Projection.poseIndexAt st params p) in Hp'.
  split; [congruence|]. split; [exact Hp|]. split; [|split].
  - intros Hv Hf v. rewrite Hp. unfold Projection.poseIndexAt.
    rewrite Hv, Hf. cbn [andb]. cbv zeta. fold v.
    destruct (poseOf_classes v) as (C0 & C1 & C2 & C3 & _).
    split; [exact C0|]. split; [exact C1|]. split; [exact C2|exact C3].
  - intros Hoff. rewrite Hp. unfold Projection.poseIndexAt.
    destruct Hoff as [Hoff|Hoff]; rewrite Hoff; [reflexivity|].
    now rewrite andb_false_r.
  - intros pts c Hc. apply projectScene_In in Hc.
    destruct Hc as (b0 & dens & Hin & Hb).
    apply collect_In in Hin. destruct Hin as (k & q & Hk & Hq).
    apply projectPoint_Some in Hq. destruct Hq as (_ & Hq & _).
    exists k, q. split; [exact Hk|]. subst c. cbn. exact Hq.
Qed.

Lemma poseIndex_camera_independent_witness :
  exists b b',
    Projection.projectPoint approxMath Examples.used
      (Spec.withCamera Examples.params 0.3 0.5 0) 2 (mkPoint 10 (-20) 30) = Some b
    /\ Projection.projectPoint approxMath Examples.used
         (Spec.withCamera Examples.params 1.25 (-2) 0.5) 2 (mkPoint 10 (-20) 30) = Some b'
    /\ Projection.poseIndex b = Projection.poseIndex b'.
Proof.
  assert (N : isSome (Projection.projectPoint approxMath Examples.used
                        (Spec.withCamera Examples.params 0.3 0.5 0) 2
                        (mkPoint 10 (-20) 30)) = true) by (vm_compute; reflexivity).
  assert (N' : isSome (Projection.projectPoint approxMath Examples.used
                         (Spec.withCamera Examples.params 1.25 (-2) 0.5) 2
                         (mkPoint 10 (-20) 30)) = true) by (vm_compute; reflexivity).
  destruct (Projection.projectPoint approxMath Examples.used
              (Spec.withCamera Examples.params 0.3 0.5 0) 2 (mkPoint 10 (-20) 30))
    as [b|] eqn:H; [|discriminate N].
  destruct (Projection.projectPoint approxMath Examples.used
              (Spec.withCamera Examples.params 1.25 (-2) 0.5) 2 (mkPoint 10 (-20) 30))
    as [b'|] eqn:H'; [|discriminate N'].
  exists b, b'. split; [reflexivity|]. split; [reflexivity|].
  exact (proj1 (poseIndex_camera_independent approxMath Examples.used
                  Examples.params 2 (mkPoint 10 (-20) 30) _ _ _ _ _ _ b b' H H')).
Defined.

(** ** The density acceptance rule *)



(** The hypothesis on the frequency is needed: with [densityNoise = 1] and
    [densityNoiseFreq = 0] the code skips the noise term and accepts the
    draw 0.627 of the generator state 1, where the rule read without the
    guard samples the noise at the origin, halves p and rejects. *)
Lemma densityAcceptance_zero_frequency :
  fst (Generate.densityAcceptance approxMath Examples.used (mkPoint 1 2 3) 0
         Surface Examples.noiseFreqZero 1)
  <> Spec.accepts
       (Spec.acceptanceProb approxMath Examples.used (mkPoint 1 2 3) 0 Surface
          Examples.noiseFreqZero) 1.
Proof. vm_compute. discriminate. Qed.

(** ** Rounding to the nearest number of the format

    The subtraction and the division of the format round the exact result
    to the nearest number, ties to even.  This is proved here from the
    format's specification for results that are not negative, on the scale
    of [key]: it gives that the rounded difference grows with its first
    operand and that a quotient of [0 <= x <= y] stays within [0, 1]. *)

Lemma rne_cases (N D : Z) :
  0 < D ->
  exists q r, N = D * q + r /\ 0 <= r < D /\ q = N / D /\ r = N mod D
              /\ (Laws.rne N D = q \/ Laws.rne N D = q + 1)
              /\ (Laws.rne N D = q + 1 -> D <= 2 * r)
              /\ (Laws.rne N D = q -> 2 * r <= D).
Proof.
  intros HD. exists (N / D), (N mod D).
  pose proof (Z.div_mod N D ltac:(lia)) as E.
  pose proof (Z.mod_pos_bound N D HD) as B.
  split; [exact E|]. split; [exact B|]. split; [reflexivity|]. split; [reflexivity|].
  unfold Laws.rne. cbv zeta.
  destruct (Z.ltb_spec (2 * (N mod D)) D);
    [|destruct (Z.ltb_spec D (2 * (N mod D))); [|destruct (Z.even (N / D))]];
    (split; [auto|split; intros; lia]).
Qed.

Lemma rne_upper (N D c : Z) : 0 < D -> N <= c * D -> Laws.rne N D <= c.
Proof.
  intros HD H. destruct (rne_cases N D HD) as (q & r & E & B & _ & _ & [R|R] & U & _).
  - rewrite R. nia.
  - specialize (U R). rewrite R. nia.
Qed.

Lemma rne_lower (N D c : Z) : 0 < D -> c * D <= N -> c <= Laws.rne N D.
Proof.
  intros HD H. destruct (rne_cases N D HD) as (q & r & E & B & _ & _ & [R|R] & _);
    rewrite R; nia.
Qed.

Lemma rne_mono (N1 N2 D : Z) : 0 < D -> N1 <= N2 -> Laws.rne N1 D <= Laws.rne N2 D.
Proof.
  intros HD H.
  pose proof (Z.div_le_mono N1 N2 D HD H) as Q.
  destruct (Z.eq_dec (N1 / D) (N2 / D)) as [Eq|Ne].
  - pose proof (Z.div_mod N1 D ltac:(lia)) as E1.
    pose proof (Z.div_mod N2 D ltac:(lia)) as E2.
    assert (R : N1 mod D <= N2 mod D) by (rewrite Eq in E1; lia).
    unfold Laws.rne. cbv zeta. rewrite Eq.
    destruct (Z.ltb_spec (2 * (N1 mod D)) D);
      destruct (Z.ltb_spec (2 * (N2 mod D)) D);
      destruct (Z.ltb_spec D (2 * (N1 mod D)));
      destruct (Z.ltb_spec D (2 * (N2 mod D)));
      destruct (Z.even (N2 / D)); lia.
  - destruct (rne_cases N1 D HD) as (q1 & r1 & _ & _ & -> & _ & R1 & _).
    destruct (rne_cases N2 D HD) as (q2 & r2 & _ & _ & -> & _ & R2 & _).
    lia.
Qed.

Lemma rne_exact (c D : Z) : 0 < D -> Laws.rne (c * D) D = c.
Proof.
  intros HD. unfold Laws.rne. cbv zeta.
  rewrite Z.mod_mul, Z.div_mul by lia.
  destruct (Z.ltb_spec (2 * 0) D); [reflexivity | lia].
Qed.

Lemma rne_scale (N D c : Z) :
  0 < D -> 0 < c -> Laws.rne (N * c) (D * c) = Laws.rne N D.
Proof.
  intros HD Hc. unfold Laws.rne. cbv zeta.
  rewrite Z.div_mul_cancel_r, Z.mul_mod_distr_r by lia.
  destruct (Z.ltb_spec (2 * (N mod D * c)) (D * c));
    destruct (Z.ltb_spec (2 * (N mod D)) D); try nia; try reflexivity.
  destruct (Z.ltb_spec (D * c) (2 * (N mod D * c)));
    destruct (Z.ltb_spec D (2 * (N mod D))); try nia; reflexivity.
Qed.

Lemma rne_nonneg (N D : Z) : 0 < D -> 0 <= N -> 0 <= Laws.rne N D.
Proof. intros HD HN. apply rne_lower; lia. Qed.

(** *** The shift records *)

Lemma shr_1_flags (D rho b : Z) (r s : bool) :
  0 < D -> 0 <= rho < D -> b = 0 \/ b = 1 ->
  r = (D <=? 2 * rho) ->
  s = negb (rho =? 0) && negb (2 * rho =? D) ->
  negb (b =? 0) = (2 * D <=? 2 * (rho + D * b))
  /\ (r || s)%bool
     = negb (rho + D * b =? 0) && negb (2 * (rho + D * b) =? 2 * D).
Proof.
  intros HD B Hb -> ->.
  destruct Hb as [-> | ->]; cbn [Z.eqb negb];
    rewrite ?Z.mul_0_r, ?Z.mul_1_r, ?Z.add_0_r.
  - destruct (Z.leb_spec (2 * D) (2 * rho)); destruct (Z.leb_spec D (2 * rho));
      destruct (Z.eqb_spec rho 0); destruct (Z.eqb_spec (2 * rho) D);
      destruct (Z.eqb_spec (2 * rho) (2 * D)); cbn; split; try reflexivity; lia.
  - destruct (Z.leb_spec (2 * D) (2 * (rho + D))); destruct (Z.leb_spec D (2 * rho));
      destruct (Z.eqb_spec rho 0); destruct (Z.eqb_spec (2 * rho) D);
      destruct (Z.eqb_spec (rho + D) 0);
      destruct (Z.eqb_spec (2 * (rho + D)) (2 * D)); cbn; split; try reflexivity; lia.
Qed.

Lemma stands_shr_1 (mrs : shr_record) (N D : Z) :
  0 <= N -> 0 < D -> Laws.stands mrs N D -> Laws.stands (shr_1 mrs) N (2 * D).
Proof.
  intros HN HD (Hm & Hr & Hs). destruct mrs as [m r s]. cbn [shr_m shr_r shr_s] in *.
  pose proof (Z.mod_pos_bound N D HD) as B.
  assert (Q : 0 <= N / D) by (apply Z.div_pos; lia).
  assert (D2 : N / (2 * D) = N / D / 2)
    by (rewrite (Z.mul_comm 2 D), Z.div_div by lia; reflexivity).
  assert (M2 : N mod (2 * D) = N mod D + D * ((N / D) mod 2))
    by (rewrite (Z.mul_comm 2 D); apply Z.rem_mul_r; lia).
  pose proof (Z.div_mod (N / D) 2 ltac:(lia)) as E2.
  pose proof (Z.mod_pos_bound (N / D) 2 ltac:(lia)) as B2.
  unfold Laws.stands. rewrite D2, M2. clear D2 M2.
  revert Hm Hr Hs B Q E2 B2.
  generalize (N / D / 2) as h, ((N / D) mod 2) as b.
  generalize (N / D) as q, (N mod D) as rho.
  intros q rho h b Hm Hr Hs B Q E2 B2. subst m.
  assert (Hb : b = 0 \/ b = 1) by lia.
  destruct (shr_1_flags D rho b r s HD B Hb Hr Hs) as [F1 F2].
  rewrite <- F1, <- F2.
  destruct q as [|[p|p|]|p]; cbn [shr_1 shr_m shr_r shr_s]; try lia.
  - assert (h = 0 /\ b = 0) as [-> ->] by lia. now repeat split.
  - assert (h = Zpos p /\ b = 1) as [-> ->] by lia. now repeat split.
  - assert (h = Zpos p /\ b = 0) as [-> ->] by lia. now repeat split.
  - assert (h = 0 /\ b = 1) as [-> ->] by lia. now repeat split.
Qed.

Lemma stands_iter (k : positive) :
  forall (mrs : shr_record) (N D : Z),
    0 <= N -> 0 < D -> Laws.stands mrs N D ->
    Laws.stands (iter_pos shr_1 k mrs) N (D * 2 ^ Zpos k).
Proof.
  induction k as [k IH|k IH|]; intros mrs N D HN HD H; cbn [iter_pos].
  - assert (P : 0 < 2 ^ Zpos k) by (apply Z.pow_pos_nonneg; lia).
    replace (D * 2 ^ Zpos k~1) with (2 * D * 2 ^ Zpos k * 2 ^ Zpos k).
    + apply IH; [exact HN | nia |]. apply IH; [exact HN | lia |].
      now apply stands_shr_1.
    + assert (E : Zpos k~1 = 1 + Zpos k + Zpos k) by lia. rewrite E.
      rewrite !Z.pow_add_r by lia. change (2 ^ 1) with 2. ring.
  - assert (P : 0 < 2 ^ Zpos k) by (apply Z.pow_pos_nonneg; lia).
    replace (D * 2 ^ Zpos k~0) with (D * 2 ^ Zpos k * 2 ^ Zpos k).
    + apply IH; [exact HN | nia |]. now apply IH.
    + assert (E : Zpos k~0 = Zpos k + Zpos k) by lia. rewrite E.
      rewrite Z.pow_add_r by lia. ring.
  - change (2 ^ 1) with 2. rewrite Z.mul_comm. now apply stands_shr_1.
Qed.

Lemma stands_exact (m : Z) : Laws.stands (Build_shr_record m false false) m 1.
Proof.
  unfold Laws.stands. cbn [shr_m shr_r shr_s].
  rewrite Z.div_1_r, Z.mod_1_r. now repeat split.
Qed.

(** The rest of a division, as [SFdiv_core_binary] records it. *)
Lemma stands_division (N D : Z) :
  0 <= N -> 0 < D ->
  Laws.stands (shr_record_of_loc (N / D) (new_location D (N mod D))) N D.
Proof.
  intros HN HD. pose proof (Z.mod_pos_bound N D HD) as B.
  unfold Laws.stands. revert B. generalize (N mod D) as r, (N / D) as q.
  intros r q B.
  unfold new_location, new_location_even, new_location_odd.
  destruct (Z.even D) eqn:Ev.
  - destruct (Z.eqb_spec r 0) as [->|Nr].
    + cbn [shr_record_of_loc shr_m shr_r shr_s]. split; [reflexivity|].
      split; [|reflexivity].
      symmetry. apply Z.leb_gt. lia.
    + destruct (Z.compare_spec (2 * r) D) as [C|C|C];
        cbn [shr_record_of_loc shr_m shr_r shr_s];
        (split; [reflexivity|]);
        destruct (Z.leb_spec D (2 * r)); destruct (Z.eqb_spec (2 * r) D);
        cbn; split; try reflexivity; lia.
  - assert (Od : Z.odd D = true) by (rewrite <- Z.negb_even, Ev; reflexivity).
    apply Z.odd_spec in Od. destruct Od as [h Hh].
    destruct (Z.eqb_spec r 0) as [->|Nr].
    + cbn [shr_record_of_loc shr_m shr_r shr_s]. split; [reflexivity|].
      split; [|reflexivity].
      symmetry. apply Z.leb_gt. lia.
    + destruct (Z.compare_spec (2 * r + 1) D) as [C|C|C];
        cbn [shr_record_of_loc shr_m shr_r shr_s];
        (split; [reflexivity|]);
        destruct (Z.leb_spec D (2 * r)); destruct (Z.eqb_spec (2 * r) D);
        cbn; split; try reflexivity; lia.
Qed.

Lemma round_stands (mrs : shr_record) (N D : Z) :
  0 < D -> Laws.stands mrs N D ->
  round_nearest_even (shr_m mrs) (loc_of_shr_record mrs) = Laws.rne N D.
Proof.
  intros HD (Hm & Hr & Hs). destruct mrs as [m r s]. cbn [shr_m shr_r shr_s] in *.
  pose proof (Z.mod_pos_bound N D HD) as B.
  unfold Laws.rne. cbv zeta. rewrite <- Hm. clear Hm.
  revert Hr Hs B. generalize (N mod D) as rho. intros rho Hr Hs B.
  destruct (Z.ltb_spec (2 * rho) D); destruct (Z.ltb_spec D (2 * rho));
    destruct (Z.leb_spec D (2 * rho)); destruct (Z.eqb_spec rho 0);
    destruct (Z.eqb_spec (2 * rho) D); cbn in Hr, Hs; subst r s;
    cbn [loc_of_shr_record round_nearest_even]; try reflexivity; lia.
Qed.

Lemma shr_stands (mrs : shr_record) (N D e sh : Z) :
  0 <= N -> 0 < D -> Laws.stands mrs N D ->
  snd (shr mrs e sh) = e + Z.max 0 sh
  /\ Laws.stands (fst (shr mrs e sh)) N (D * 2 ^ Z.max 0 sh).
Proof.
  intros HN HD H. destruct sh as [|k|k]; cbn [shr fst snd].
  - change (Z.max 0 0) with 0. rewrite Z.add_0_r, Z.mul_1_r. now split.
  - replace (Z.max 0 (Zpos k)) with (Zpos k) by lia. split; [reflexivity|].
    now apply stands_iter.
  - replace (Z.max 0 (Zneg k)) with 0 by lia. rewrite Z.add_0_r, Z.mul_1_r. now split.
Qed.

Lemma Zdigits2_bounds (m : Z) :
  0 <= m -> m < 2 ^ Zdigits2 m /\ (0 < m -> 2 ^ (Zdigits2 m - 1) <= m) /\ 0 <= Zdigits2 m.
Proof.
  intros H. destruct m as [|p|p]; try lia.
  - cbn. lia.
  - cbn [Zdigits2]. pose proof (digits2_pos_bounds p). lia.
Qed.

Lemma Zdigits2_le (m k : Z) : 0 <= m -> 0 <= k -> m < 2 ^ k -> Zdigits2 m <= k.
Proof.
  intros Hm Hk H. destruct m as [|p|p]; try lia.
  - cbn. lia.
  - cbn [Zdigits2]. now apply digits_le.
Qed.

Lemma pow2_pos (k : Z) : 0 <= k -> 0 < 2 ^ k.
Proof. intros H. apply Z.pow_pos_nonneg; lia. Qed.

Lemma pow2_le (a b : Z) : 0 <= a <= b -> 2 ^ a <= 2 ^ b.
Proof. intros H. apply Z.pow_le_mono_r; lia. Qed.

Lemma pow2_split (a b : Z) : 0 <= a -> 0 <= b -> 2 ^ (a + b) = 2 ^ a * 2 ^ b.
Proof. intros. apply Z.pow_add_r; lia. Qed.

Lemma mul_lt_bound (a b A B : Z) : 0 <= a < A -> 0 < b <= B -> a * b < A * B.
Proof. intros; nia. Qed.

Lemma mul_le_bound (a b A B : Z) : 0 <= A <= a -> 0 <= B <= b -> A * B <= a * b.
Proof. intros; nia. Qed.

Lemma huge_split : Laws.huge = 2 ^ 53 * 2 ^ 2045.
Proof. unfold Laws.huge. rewrite <- Z.pow_add_r by lia. reflexivity. Qed.

(** The rounding of the format, on the scale of [key]: a quotient N / D
    that is not negative, held at the exponent [e] with its rest recorded,
    is rounded to [rne N (D * 2^n)] units of 2^(e + n), [n] the number of
    digits the mantissa has too many; the result is the infinity exactly
    when that number does not fit. *)
Lemma round_aux_key (m0 e : Z) (l : location) (N D : Z) :
  0 <= N -> 0 < D -> Laws.stands (shr_record_of_loc m0 l) N D -> e <= 971 ->
  let n := Z.max 0 (fexp prec emax (Zdigits2 m0 + e) - e) in
  let K := Laws.rne N (D * 2 ^ n) * 2 ^ (e + n + 1074) in
  let R := binary_round_aux prec emax false m0 e l in
  0 <= e + n + 1074
  /\ ((Laws.SFkey R = K /\ K < Laws.huge
       /\ (R = S754_zero false \/ exists m e', R = S754_finite false m e'))
      \/ (R = S754_infinity false /\ Laws.huge <= K)).
Proof.
  intros HN HD St He n K R.
  assert (Hm0 : m0 = N / D).
  { destruct St as [S _]. now rewrite shr_record_of_loc_m in S. }
  assert (M0 : 0 <= m0) by (rewrite Hm0; apply Z.div_pos; lia).
  pose proof (Zdigits2_bounds m0 M0) as (Du & Dl & Dn).
  assert (NB : N < D * (m0 + 1) /\ D * m0 <= N).
  { pose proof (Z.div_mod N D ltac:(lia)) as E.
    pose proof (Z.mod_pos_bound N D HD) as B. rewrite <- Hm0 in E.
    revert E B. generalize (N mod D). intros r E B. nia. }
  clear Hm0.
  assert (Hn : n = Z.max 0 (Z.max (Zdigits2 m0 + e - 53) (-1074) - e))
    by (unfold n; rewrite fexp64; reflexivity).
  assert (Dz : m0 = 0 -> Zdigits2 m0 = 0) by (intros ->; reflexivity).
  revert Du Dl Dn Dz Hn. generalize (Zdigits2 m0) as d0. intros d0 Du Dl Dn Dz Hn.
  assert (En : 0 <= e + n + 1074) by lia.
  assert (N0 : 0 <= n) by lia.
  split; [exact En|].
  assert (P2n : 0 < 2 ^ n) by now apply pow2_pos.
  assert (HDn : 0 < D * 2 ^ n) by nia.
  set (q := Laws.rne N (D * 2 ^ n)) in *.
  assert (Q0 : 0 <= q) by (apply rne_nonneg; assumption).
  assert (Q1 : q <= 2 ^ 53).
  { apply rne_upper; [exact HDn|].
    assert (A : m0 + 1 <= 2 ^ d0) by lia.
    assert (B : 2 ^ d0 <= 2 ^ (53 + n)) by (apply pow2_le; lia).
    rewrite pow2_split in B by lia.
    assert (P53 : 0 < 2 ^ 53) by (apply pow2_pos; lia).
    revert A B P53 P2n. generalize (2 ^ d0) (2 ^ 53) (2 ^ n). intros; nia. }
  assert (R1 : exists rec2,
             R = match shr_m rec2 with
                 | Z0 => S754_zero false
                 | Zpos m =>
                     if e + n + Z.max 0 (Z.max (Zdigits2 q + (e + n) - 53) (-1074) - (e + n))
                        <=? 971
                     then S754_finite false m
                            (e + n + Z.max 0 (Z.max (Zdigits2 q + (e + n) - 53) (-1074)
                                              - (e + n)))
                     else S754_infinity false
                 | Zneg _ => S754_nan
                 end
             /\ shr_m rec2
                = q / 2 ^ Z.max 0 (Z.max (Zdigits2 q + (e + n) - 53) (-1074) - (e + n))).
  { unfold R, binary_round_aux, shr_fexp.
    destruct (shr_stands (shr_record_of_loc m0 l) N D e
                (fexp prec emax (Zdigits2 m0 + e) - e) HN HD St) as [S1 S2].
    fold n in S1, S2.
    destruct (shr (shr_record_of_loc m0 l) e (fexp prec emax (Zdigits2 m0 + e) - e))
      as [rec1 e1]. cbn [fst snd] in S1, S2. subst e1.
    rewrite (round_stands rec1 N (D * 2 ^ n) HDn S2). fold q.
    destruct (shr_stands (shr_record_of_loc q loc_Exact) q 1 (e + n)
                (fexp prec emax (Zdigits2 q + (e + n)) - (e + n)) Q0 ltac:(lia)
                (stands_exact q)) as [T1 T2].
    rewrite fexp64 in T1, T2. rewrite fexp64.
    destruct (shr (shr_record_of_loc q loc_Exact) (e + n)
                (Z.max (Zdigits2 q + (e + n) - 53) (-1074) - (e + n))) as [rec2 e2].
    cbn [fst snd] in T1, T2. subst e2. exists rec2.
    destruct T2 as (Tm & _). rewrite Z.mul_1_l in Tm.
    split; [reflexivity | exact Tm]. }
  destruct R1 as (rec2 & RE & Tm). clearbody R. subst R.
  assert (P : 0 < 2 ^ (e + n + 1074)) by now apply pow2_pos.
  destruct (Z.eq_dec q (2 ^ 53)) as [Eq|Nq].
  - (* the mantissa was rounded up to 2^53 *)
    rewrite Eq in Tm |- *.
    change (Zdigits2 (2 ^ 53)) with 54 in *.
    replace (Z.max 0 (Z.max (54 + (e + n) - 53) (-1074) - (e + n))) with 1 in * by lia.
    change (2 ^ 53 / 2 ^ 1) with (Zpos 4503599627370496) in Tm. rewrite Tm.
    unfold K. rewrite Eq.
    destruct (Z.leb_spec (e + n + 1) 971) as [Le|Gt].
    + left. split; [|split].
      * cbn [Laws.SFkey]. replace (e + n + 1 + 1074) with (1 + (e + n + 1074)) by lia.
        rewrite pow2_split by lia. change (2 ^ 1) with 2.
        change (2 ^ 53) with (Zpos 4503599627370496 * 2). ring.
      * rewrite huge_split. apply Z.mul_lt_mono_pos_l; [reflexivity|].
        apply Z.pow_lt_mono_r; lia.
      * right. eauto.
    + right. split; [reflexivity|]. rewrite huge_split.
      apply Z.mul_le_mono_nonneg_l; [apply Z.pow_nonneg; lia|]. apply pow2_le. lia.
  - assert (Q2 : q < 2 ^ 53) by lia.
    assert (Dq : Zdigits2 q <= 53) by (apply Zdigits2_le; lia).
    revert Tm Dq. generalize (Zdigits2 q) as dq. intros dq Tm Dq.
    replace (Z.max 0 (Z.max (dq + (e + n) - 53) (-1074) - (e + n))) with 0 in * by lia.
    change (2 ^ 0) with 1 in Tm. rewrite Z.div_1_r in Tm. rewrite Tm.
    rewrite Z.add_0_r.
    assert (QL : 971 < e + n -> 2 ^ 52 <= q).
    { intros Gt.
      assert (Npos : 0 < n) by lia.
      assert (En2 : e + n = d0 + e - 53) by lia.
      assert (M0p : 0 < m0).
      { destruct (Z.eq_dec m0 0) as [Z0|]; [|lia]. specialize (Dz Z0). lia. }
      specialize (Dl M0p).
      apply rne_lower; [exact HDn|].
      replace (d0 - 1) with (52 + n) in Dl by lia.
      rewrite pow2_split in Dl by lia.
      assert (P52 : 0 < 2 ^ 52) by (apply pow2_pos; lia).
      revert Dl P52 P2n. generalize (2 ^ 52) (2 ^ n). intros; nia. }
    unfold K. clearbody q.
    destruct q as [|m|m]; try lia.
    + left. split; [reflexivity|]. split; [|now left].
      rewrite Z.mul_0_l. unfold Laws.huge. apply pow2_pos. lia.
    + destruct (Z.leb_spec (e + n) 971) as [Le|Gt].
      * left. split; [reflexivity|]. split; [|right; eauto].
        rewrite huge_split. apply mul_lt_bound; [lia|].
        split; [exact P|]. apply pow2_le. lia.
      * right. split; [reflexivity|]. specialize (QL Gt).
        unfold Laws.huge.
        replace 2098 with (52 + 2046) by lia. rewrite pow2_split by lia.
        apply mul_le_bound; [split; [apply Z.pow_nonneg; lia | exact QL]|].
        split; [apply Z.pow_nonneg; lia|]. apply pow2_le. lia.
Qed.

(** *** The nearest number on the scale of [key] *)

Lemma ulp_pos (W : Z) : 0 < Laws.ulp W.
Proof. unfold Laws.ulp. apply pow2_pos. lia. Qed.

Lemma Zdigits2_mono (a b : Z) : 0 <= a <= b -> Zdigits2 a <= Zdigits2 b.
Proof.
  intros [Ha Hab].
  pose proof (Zdigits2_bounds a Ha) as (_ & Al & An).
  pose proof (Zdigits2_bounds b ltac:(lia)) as (Bu & _ & Bn).
  destruct (Z.eq_dec a 0) as [->|Na]; [cbn; lia|].
  specialize (Al ltac:(lia)).
  destruct (Z.le_gt_cases (Zdigits2 a) (Zdigits2 b)) as [L|G]; [exact L|].
  exfalso. assert (2 ^ Zdigits2 b <= 2 ^ (Zdigits2 a - 1)) by (apply pow2_le; lia).
  lia.
Qed.

Lemma nearest_nonneg (W : Z) : 0 <= W -> 0 <= Laws.nearest W.
Proof.
  intros H. unfold Laws.nearest. pose proof (ulp_pos W).
  pose proof (rne_nonneg W (Laws.ulp W) ltac:(lia) H). nia.
Qed.

(** Rounding to the nearest number of the format is monotone. *)
Lemma nearest_mono (W1 W2 : Z) :
  0 <= W1 <= W2 -> Laws.nearest W1 <= Laws.nearest W2.
Proof.
  intros [H1 H12].
  pose proof (Zdigits2_mono W1 W2 (conj H1 H12)) as Dm.
  pose proof (Zdigits2_bounds W1 H1) as (U1 & _ & N1).
  pose proof (Zdigits2_bounds W2 ltac:(lia)) as (_ & L2 & N2).
  assert (Z2 : W2 = 0 -> Zdigits2 W2 = 0) by (intros ->; reflexivity).
  unfold Laws.nearest, Laws.ulp.
  revert Dm U1 N1 L2 N2 Z2. generalize (Zdigits2 W1) as d1, (Zdigits2 W2) as d2.
  intros d1 d2 Dm U1 N1 L2 N2 Z2.
  set (g1 := Z.max 0 (d1 - 53)). set (g2 := Z.max 0 (d2 - 53)).
  assert (P1 : 0 < 2 ^ g1) by (apply pow2_pos; lia).
  assert (P2 : 0 < 2 ^ g2) by (apply pow2_pos; lia).
  destruct (Z.eq_dec g1 g2) as [E|NE].
  - rewrite E. apply Z.mul_le_mono_nonneg_r; [lia|]. apply rne_mono; lia.
  - assert (G : g1 < g2) by lia.
    assert (W2p : 0 < W2).
    { destruct (Z.eq_dec W2 0) as [Z0|]; [|lia]. specialize (Z2 Z0). lia. }
    specialize (L2 W2p).
    assert (E1 : 2 ^ d1 = 2 ^ (d1 - g1) * 2 ^ g1)
      by (rewrite <- pow2_split by lia; f_equal; lia).
    assert (E2 : 2 ^ (d2 - 1) = 2 ^ 52 * 2 ^ g2)
      by (rewrite <- pow2_split by lia; f_equal; lia).
    apply Z.le_trans with (2 ^ d1).
    + rewrite E1. apply Z.mul_le_mono_nonneg_r; [lia|].
      apply rne_upper; [exact P1|]. rewrite <- E1. lia.
    + apply Z.le_trans with (2 ^ (d2 - 1)); [apply pow2_le; lia|].
      rewrite E2. apply Z.mul_le_mono_nonneg_r; [lia|].
      apply rne_lower; [exact P2|]. rewrite <- E2. exact L2.
Qed.

(** A number of the format is its own nearest number. *)
Lemma nearest_multiple (c k : Z) :
  0 <= c -> 0 <= k -> Zdigits2 (c * 2 ^ k) - 53 <= k ->
  Laws.nearest (c * 2 ^ k) = c * 2 ^ k.
Proof.
  intros Hc Hk Hd. unfold Laws.nearest, Laws.ulp.
  revert Hd. generalize (Zdigits2 (c * 2 ^ k)) as d. intros d Hd.
  set (g := Z.max 0 (d - 53)).
  assert (E : c * 2 ^ k = c * 2 ^ (k - g) * 2 ^ g).
  { rewrite <- Z.mul_assoc, <- pow2_split by lia. do 2 f_equal. lia. }
  rewrite E at 1. rewrite rne_exact by (apply pow2_pos; lia). symmetry. exact E.
Qed.

Lemma Zdigits2_shift (m k : Z) :
  0 < m -> 0 <= k -> Zdigits2 (m * 2 ^ k) = Zdigits2 m + k.
Proof.
  intros Hm Hk. destruct m as [|p|p]; try lia.
  rewrite digits_shift by exact Hk. reflexivity.
Qed.

(** The rounding of an integer mantissa held at the exponent [e]. *)
Lemma round_exact_key (m0 e : Z) :
  0 <= m0 -> -1074 <= e <= 971 ->
  let R := binary_round_aux prec emax false m0 e loc_Exact in
  let W := m0 * 2 ^ (e + 1074) in
  (Laws.SFkey R = Laws.nearest W /\ Laws.nearest W < Laws.huge
   /\ (R = S754_zero false \/ exists m e', R = S754_finite false m e'))
  \/ (R = S754_infinity false /\ Laws.huge <= Laws.nearest W).
Proof.
  intros Hm He R W.
  pose proof (round_aux_key m0 e loc_Exact m0 1 Hm ltac:(lia) (stands_exact m0)
                ltac:(lia)) as H.
  cbv zeta in H. fold R in H. destruct H as [En H].
  assert (K : Laws.rne m0 (1 * 2 ^ Z.max 0 (fexp prec emax (Zdigits2 m0 + e) - e))
              * 2 ^ (e + Z.max 0 (fexp prec emax (Zdigits2 m0 + e) - e) + 1074)
              = Laws.nearest W).
  { rewrite fexp64, Z.mul_1_l. rewrite fexp64 in En.
    destruct (Z.eq_dec m0 0) as [->|Nm].
    - unfold W. rewrite Z.mul_0_l. unfold Laws.rne. cbv zeta.
      rewrite Z.div_0_l, Z.mod_0_l by (apply Z.pow_nonzero; lia).
      assert (P : 0 < 2 ^ Z.max 0 (Z.max (Zdigits2 0 + e - 53) (-1074) - e))
        by (apply pow2_pos; lia).
      destruct (Z.ltb_spec (2 * 0) (2 ^ Z.max 0 (Z.max (Zdigits2 0 + e - 53) (-1074) - e)));
        [reflexivity | lia].
    - assert (Dw : Zdigits2 W = Zdigits2 m0 + (e + 1074))
        by (unfold W; apply Zdigits2_shift; lia).
      pose proof (Zdigits2_bounds m0 Hm) as (_ & _ & Dn).
      destruct (Z.le_gt_cases (Z.max (Zdigits2 m0 + e - 53) (-1074) - e) 0) as [Le|Gt].
      + replace (Z.max 0 (Z.max (Zdigits2 m0 + e - 53) (-1074) - e)) with 0 by lia.
        change (2 ^ 0) with 1. rewrite Z.add_0_r.
        rewrite <- (Z.mul_1_r m0) at 1. rewrite rne_exact by lia.
        symmetry. unfold W. apply nearest_multiple; try lia. fold W. lia.
      + replace (Z.max 0 (Z.max (Zdigits2 m0 + e - 53) (-1074) - e))
          with (Z.max (Zdigits2 m0 + e - 53) (-1074) - e) by lia.
        set (n := Z.max (Zdigits2 m0 + e - 53) (-1074) - e) in *.
        unfold Laws.nearest, Laws.ulp. rewrite Dw.
        replace (Z.max 0 (Zdigits2 m0 + (e + 1074) - 53)) with (n + (e + 1074))
          by (unfold n; lia).
        replace (e + n + 1074) with (n + (e + 1074)) by lia.
        f_equal. unfold W. rewrite (pow2_split n (e + 1074)) by lia.
        symmetry. apply rne_scale; apply pow2_pos; lia. }
  rewrite K in H. exact H.
Qed.

(** *** Subtraction *)

Lemma valid_finite_key (s : bool) (m : positive) (e : Z) :
  valid_binary (S754_finite s m e) = true ->
  -1074 <= e <= 971
  /\ Zpos m * 2 ^ (e + 1074) < Laws.huge
  /\ Laws.nearest (Zpos m * 2 ^ (e + 1074)) = Zpos m * 2 ^ (e + 1074).
Proof.
  intros V. pose proof (valid_finite s m e V) as (H1 & H2 & _).
  assert (H3 : e <= 971).
  { cbn [SpecFloat.valid_binary] in V. unfold bounded in V.
    apply andb_true_iff in V. destruct V as [_ V]. apply Z.leb_le in V. exact V. }
  pose proof (digits2_pos_bounds m) as [_ B].
  assert (M : Zpos m < 2 ^ 53).
  { apply Z.lt_le_trans with (2 ^ Zpos (digits2_pos m)); [exact B|]. apply pow2_le. lia. }
  split; [lia|]. split.
  - rewrite huge_split. apply mul_lt_bound; [lia|].
    split; [apply pow2_pos; lia | apply pow2_le; lia].
  - apply nearest_multiple; try lia. rewrite Zdigits2_shift by lia. cbn [Zdigits2]. lia.
Qed.

Lemma shl_align_fexp (p : positive) (e : Z) :
  exists k, 0 <= k
    /\ Zpos (fst (shl_align p e (fexp prec emax (Zpos (digits2_pos p) + e))))
       = Zpos p * 2 ^ k
    /\ snd (shl_align p e (fexp prec emax (Zpos (digits2_pos p) + e))) = e - k
    /\ (-1074 <= e -> -1074 <= e - k).
Proof.
  rewrite fexp64. unfold shl_align.
  destruct (Z.max (Zpos (digits2_pos p) + e - 53) (-1074) - e) as [|d|d] eqn:E;
    cbn [fst snd].
  - exists 0. change (2 ^ 0) with 1. repeat split; lia.
  - exists 0. change (2 ^ 0) with 1. repeat split; lia.
  - exists (Zpos d). rewrite iter_xO. repeat split; lia.
Qed.

Lemma binary_round_key (p : positive) (e : Z) :
  -1074 <= e <= 971 ->
  let R := binary_round prec emax false p e in
  let W := Zpos p * 2 ^ (e + 1074) in
  (Laws.SFkey R = Laws.nearest W /\ Laws.nearest W < Laws.huge
   /\ (R = S754_zero false \/ exists m e', R = S754_finite false m e'))
  \/ (R = S754_infinity false /\ Laws.huge <= Laws.nearest W).
Proof.
  intros He R W. unfold R, binary_round.
  destruct (shl_align_fexp p e) as (k & Hk & Em & Ee & Eb).
  destruct (shl_align p e (fexp prec emax (Zpos (digits2_pos p) + e))) as [mz ez].
  cbn [fst snd] in Em, Ee. subst ez.
  pose proof (round_exact_key (Zpos mz) (e - k) ltac:(lia) ltac:(lia)) as H.
  cbv zeta in H.
  assert (EW : Zpos mz * 2 ^ (e - k + 1074) = W).
  { unfold W. rewrite Em, <- Z.mul_assoc, <- pow2_split by lia. do 2 f_equal. lia. }
  rewrite EW in H. exact H.
Qed.

Lemma SFkey_finite (s : bool) (m : positive) (e ez : Z) :
  ez <= e -> -1074 <= ez ->
  Laws.SFkey (S754_finite s m e)
  = cond_Zopp s (Zpos (fst (shl_align m e ez))) * 2 ^ (ez + 1074).
Proof.
  intros H1 H2. rewrite shl_align_value by exact H1. cbn [Laws.SFkey].
  replace (e + 1074) with ((e - ez) + (ez + 1074)) by lia.
  rewrite pow2_split by lia. destruct s; cbn [cond_Zopp]; ring.
Qed.

(** The difference of two finite numbers [y <= x] is the number of the
    format nearest to the exact difference, or the infinity when that does
    not fit. *)
Lemma SFsub_key (x y : spec_float) :
  valid_binary x = true -> valid_binary y = true ->
  Laws.isFiniteSF x = true -> Laws.isFiniteSF y = true ->
  Laws.SFkey y <= Laws.SFkey x ->
  let R := SFsub prec emax x y in
  let W := Laws.SFkey x - Laws.SFkey y in
  (Laws.isFiniteSF R = true /\ Laws.SFkey R = Laws.nearest W
   /\ Laws.nearest W < Laws.huge)
  \/ (R = S754_infinity false /\ Laws.huge <= Laws.nearest W).
Proof.
  intros Vx Vy Fx Fy L R W.
  assert (N0 : Laws.nearest 0 = 0) by reflexivity.
  assert (H0 : 0 < Laws.huge) by (unfold Laws.huge; apply pow2_pos; lia).
  destruct x as [sx|sx| |sx mx ex]; try discriminate Fx;
    destruct y as [sy|sy| |sy my ey]; try discriminate Fy.
  - left. unfold R, W. cbn [Laws.SFkey]. rewrite Z.sub_0_r, N0.
    destruct sx, sy; cbn; repeat split; lia.
  - destruct (valid_finite_key sy my ey Vy) as (_ & Hh & Hn).
    assert (P : 0 < Zpos my * 2 ^ (ey + 1074))
      by (apply Z.mul_pos_pos; [lia | apply pow2_pos; destruct (valid_finite sy my ey Vy); lia]).
    cbn [Laws.SFkey] in L. cbv zeta in L. destruct sy; [|lia].
    left. unfold R, W. cbn [SFsub negb Laws.SFkey Laws.isFiniteSF].
    replace (0 - - (Zpos my * 2 ^ (ey + 1074))) with (Zpos my * 2 ^ (ey + 1074)) by lia.
    rewrite Hn. repeat split; lia.
  - destruct (valid_finite_key sx mx ex Vx) as (_ & Hh & Hn).
    assert (P : 0 < Zpos mx * 2 ^ (ex + 1074))
      by (apply Z.mul_pos_pos; [lia | apply pow2_pos; destruct (valid_finite sx mx ex Vx); lia]).
    cbn [Laws.SFkey] in L. cbv zeta in L. destruct sx; [lia|].
    left. unfold R, W. cbn [SFsub Laws.SFkey Laws.isFiniteSF].
    rewrite Z.sub_0_r, Hn. repeat split; lia.
  - destruct (valid_finite_key sx mx ex Vx) as (Ex & _ & _).
    destruct (valid_finite_key sy my ey Vy) as (Ey & _ & _).
    unfold R, W. cbn [SFsub]. cbv zeta.
    set (ez := Z.min ex ey).
    rewrite (SFkey_finite sx mx ex ez), (SFkey_finite sy my ey ez) by (unfold ez; lia).
    rewrite (SFkey_finite sx mx ex ez), (SFkey_finite sy my ey ez) in L
      by (unfold ez; lia).
    assert (P : 0 < 2 ^ (ez + 1074)) by (apply pow2_pos; unfold ez; lia).
    rewrite <- Z.mul_sub_distr_r.
    assert (S0 : 0 <= cond_Zopp sx (Zpos (fst (shl_align mx ex ez)))
                      - cond_Zopp sy (Zpos (fst (shl_align my ey ez)))).
    { revert L P. generalize (2 ^ (ez + 1074))
        (cond_Zopp sx (Zpos (fst (shl_align mx ex ez))))
        (cond_Zopp sy (Zpos (fst (shl_align my ey ez)))). intros; nia. }
    revert S0.
    generalize (cond_Zopp sx (Zpos (fst (shl_align mx ex ez)))
                - cond_Zopp sy (Zpos (fst (shl_align my ey ez)))) as S.
    intros S S0. destruct S as [|p|p]; try lia.
    + left. cbn [binary_normalize Laws.isFiniteSF Laws.SFkey].
      rewrite Z.mul_0_l, N0. repeat split; lia.
    + cbn [binary_normalize].
      destruct (binary_round_key p ez ltac:(unfold ez; lia)) as [(K & Hh & Sh)|(I & Hh)].
      * left. split; [|split; assumption].
        destruct Sh as [->|(m & e' & ->)]; reflexivity.
      * right. split; assumption.
Qed.

(** *** Division *)

Lemma div_eucl_pair (a b : Z) : Z.div_eucl a b = (a / b, a mod b).
Proof. unfold Z.div, Z.modulo. now destruct (Z.div_eucl a b). Qed.

(** The quotient of two finite numbers [0 <= x <= y], [0 < y], is a finite
    number between 0 and 1. *)
Lemma SFdiv_unit (x y : spec_float) :
  valid_binary x = true -> valid_binary y = true ->
  Laws.isFiniteSF x = true -> Laws.isFiniteSF y = true ->
  0 <= Laws.SFkey x <= Laws.SFkey y -> 0 < Laws.SFkey y ->
  let R := SFdiv prec emax x y in
  Laws.isFiniteSF R = true /\ 0 <= Laws.SFkey R <= 2 ^ 1074.
Proof.
  intros Vx Vy Fx Fy [L0 L] Py R.
  assert (P1074 : 0 < 2 ^ 1074) by (apply pow2_pos; lia).
  destruct y as [sy|sy| |sy my ey]; try discriminate Fy;
    [cbn [Laws.SFkey] in Py; lia|].
  destruct (valid_finite_key sy my ey Vy) as (Ey & _ & _).
  assert (Pe : 0 < 2 ^ (ey + 1074)) by (apply pow2_pos; lia).
  assert (Pmy : 0 < Zpos my * 2 ^ (ey + 1074)) by (apply Z.mul_pos_pos; lia).
  assert (sy = false) as ->
    by (destruct sy; [cbn [Laws.SFkey] in Py; cbv zeta in Py; lia | reflexivity]).
  destruct x as [sx|sx| |sx mx ex]; try discriminate Fx.
  { unfold R. cbn [SFdiv xorb Laws.isFiniteSF Laws.SFkey]. split; [reflexivity | lia]. }
  destruct (valid_finite_key sx mx ex Vx) as (Ex & _ & _).
  assert (Px : 0 < 2 ^ (ex + 1074)) by (apply pow2_pos; lia).
  assert (Pmx : 0 < Zpos mx * 2 ^ (ex + 1074)) by (apply Z.mul_pos_pos; lia).
  assert (sx = false) as ->
    by (destruct sx; [cbn [Laws.SFkey] in L0; cbv zeta in L0; lia | reflexivity]).
  cbn [Laws.SFkey] in L. cbv zeta in L. clear L0 Py.
  pose proof (digits2_pos_bounds mx) as [B1 _].
  pose proof (digits2_pos_bounds my) as [_ B2].
  set (d1 := Zpos (digits2_pos mx)) in *. set (d2 := Zpos (digits2_pos my)) in *.
  assert (Hd1 : 0 < d1) by (unfold d1; lia).
  assert (Hd2 : 0 < d2) by (unfold d2; lia).
  (* the exponents of the operands *)
  assert (Dd : d1 + ex - (d2 + ey) <= 0).
  { assert (A : 2 ^ (d1 - 1) * 2 ^ (ex + 1074) < 2 ^ d2 * 2 ^ (ey + 1074)).
    { apply Z.le_lt_trans with (Zpos mx * 2 ^ (ex + 1074)).
      - apply Z.mul_le_mono_nonneg_r; lia.
      - apply Z.le_lt_trans with (Zpos my * 2 ^ (ey + 1074)); [exact L|].
        apply Z.mul_lt_mono_pos_r; lia. }
    rewrite <- !pow2_split in A by lia.
    apply Z.pow_lt_mono_r_iff in A; lia. }
  unfold R, SFdiv, SFdiv_core_binary. cbn [Zdigits2 xorb]. fold d1 d2.
  rewrite fexp64.
  set (e' := Z.min (Z.max (d1 + ex - (d2 + ey) - 53) (-1074)) (ex - ey)).
  assert (He' : e' <= -53) by (unfold e'; lia).
  assert (Hs : 0 <= ex - ey - e') by (unfold e'; lia).
  assert (Em : match ex - ey - e' with
               | Z0 => Zpos mx
               | Zpos _ => Z.shiftl (Zpos mx) (ex - ey - e')
               | Zneg _ => 0
               end = Zpos mx * 2 ^ (ex - ey - e')).
  { revert Hs. generalize (ex - ey - e') as s. intros s Hs.
    destruct s as [|s|s]; try lia.
    now rewrite Z.shiftl_mul_pow2 by lia. }
  rewrite Em. clear Em.
  set (N := Zpos mx * 2 ^ (ex - ey - e')).
  assert (Ps : 0 < 2 ^ (ex - ey - e')) by (apply pow2_pos; lia).
  assert (HN : 0 <= N) by (unfold N; nia).
  rewrite div_eucl_pair.
  (* the exact quotient is at most 1 *)
  assert (Pn : 0 < 2 ^ (- e')) by (apply pow2_pos; lia).
  assert (NB : N <= 2 ^ (- e') * Zpos my).
  { apply Z.mul_le_mono_pos_r with (2 ^ (ey + 1074)); [exact Pe|].
    unfold N.
    replace (Zpos mx * 2 ^ (ex - ey - e') * 2 ^ (ey + 1074))
      with (Zpos mx * 2 ^ (ex + 1074) * 2 ^ (- e')).
    - replace (2 ^ (- e') * Zpos my * 2 ^ (ey + 1074))
        with (Zpos my * 2 ^ (ey + 1074) * 2 ^ (- e')) by ring.
      apply Z.mul_le_mono_nonneg_r; lia.
    - rewrite <- !Z.mul_assoc, <- !pow2_split by lia. do 2 f_equal. lia. }
  assert (Qb : 0 <= N / Zpos my <= 2 ^ (- e')).
  { split; [apply Z.div_pos; lia|].
    apply Z.div_le_upper_bound; [lia|]. rewrite Z.mul_comm. exact NB. }
  assert (Dq : Zdigits2 (N / Zpos my) <= - e' + 1).
  { apply Zdigits2_le; [lia | lia |].
    rewrite pow2_split by lia. change (2 ^ 1) with 2. lia. }
  pose proof (round_aux_key (N / Zpos my) e' (new_location (Zpos my) (N mod Zpos my))
                N (Zpos my) HN ltac:(lia) (stands_division N (Zpos my) HN ltac:(lia))
                ltac:(lia)) as H.
  cbv zeta in H. rewrite fexp64 in H.
  revert Dq H. generalize (Zdigits2 (N / Zpos my)) as dq. intros dq Dq H.
  set (n := Z.max 0 (Z.max (dq + e' - 53) (-1074) - e')) in *.
  destruct H as [En H].
  assert (Hn : 0 <= n) by (unfold n; lia).
  assert (Hen : e' + n <= 0) by (unfold n; lia).
  assert (P2n : 0 < 2 ^ n) by (apply pow2_pos; lia).
  assert (Pc : 0 < 2 ^ (- (e' + n))) by (apply pow2_pos; lia).
  assert (KU : Laws.rne N (Zpos my * 2 ^ n) * 2 ^ (e' + n + 1074) <= 2 ^ 1074).
  { replace (2 ^ 1074) with (2 ^ (- (e' + n)) * 2 ^ (e' + n + 1074))
      by (rewrite <- pow2_split by lia; f_equal; lia).
    apply Z.mul_le_mono_nonneg_r; [apply Z.pow_nonneg; lia|].
    apply rne_upper; [nia|].
    replace (2 ^ (- (e' + n)) * (Zpos my * 2 ^ n)) with (2 ^ (- e') * Zpos my); [exact NB|].
    replace (2 ^ (- e')) with (2 ^ (- (e' + n)) * 2 ^ n)
      by (rewrite <- pow2_split by lia; f_equal; lia).
    ring. }
  assert (KL : 0 <= Laws.rne N (Zpos my * 2 ^ n) * 2 ^ (e' + n + 1074)).
  { apply Z.mul_nonneg_nonneg; [apply rne_nonneg; [nia | exact HN]|].
    apply Z.pow_nonneg. lia. }
  assert (HH : 2 ^ 1074 < Laws.huge)
    by (unfold Laws.huge; apply Z.pow_lt_mono_r; lia).
  destruct H as [(K & _ & Sh)|(_ & Hh)]; [|lia].
  rewrite K. split; [|lia].
  destruct Sh as [->|(m & e2 & ->)]; reflexivity.
Qed.

(** ** The depth normalised across the batch *)

Lemma is_finite_SF (x : float) : is_finite x = Laws.isFiniteSF (Prim2SF x).
Proof.
  unfold is_finite, is_infinity. rewrite is_nan_SF, eqb_spec, abs_spec.
  change (Prim2SF infinity) with (S754_infinity false).
  destruct (Prim2SF x) as [s|s| |s m e]; reflexivity.
Qed.

Lemma finite_not_nan (x : float) : is_finite x = true -> is_nan x = false.
Proof.
  rewrite is_finite_SF, is_nan_SF. now destruct (Prim2SF x).
Qed.

Lemma isFiniteSF_not_nan (x : float) :
  Laws.isFiniteSF (Prim2SF x) = true -> is_nan x = false.
Proof. rewrite is_nan_SF. now destruct (Prim2SF x). Qed.

Lemma key_bounds (x : float) : - Laws.top <= Laws.key x <= Laws.top.
Proof.
  unfold Laws.key. pose proof top_pos as T. pose proof (Prim2SF_valid x) as V.
  destruct (Prim2SF x) as [s|s| |s m e]; cbn [Laws.SFkey].
  - lia.
  - destruct s; lia.
  - lia.
  - pose proof (valid_finite_top s m e V). cbv zeta. destruct s; lia.
Qed.

(** The scan of [projectScene] for the least and the greatest depth. *)
Lemma depthRange_fold (birds : list Projection.Bird) :
  (forall b, In b birds -> is_nan (Projection.depth b) = false) ->
  forall mn mx : float,
    is_nan mn = false -> is_nan mx = false ->
    let r := fold_left
               (fun mm b =>
                  let '(minZ, maxZ) := mm in
                  ((if (Projection.depth b <? minZ)%float then Projection.depth b else minZ),
                   (if (maxZ <? Projection.depth b)%float then Projection.depth b else maxZ)))
               birds (mn, mx) in
    is_nan (fst r) = false /\ is_nan (snd r) = false
    /\ Laws.key (fst r) <= Laws.key mn /\ Laws.key mx <= Laws.key (snd r)
    /\ (forall b, In b birds ->
          Laws.key (fst r) <= Laws.key (Projection.depth b) <= Laws.key (snd r))
    /\ (fst r = mn \/ exists b, In b birds /\ fst r = Projection.depth b)
    /\ (snd r = mx \/ exists b, In b birds /\ snd r = Projection.depth b).
Proof.
  induction birds as [|c cs IH]; intros Hn mn mx N1 N2; cbv zeta.
  - cbn [fold_left fst snd In]. repeat split; try assumption; try lia; try tauto.
  - cbn [fold_left].
    assert (Nc : is_nan (Projection.depth c) = false) by (apply Hn; now left).
    set (mn' := if (Projection.depth c <? mn)%float then Projection.depth c else mn).
    set (mx' := if (mx <? Projection.depth c)%float then Projection.depth c else mx).
    assert (A : is_nan mn' = false /\ Laws.key mn' <= Laws.key mn
                /\ Laws.key mn' <= Laws.key (Projection.depth c)
                /\ (mn' = mn \/ mn' = Projection.depth c)).
    { unfold mn'. rewrite ltb_key by assumption.
      destruct (Z.ltb_spec (Laws.key (Projection.depth c)) (Laws.key mn));
        repeat split; try assumption; try lia; auto. }
    assert (B : is_nan mx' = false /\ Laws.key mx <= Laws.key mx'
                /\ Laws.key (Projection.depth c) <= Laws.key mx'
                /\ (mx' = mx \/ mx' = Projection.depth c)).
    { unfold mx'. rewrite ltb_key by assumption.
      destruct (Z.ltb_spec (Laws.key mx) (Laws.key (Projection.depth c)));
        repeat split; try assumption; try lia; auto. }
    destruct A as (A1 & A2 & A3 & A4), B as (B1 & B2 & B3 & B4).
    specialize (IH (fun b Hb => Hn b (or_intror Hb)) mn' mx' A1 B1). cbv zeta in IH.
    destruct IH as (I1 & I2 & I3 & I4 & I5 & I6 & I7).
    split; [exact I1|]. split; [exact I2|]. split; [lia|]. split; [lia|].
    split; [|split].
    + intros b [<-|Hb]; [lia | now apply I5].
    + destruct I6 as [E|(b & Hb & E)].
      * destruct A4 as [E'|E']; [left; congruence | right].
        exists c. split; [now left | congruence].
      * right. exists b. split; [now right | exact E].
    + destruct I7 as [E|(b & Hb & E)].
      * destruct B4 as [E'|E']; [left; congruence | right].
        exists c. split; [now left | congruence].
      * right. exists b. split; [now right | exact E].
Qed.

(** The range [projectScene] normalises by is that of the batch: its two
    ends are the least and the greatest depth found in it. *)
Lemma depthRange_extremes (birds : list Projection.Bird) :
  Spec.depthsAreNumbers birds = true -> birds <> [] ->
  is_nan (fst (Projection.depthRange birds)) = false
  /\ is_nan (snd (Projection.depthRange birds)) = false
  /\ (forall c, In c birds ->
        Laws.key (fst (Projection.depthRange birds)) <= Laws.key (Projection.depth c)
        <= Laws.key (snd (Projection.depthRange birds)))
  /\ (exists c, In c birds
        /\ Laws.key (Projection.depth c) = Laws.key (fst (Projection.depthRange birds)))
  /\ (exists c, In c birds
        /\ Laws.key (Projection.depth c) = Laws.key (snd (Projection.depthRange birds))).
Proof.
  intros Hn Ne.
  assert (Hn' : forall b, In b birds -> is_nan (Projection.depth b) = false).
  { intros b Hb. unfold Spec.depthsAreNumbers in Hn. rewrite forallb_forall in Hn.
    specialize (Hn b Hb). unfold Spec.isNumber in Hn.
    now destruct (is_nan (Projection.depth b)). }
  pose proof (depthRange_fold birds Hn' infinity neg_infinity eq_refl eq_refl) as F.
  cbv zeta in F. fold (Projection.depthRange birds) in F.
  destruct F as (F1 & F2 & F3 & F4 & F5 & F6 & F7).
  split; [exact F1|]. split; [exact F2|]. split; [exact F5|].
  destruct birds as [|c0 cs]; [congruence|].
  pose proof (F5 c0 (or_introl eq_refl)) as B0.
  pose proof (key_bounds (Projection.depth c0)) as K0.
  split.
  - destruct F6 as [E|(b & Hb & E)].
    + exists c0. split; [now left|]. rewrite E in *.
      change (Laws.key infinity) with Laws.top in *. lia.
    + exists b. split; [exact Hb | now rewrite E].
  - destruct F7 as [E|(b & Hb & E)].
    + exists c0. split; [now left|]. rewrite E in *.
      change (Laws.key neg_infinity) with (- Laws.top) in *. lia.
    + exists b. split; [exact Hb | now rewrite E].
Qed.

(** The quotient (d - min) / ((max - min) || 1) of finite numbers
    min <= d <= max with a finite range lies between 0 and 1. *)
Lemma normalised_unit (minZ maxZ d : float) :
  is_finite minZ = true -> is_finite maxZ = true -> is_finite d = true ->
  Laws.key minZ <= Laws.key d <= Laws.key maxZ ->
  is_finite (maxZ - minZ) = true ->
  let nd := ((d - minZ) / JS.orElse (maxZ - minZ) 1)%float in
  (0 <=? nd)%float = true /\ (nd <=? 1)%float = true.
Proof.
  intros Fm FM Fd [L1 L2] Fr nd.
  rewrite is_finite_SF in Fm, FM, Fd, Fr.
  pose proof (SFsub_key (Prim2SF maxZ) (Prim2SF minZ) (Prim2SF_valid _) (Prim2SF_valid _)
                FM Fm ltac:(unfold Laws.key in *; lia)) as HR.
  pose proof (SFsub_key (Prim2SF d) (Prim2SF minZ) (Prim2SF_valid _) (Prim2SF_valid _)
                Fd Fm L1) as HN.
  cbv zeta in HR, HN.
  change (SFsub prec emax) with SF64sub in HR, HN. rewrite <- !sub_spec in HR, HN.
  fold (Laws.key maxZ) (Laws.key minZ) (Laws.key d) in HR, HN.
  fold (Laws.key (maxZ - minZ)) in HR. fold (Laws.key (d - minZ)) in HN.
  destruct HR as [(_ & KR & HhR)|(IR & _)]; [|rewrite IR in Fr; discriminate].
  pose proof (nearest_mono (Laws.key d - Laws.key minZ) (Laws.key maxZ - Laws.key minZ)
                ltac:(lia)) as Mo.
  destruct HN as [(FN & KN & _)|(_ & HhN)]; [|lia].
  pose proof (nearest_nonneg (Laws.key d - Laws.key minZ) ltac:(lia)) as N0.
  assert (D : Laws.isFiniteSF (Prim2SF nd) = true /\ 0 <= Laws.key nd <= 2 ^ 1074).
  { unfold nd, Laws.key. rewrite div_spec. change SF64div with (SFdiv prec emax).
    unfold JS.orElse.
    rewrite (isFiniteSF_not_nan _ Fr), orb_false_r.
    rewrite eqb_key by (apply isFiniteSF_not_nan; assumption || reflexivity).
    change (Laws.key 0) with 0.
    destruct (Z.eqb_spec (Laws.key (maxZ - minZ)) 0) as [Z0|NZ].
    - assert (P : 0 < 2 ^ 1074) by (apply pow2_pos; lia).
      apply SFdiv_unit; try apply Prim2SF_valid; try assumption; try reflexivity;
        fold (Laws.key (d - minZ)); change (Laws.SFkey (Prim2SF 1)) with (2 ^ 1074);
        lia.
    - pose proof (nearest_nonneg (Laws.key maxZ - Laws.key minZ) ltac:(lia)).
      apply SFdiv_unit; try apply Prim2SF_valid; try assumption;
        fold (Laws.key (d - minZ)) (Laws.key (maxZ - minZ)); lia. }
  destruct D as (Fn & K0 & K1).
  pose proof (isFiniteSF_not_nan _ Fn) as Nn.
  rewrite !leb_key by (assumption || reflexivity).
  change (Laws.key 0) with 0. change (Laws.key 1) with (2 ^ 1074).
  split; apply Z.leb_le; lia.
Qed.

(** ** Opacity *)

(** C9 (as the program has it).  The opacity of every primitive
    [projectScene] returns is
    depthOpacity + (1 - depthOpacity) * normDepth ^ e.  The exponent [e] is
    [depthOpacityCurve || 1]: [depthOpacityCurve] itself when it is
    positive, and 1 when it is 0.  [normDepth] is the depth normalised
    across the batch, (depth - min) / ((max - min) || 1): [min] and [max]
    are the least and the greatest depth of the batch (each is the depth of
    one of its primitives and bounds them all), and for a batch of finite
    depths with a finite range [normDepth] lies in [0, 1]. *)
Theorem opacity_formula (M : MathLib) (st : Noise.State) (pts : list Point)
    (params : Params) (b : Projection.Bird) :
  In b (Projection.projectScene M st pts params) ->
  let birds := Projection.collect M st params 0 pts in
  let minZ := fst (Projection.depthRange birds) in
  let maxZ := snd (Projection.depthRange birds) in
  let nd := Spec.normDepth birds (Projection.depth b) in
  Projection.opacity b
  = Spec.opacityOf M params nd (JS.orElse (depthOpacityCurve params) 1.0)
  /\ ((0 <? depthOpacityCurve params)%float = true ->
      Projection.opacity b = Spec.opacityOf M params nd (depthOpacityCurve params))
  /\ ((depthOpacityCurve params =? 0)%float = true ->
      Projection.opacity b = Spec.opacityOf M params nd 1.0)
  /\ nd = ((Projection.depth b - minZ) / JS.orElse (maxZ - minZ) 1)%float
  /\ (exists c, In c birds /\ Projection.depth c = Projection.depth b)
  /\ (Spec.depthsAreNumbers birds = true ->
      (forall c, In c birds ->
         (minZ <=? Projection.depth c)%float = true
         /\ (Projection.depth c <=? maxZ)%float = true)
      /\ (exists c, In c birds /\ (Projection.depth c =? minZ)%float = true)
      /\ (exists c, In c birds /\ (Projection.depth c =? maxZ)%float = true))
  /\ (Laws.depthsAreFinite birds = true -> Laws.rangeIsFinite birds = true ->
      (0 <=? nd)%float = true /\ (nd <=? 1)%float = true).
Proof.
  intros H birds minZ maxZ nd.
  apply projectScene_In in H. destruct H as (b0 & dens & Hin & Hb).
  fold birds in Hin, Hb. fold minZ maxZ in Hb.
  pose proof (shade_keeps M params minZ (JS.orElse (maxZ - minZ) 1) dens b0) as K.
  cbv zeta in K. rewrite <- Hb in K. destruct K as (Kd & _ & _ & Ko).
  assert (En : nd = ((Projection.depth b - minZ) / JS.orElse (maxZ - minZ) 1)%float).
  { unfold nd, Spec.normDepth, minZ, maxZ.
    now destruct (Projection.depthRange birds). }
  assert (E : Projection.opacity b
              = Spec.opacityOf M params nd (JS.orElse (depthOpacityCurve params) 1.0)).
  { rewrite Ko, En, Kd. reflexivity. }
  assert (Ne : birds <> []) by (intros Z; rewrite Z in Hin; destruct Hin).
  split; [exact E|]. split; [|split; [|split; [exact En|split; [|split]]]].
  - intros Hc. rewrite E. now rewrite orElse_pos.
  - intros Hc. rewrite E. now rewrite orElse_zero.
  - exists b0. split; [exact Hin | now rewrite Kd].
  - intros Hn.
    destruct (depthRange_extremes birds Hn Ne) as (N1 & N2 & B & (c1 & I1 & E1) & (c2 & I2 & E2)).
    fold minZ in N1, B, E1. fold maxZ in N2, B, E2.
    assert (Hn' : forall c, In c birds -> is_nan (Projection.depth c) = false).
    { intros c Hc. unfold Spec.depthsAreNumbers in Hn. rewrite forallb_forall in Hn.
      specialize (Hn c Hc). unfold Spec.isNumber in Hn.
      now destruct (is_nan (Projection.depth c)). }
    split; [|split].
    + intros c Hc. specialize (B c Hc). specialize (Hn' c Hc).
      rewrite !leb_key by assumption. split; apply Z.leb_le; lia.
    + exists c1. split; [exact I1|]. rewrite eqb_key by auto. now apply Z.eqb_eq.
    + exists c2. split; [exact I2|]. rewrite eqb_key by auto. now apply Z.eqb_eq.
  - intros Hf Hr. rewrite En, Kd.
    assert (Hf' : forall c, In c birds -> is_finite (Projection.depth c) = true).
    { intros c Hc. unfold Laws.depthsAreFinite in Hf. rewrite forallb_forall in Hf.
      now apply Hf. }
    assert (Hn : Spec.depthsAreNumbers birds = true).
    { unfold Spec.depthsAreNumbers. apply forallb_forall. intros c Hc.
      unfold Spec.isNumber. now rewrite (finite_not_nan _ (Hf' c Hc)). }
    destruct (depthRange_extremes birds Hn Ne) as (N1 & N2 & B & (c1 & I1 & E1) & (c2 & I2 & E2)).
    fold minZ in N1, B, E1. fold maxZ in N2, B, E2.
    assert (KF : forall x y : float,
               is_finite x = true -> is_nan y = false -> Laws.key x = Laws.key y ->
               is_finite y = true).
    { intros x y Fx Ny Ex. rewrite is_finite_SF in *. rewrite is_nan_SF in Ny.
      pose proof top_pos as T.
      pose proof (Prim2SF_valid x) as Vx. unfold Laws.key in Ex.
      destruct (Prim2SF y) as [s|s| |s m e]; try reflexivity; try discriminate.
      exfalso. destruct (Prim2SF x) as [sx|sx| |sx mx ex]; try discriminate.
      - cbn [Laws.SFkey] in Ex. destruct s; lia.
      - pose proof (valid_finite_top sx mx ex Vx). cbn [Laws.SFkey] in Ex.
        cbv zeta in Ex. destruct s, sx; lia. }
    apply normalised_unit.
    + exact (KF _ _ (Hf' c1 I1) N1 E1).
    + exact (KF _ _ (Hf' c2 I2) N2 E2).
    + now apply Hf'.
    + now apply B.
    + exact Hr.
Qed.

Lemma opacity_formula_witness :
  exists b,
    In b (Projection.projectScene approxMath Examples.used Examples.cloud Examples.params)
    /\ Projection.opacity b
       = Spec.opacityOf approxMath Examples.params
           (Spec.normDepth
              (Projection.collect approxMath Examples.used Examples.params 0 Examples.cloud)
              (Projection.depth b))
           (JS.orElse (depthOpacityCurve Examples.params) 1.0)
    /\ (0 <=? Spec.normDepth
                (Projection.collect approxMath Examples.used Examples.params 0
                   Examples.cloud)
                (Projection.depth b))%float = true
    /\ (Spec.normDepth
          (Projection.collect approxMath Examples.used Examples.params 0 Examples.cloud)
          (Projection.depth b) <=? 1)%float = true.
Proof.
  assert (N : nonEmpty (Projection.projectScene approxMath Examples.used
                          Examples.cloud Examples.params) = true)
    by (vm_compute; reflexivity).
  destruct (Projection.projectScene approxMath Examples.used Examples.cloud
              Examples.params) as [|b l] eqn:E; [discriminate N|].
  exists b. split; [now left|].
  assert (Hin : In b (Projection.projectScene approxMath Examples.used Examples.cloud
                        Examples.params)) by (rewrite E; now left).
  destruct (opacity_formula approxMath Examples.used Examples.cloud Examples.params b Hin)
    as (O & _ & _ & _ & _ & _ & U).
  split; [exact O|]. apply U; vm_compute; reflexivity.
Defined.
(** C9 as the specification states it fails: with [depthOpacityCurve = 0]
    (and [depthOpacity = 0]) the single primitive of a one-point cloud has
    normalised depth 0 and opacity 0, where the stated formula gives
    0 + 1 * 0^0 = 1. *)
Lemma opacity_formula_counterexample :
  ~ (forall (M : MathLib) (st : Noise.State) (pts : list Point) (params : Params)
            (b : Projection.Bird),
        (0 <=? depthOpacityCurve params)%float = true ->
        In b (Projection.projectScene M st pts params) ->
        Projection.opacity b
        = Spec.opacityOf M params
            (Spec.normDepth (Projection.collect M st params 0 pts) (Projection.depth b))
            (depthOpacityCurve params)).
Proof.
  intros H.
  set (out := Projection.projectScene approxMath Examples.used [mkPoint 0 0 0]
                Examples.curveZero).
  set (b := hd (Projection.mkBird 0 0 0 0 0 0 0 0 0) out).
  assert (Hin : In b out) by (vm_compute; left; reflexivity).
  specialize (H approxMath Examples.used [mkPoint 0 0 0] Examples.curveZero b
                eq_refl Hin).
  revert H. apply float_neq; vm_compute; reflexivity.
Qed.
